(** * rag-module: chunking, embedding, deduplication, ranking and ingestion

    A shallow embedding of the ingestion-to-retrieval core of the
    repository (chunker.js, embeddings.js, db.js, rag.js) together with
    the properties its specification states about it.

    Conventions of the embedding:
    - JavaScript strings are [string]s, one character per code unit; the
      embedding is exact on ASCII text: [\s] and [trim] see the ASCII
      white space only, [toLowerCase] folds A-Z.
    - JavaScript numbers that hold sizes, ids and clock readings are [Z];
      embedding components and similarities are IEEE-754 binary64 values
      ([float], the kernel's primitive floats, rounding to nearest even
      exactly as JavaScript does).
    - [undefined] and [null] are [None].
    - Effects (database tables, lock file, clock, embedding cache, network
      calls) are threaded through an explicit [world]; a thrown [Error] is
      the [Throw] outcome carrying its message. *)

From Stdlib Require Import ZArith Uint63 Floats Ascii.
From stdpp Require Import base option list sorting gmap strings pretty.

Set Warnings "-inexact-float".

#[local] Open Scope Z_scope.

(** ** JavaScript values *)

Module Js.

(** [x || d] on an optional number: [undefined] and [0] are falsy. *)
Definition num_or (x : option Z) (d : Z) : Z :=
  match x with
  | Some v => if v =? 0 then d else v
  | None => d
  end.

(** Truthiness of a string: every string but the empty one. *)
Definition truthy (s : string) : bool :=
  match s with
  | EmptyString => false
  | String _ _ => true
  end.

(** [x || d] on an optional string. *)
Definition str_or (x : option string) (d : string) : string :=
  match x with
  | Some v => if truthy v then v else d
  | None => d
  end.

(** [s.length] as a number. *)
Definition len (s : string) : Z := Z.of_nat (String.length s).

Fixpoint drop_space (s : string) : string :=
  match s with
  | EmptyString => EmptyString
  | String c s' => if Ascii.is_space c then drop_space s' else s
  end.

(** [s.trim()] *)
Definition trim (s : string) : string :=
  String.rev (drop_space (String.rev (drop_space s))).

(** [s.replace(/\s+/g, ' ')]: every maximal run of white space becomes
    one blank. [in_run] tells that the previous character was white
    space already. *)
Fixpoint collapse_space (in_run : bool) (s : string) : string :=
  match s with
  | EmptyString => EmptyString
  | String c s' =>
      if Ascii.is_space c
      then if in_run then collapse_space true s'
           else String " "%char (collapse_space true s')
      else String c (collapse_space false s')
  end.

Definition lower_char (c : Ascii.ascii) : Ascii.ascii :=
  let n := Ascii.N_of_ascii c in
  if ((65 <=? n) && (n <=? 90))%N then Ascii.ascii_of_N (n + 32) else c.

(** [s.toLowerCase()] *)
Fixpoint toLowerCase (s : string) : string :=
  match s with
  | EmptyString => EmptyString
  | String c s' => String (lower_char c) (toLowerCase s')
  end.

(** [s.slice(0, n)] for a number [n]: a negative [n] counts from the
    end of the string. *)
Definition slice0 (n : Z) (s : string) : string :=
  if n <? 0
  then String.substring 0 (Z.to_nat (len s + n)) s
  else String.substring 0 (Z.to_nat n) s.

(** [l.slice(0, n)] on an array. *)
Definition take0 {A} (n : Z) (l : list A) : list A :=
  if n <? 0
  then take (Z.to_nat (Z.of_nat (length l) + n)) l
  else take (Z.to_nat n) l.

(** [s.indexOf(p)] *)
Definition indexOf (p s : string) : Z :=
  match String.index 0 p s with
  | Some i => Z.of_nat i
  | None => -1
  end.

(** [s.includes(p)] *)
Definition includes (p s : string) : bool :=
  bool_decide (is_Some (String.index 0 p s)).

(** [s.startsWith(p)] *)
Definition startsWith (p s : string) : bool := String.prefix p s.

(** [s.endsWith(p)] *)
Definition endsWith (p s : string) : bool :=
  String.prefix (String.rev p) (String.rev s).

(** A number as the binary64 value that JavaScript computes with (exact
    below 2^53). *)
Definition number (z : Z) : float := PrimFloat.of_uint63 (Uint63.of_Z z).

(** [l.join(sep)] *)
Definition join (sep : string) (l : list string) : string :=
  String.concat sep l.

End Js.

(** ** chunker.js *)

Module Chunker.

Definition DEFAULT_CHUNK_SIZE : Z := 800.
Definition DEFAULT_OVERLAP : Z := 200.
Definition MIN_CHUNK_SIZE : Z := 100.

Record options := {
  chunkSize : option Z;
  overlap : option Z;
  minChunkSize : option Z
}.

Definition no_options : options :=
  {| chunkSize := None; overlap := None; minChunkSize := None |}.

Definition is_terminal (c : Ascii.ascii) : bool :=
  match c with
  | "."%char | "!"%char | "?"%char => true
  | _ => false
  end.

(** [text.split(/(?<=[.!?])\s+/)]. A separator is a maximal run of
    white space whose predecessor is one of [.], [!], [?]. [cur] is the
    piece read so far, reversed; [after_terminal] tells that the last
    character read was terminal punctuation; [in_sep] that a separator
    is being skipped. *)
Fixpoint split_go (cur : string) (after_terminal in_sep : bool)
    (s : string) : list string :=
  match s with
  | EmptyString => [String.rev cur]
  | String c s' =>
      if Ascii.is_space c
      then if in_sep then split_go cur false true s'
           else if after_terminal
                then String.rev cur :: split_go EmptyString false true s'
                else split_go (String c cur) false false s'
      else split_go (String c cur) (is_terminal c) false s'
  end.

(** [splitSentences]: the split, without the pieces that are blank. *)
Definition splitSentences (text : string) : list string :=
  filter (fun s => Js.truthy (Js.trim s) = true)
         (split_go EmptyString false false text).

(** The variables of the loop of [chunkText]. *)
Record loop_state := {
  chunks : list string;
  currentChunk : string;
  currentSentences : list string
}.

(** The inner loop that collects the overlap, walking the sentences of
    the closed chunk from the last one backwards ([rev_sentences] is
    that walk) until one does not fit any more. *)
Fixpoint overlap_loop (overlap : Z) (rev_sentences : list string)
    (overlapText : string) (overlapSentences : list string)
    : string * list string :=
  match rev_sentences with
  | [] => (overlapText, overlapSentences)
  | s :: rest =>
      let testOverlap := s +:+ " " +:+ overlapText in
      if Js.len testOverlap <=? overlap
      then overlap_loop overlap rest testOverlap (s :: overlapSentences)
      else (overlapText, overlapSentences)
  end.

(** One turn of [for (const sentence of sentences)]. *)
Definition step (chunkSize overlap minChunkSize : Z)
    (st : loop_state) (sentence : string) : loop_state :=
  if Js.len (currentChunk st) + Js.len sentence + 1 >? chunkSize
  then
    let chunks' :=
      if Js.len (currentChunk st) >=? minChunkSize
      then chunks st ++ [Js.trim (currentChunk st)]
      else chunks st in
    let '(overlapText, overlapSentences) :=
      overlap_loop overlap (rev (currentSentences st)) EmptyString [] in
    {| chunks := chunks';
       currentChunk := overlapText +:+ sentence;
       currentSentences := overlapSentences ++ [sentence] |}
  else
    {| chunks := chunks st;
       currentChunk :=
         currentChunk st
         +:+ (if Js.truthy (currentChunk st) then " " else "")
         +:+ sentence;
       currentSentences := currentSentences st ++ [sentence] |}.

(** [chunks[chunks.length - 1] += suffix], on a non-empty array. *)
Definition append_to_last (l : list string) (suffix : string) : list string :=
  match last l with
  | Some c => <[ pred (length l) := c +:+ suffix ]> l
  | None => l
  end.

(** The code after the loop ("Add final chunk"). *)
Definition finish (minChunkSize : Z) (st : loop_state) : list string :=
  if Js.len (currentChunk st) >=? minChunkSize
  then chunks st ++ [Js.trim (currentChunk st)]
  else if (0 <? Z.of_nat (length (chunks st))) && (0 <? Js.len (currentChunk st))
  then append_to_last (chunks st) (" " +:+ Js.trim (currentChunk st))
  else if 0 <? Js.len (currentChunk st)
  then chunks st ++ [Js.trim (currentChunk st)]
  else chunks st.

Definition clean (text : string) : string :=
  Js.trim (Js.collapse_space false text).

Definition chunkText (text : string) (o : options) : list string :=
  let chunkSize := Js.num_or (chunkSize o) DEFAULT_CHUNK_SIZE in
  let overlap := Js.num_or (overlap o) DEFAULT_OVERLAP in
  let minChunkSize := Js.num_or (minChunkSize o) MIN_CHUNK_SIZE in
  let cleaned := clean text in
  if Js.len cleaned <=? chunkSize then [cleaned]
  else
    let sentences := splitSentences cleaned in
    finish minChunkSize
      (fold_left (step chunkSize overlap minChunkSize) sentences
         {| chunks := []; currentChunk := ""; currentSentences := [] |}).

Record chunk := {
  content : string;
  index : Z;
  charStart : Z;
  charLength : Z
}.

Definition createChunks (text : string) (o : options) : list chunk :=
  imap (fun i c =>
          {| content := c;
             index := Z.of_nat i;
             charStart := Js.indexOf (Js.slice0 50 c) text;
             charLength := Js.len c |})
       (chunkText text o).

End Chunker.

(** ** The world the module acts on *)

(** A value returned, or an [Error] thrown with its message. *)
Inductive outcome (A : Type) : Type :=
  | Ok (a : A)
  | Throw (message : string).
Arguments Ok {A} a.
Arguments Throw {A} message.

(** The result of [embed]: [{ embedding, provider, model }]. [provider]
    and [model] are still [undefined] when no branch assigned them. *)
Record embed_result := {
  embedding : list float;
  provider : option string;
  model : option string
}.

Module Store.

(** A row of table [sources]. *)
Record source_row := {
  id : Z;
  url : option string;
  url_normalized : option string;
  title : string;
  source_type : string;
  summary : string;
  raw_content : string;
  content_hash : string;
  tags : list string;
  metadata : list (string * string)
}.

(** A row of table [chunks]. *)
Record chunk_row := {
  chunk_id : Z;
  source_id : Z;
  chunk_index : Z;
  content : string;
  embedding : option (list float);
  embedding_dim : option Z;
  embedding_provider : option string;
  embedding_model : option string
}.

(** The marker [.rag.lock]: its modification time and its text. *)
Record lock_file := {
  mtimeMs : Z;
  pid_text : string
}.

End Store.

(** Everything an ingest or a search can read or change: the two tables
    with their AUTOINCREMENT counters, the lock marker, the clock
    ([Date.now()], advanced by [sleep]), the module-wide embedding cache
    (a [Map], oldest entry first) and the number of calls made so far to
    each outside service. *)
Record world := {
  sources : list Store.source_row;
  chunks : list Store.chunk_row;
  next_source_id : Z;
  next_chunk_id : Z;
  lock : option Store.lock_file;
  clock : Z;
  cache : list (string * embed_result);
  gemini_calls : nat;
  openai_calls : nat;
  extract_calls : nat;
  rpc_calls : nat
}.

Definition set_sources (f : list Store.source_row -> list Store.source_row)
    (w : world) : world :=
  {| sources := f (sources w); chunks := chunks w;
     next_source_id := next_source_id w; next_chunk_id := next_chunk_id w;
     lock := lock w; clock := clock w; cache := cache w;
     gemini_calls := gemini_calls w; openai_calls := openai_calls w;
     extract_calls := extract_calls w; rpc_calls := rpc_calls w |}.

Definition set_chunks (f : list Store.chunk_row -> list Store.chunk_row)
    (w : world) : world :=
  {| sources := sources w; chunks := f (chunks w);
     next_source_id := next_source_id w; next_chunk_id := next_chunk_id w;
     lock := lock w; clock := clock w; cache := cache w;
     gemini_calls := gemini_calls w; openai_calls := openai_calls w;
     extract_calls := extract_calls w; rpc_calls := rpc_calls w |}.

Definition set_next_source_id (n : Z) (w : world) : world :=
  {| sources := sources w; chunks := chunks w;
     next_source_id := n; next_chunk_id := next_chunk_id w;
     lock := lock w; clock := clock w; cache := cache w;
     gemini_calls := gemini_calls w; openai_calls := openai_calls w;
     extract_calls := extract_calls w; rpc_calls := rpc_calls w |}.

Definition set_next_chunk_id (n : Z) (w : world) : world :=
  {| sources := sources w; chunks := chunks w;
     next_source_id := next_source_id w; next_chunk_id := n;
     lock := lock w; clock := clock w; cache := cache w;
     gemini_calls := gemini_calls w; openai_calls := openai_calls w;
     extract_calls := extract_calls w; rpc_calls := rpc_calls w |}.

Definition set_lock (l : option Store.lock_file) (w : world) : world :=
  {| sources := sources w; chunks := chunks w;
     next_source_id := next_source_id w; next_chunk_id := next_chunk_id w;
     lock := l; clock := clock w; cache := cache w;
     gemini_calls := gemini_calls w; openai_calls := openai_calls w;
     extract_calls := extract_calls w; rpc_calls := rpc_calls w |}.

Definition set_clock (t : Z) (w : world) : world :=
  {| sources := sources w; chunks := chunks w;
     next_source_id := next_source_id w; next_chunk_id := next_chunk_id w;
     lock := lock w; clock := t; cache := cache w;
     gemini_calls := gemini_calls w; openai_calls := openai_calls w;
     extract_calls := extract_calls w; rpc_calls := rpc_calls w |}.

Definition set_cache (c : list (string * embed_result)) (w : world) : world :=
  {| sources := sources w; chunks := chunks w;
     next_source_id := next_source_id w; next_chunk_id := next_chunk_id w;
     lock := lock w; clock := clock w; cache := c;
     gemini_calls := gemini_calls w; openai_calls := openai_calls w;
     extract_calls := extract_calls w; rpc_calls := rpc_calls w |}.

Definition set_gemini_calls (n : nat) (w : world) : world :=
  {| sources := sources w; chunks := chunks w;
     next_source_id := next_source_id w; next_chunk_id := next_chunk_id w;
     lock := lock w; clock := clock w; cache := cache w;
     gemini_calls := n; openai_calls := openai_calls w;
     extract_calls := extract_calls w; rpc_calls := rpc_calls w |}.

Definition set_openai_calls (n : nat) (w : world) : world :=
  {| sources := sources w; chunks := chunks w;
     next_source_id := next_source_id w; next_chunk_id := next_chunk_id w;
     lock := lock w; clock := clock w; cache := cache w;
     gemini_calls := gemini_calls w; openai_calls := n;
     extract_calls := extract_calls w; rpc_calls := rpc_calls w |}.

Definition set_extract_calls (n : nat) (w : world) : world :=
  {| sources := sources w; chunks := chunks w;
     next_source_id := next_source_id w; next_chunk_id := next_chunk_id w;
     lock := lock w; clock := clock w; cache := cache w;
     gemini_calls := gemini_calls w; openai_calls := openai_calls w;
     extract_calls := n; rpc_calls := rpc_calls w |}.

Definition set_rpc_calls (n : nat) (w : world) : world :=
  {| sources := sources w; chunks := chunks w;
     next_source_id := next_source_id w; next_chunk_id := next_chunk_id w;
     lock := lock w; clock := clock w; cache := cache w;
     gemini_calls := gemini_calls w; openai_calls := openai_calls w;
     extract_calls := extract_calls w; rpc_calls := n |}.

(** ** Computations that change the world and may throw *)

Definition M (A : Type) : Type := world -> outcome A * world.

Definition ret {A} (a : A) : M A := fun w => (Ok a, w).

Definition throw {A} (message : string) : M A := fun w => (Throw message, w).

Definition bind {A B} (c : M A) (k : A -> M B) : M B :=
  fun w =>
    match c w with
    | (Ok a, w') => k a w'
    | (Throw e, w') => (Throw e, w')
    end.

(** [try { c } catch (error) { h error }] *)
Definition try_catch {A} (c : M A) (h : string -> M A) : M A :=
  fun w =>
    match c w with
    | (Ok a, w') => (Ok a, w')
    | (Throw e, w') => h e w'
    end.

(** [try { c } finally { f }], for an [f] that does not throw. *)
Definition try_finally {A} (c : M A) (f : world -> world) : M A :=
  fun w => let '(r, w') := c w in (r, f w').

Definition get_world : M world := fun w => (Ok w, w).

Definition modify (f : world -> world) : M unit := fun w => (Ok tt, f w).

Notation "'do' x <- c1 ; c2" := (bind c1 (fun x => c2))
  (at level 10, x pattern, c1 at level 100, c2 at level 200,
   format "'[v' 'do'  x  <-  c1 ; '/' c2 ']'").
Notation "c1 ;; c2" := (bind c1 (fun _ => c2))
  (at level 100, c2 at level 200, right associativity).

(** [await sleep(ms)]: time passes. *)
Definition sleep (ms : Z) : M unit :=
  modify (fun w => set_clock (clock w + ms) w).

(** ** The collaborators outside the repository *)

(** What an embedding endpoint answers to one request. *)
Inductive http_reply :=
  | NetworkError (message : string)
  | HttpError (status : Z) (body : string)
  | HttpOk (values : option (list float)).

(** What [extract] (extractors.js) hands to the coordinator. *)
Record extracted := {
  x_title : string;
  x_content : string;
  x_excerpt : string;
  x_sourceType : string;
  x_url : option string
}.

(** A chunk joined with its source, as the ranking reads it. *)
Record chunk_view := {
  v_id : Z;
  v_source_id : Z;
  v_chunk_index : Z;
  v_content : string;
  v_embedding : option (list float);
  v_title : string;
  v_url : option string;
  v_source_type : string
}.

(** [{ ...chunk, similarity }] *)
Record scored_row := {
  row : chunk_view;
  similarity : float
}.

(** The outside services, each a function of the number of calls made
    to it before (so that a service may answer the same request
    differently over time):
    - the two embedding endpoints, given the API key and the text sent;
    - the extraction of content from an input, with the optional type
      hint;
    - SHA-256 in hexadecimal ([crypto.createHash]);
    - rounding to single precision ([Float32Array]);
    - the stored procedure [match_rag_chunks] of the Supabase backend,
      [None] when the call reports an error. *)
Class Collaborators := {
  fetch_gemini : nat -> string -> string -> http_reply;
  fetch_openai : nat -> string -> string -> http_reply;
  extract : nat -> string -> option string -> outcome extracted;
  sha256_hex : string -> string;
  fround : float -> float;
  match_rag_chunks : nat -> list float -> Z -> option (list scored_row)
}.

(** ** embeddings.js *)

Module Embeddings.

Definition GEMINI_EMBEDDING_MODEL : string := "text-embedding-004".
Definition OPENAI_EMBEDDING_MODEL : string := "text-embedding-3-small".

Definition MAX_RETRIES : nat := 3.
Definition RETRY_DELAYS : list Z := [1000; 2000; 4000].
Definition BATCH_SIZE : nat := 10.
Definition BATCH_DELAY : Z := 200.
Definition MAX_INPUT_CHARS : Z := 8000.

(** *** The cache: [class EmbeddingCache] over a [Map] *)

Definition CACHE_MAX_SIZE : Z := 1000.

(** [Map.prototype.get] *)
Fixpoint map_get {V} (key : string) (m : list (string * V)) : option V :=
  match m with
  | [] => None
  | (k, v) :: m' => if decide (k = key) then Some v else map_get key m'
  end.

(** [Map.prototype.delete] *)
Fixpoint map_delete {V} (key : string) (m : list (string * V))
    : list (string * V) :=
  match m with
  | [] => []
  | (k, v) :: m' =>
      if decide (k = key) then map_delete key m'
      else (k, v) :: map_delete key m'
  end.

(** [Map.prototype.set]: a key already present keeps its place, a new
    key goes last. *)
Fixpoint map_set {V} (key : string) (value : V) (m : list (string * V))
    : list (string * V) :=
  match m with
  | [] => [(key, value)]
  | (k, v) :: m' =>
      if decide (k = key) then (k, value) :: m'
      else (k, v) :: map_set key value m'
  end.

(** [cache.get(key)]: a hit moves the entry to the end. *)
Definition cache_get (key : string) : M (option embed_result) :=
  fun w =>
    match map_get key (cache w) with
    | Some value =>
        (Ok (Some value),
         set_cache (map_set key value (map_delete key (cache w))) w)
    | None => (Ok None, w)
    end.

(** [cache.set(key, value)]: at capacity the oldest entry goes first. *)
Definition cache_set (key : string) (value : embed_result) : M unit :=
  modify (fun w =>
    let c :=
      if Z.of_nat (length (cache w)) >=? CACHE_MAX_SIZE
      then match cache w with
           | (firstKey, _) :: _ => map_delete firstKey (cache w)
           | [] => []
           end
      else cache w in
    set_cache (map_set key value c) w).

(** [ToInt32]: the signed 32-bit value of an integer. *)
Definition to_int32 (z : Z) : Z :=
  let m := z mod 2 ^ 32 in
  if m <? 2 ^ 31 then m else m - 2 ^ 32.

(** One turn of the loop of [hash]:
    [hash = ((hash << 5) - hash) + char; hash = hash & hash]. *)
Definition hash_step (hash : Z) (c : Ascii.ascii) : Z :=
  let char := Z.of_N (Ascii.N_of_ascii c) in
  let hash := (to_int32 (Z.shiftl (to_int32 hash) 5) - hash) + char in
  to_int32 (Z.land (to_int32 hash) (to_int32 hash)).

Fixpoint hash_loop (hash : Z) (str : string) : Z :=
  match str with
  | EmptyString => hash
  | String c str' => hash_loop (hash_step hash c) str'
  end.

(** [cache.hash(text, provider)] *)
Definition hash (text provider : string) : string :=
  pretty (hash_loop 0 (provider +:+ ":" +:+ text)).

(** *** Retry *)

(** [RETRY_DELAYS[i] || RETRY_DELAYS[RETRY_DELAYS.length - 1]] *)
Definition retry_delay (i : nat) : Z :=
  Js.num_or (RETRY_DELAYS !! i)
    (default 0 (RETRY_DELAYS !! pred (length RETRY_DELAYS))).

(** The loop of [retryWithBackoff] from turn [i] on, [remaining] turns
    before [i] reaches [retries]. Falling out of the loop returns
    [undefined]. *)
Fixpoint retry_loop {A} (fn : M A) (retries i remaining : nat)
    : M (option A) :=
  match remaining with
  | O => ret None
  | S remaining' =>
      try_catch
        (do a <- fn; ret (Some a))
        (fun error =>
           if decide (i = pred retries) then throw error
           else sleep (retry_delay i) ;;
                retry_loop fn retries (S i) remaining')
  end.

Definition retryWithBackoff {A} (fn : M A) (retries : nat) : M (option A) :=
  retry_loop fn retries 0 retries.

(** *** The two providers *)

Section Providers.
Context `{Collaborators}.

(** [embedWithGemini]: the request is the next call to the endpoint. *)
Definition embedWithGemini (text apiKey : string) : M (list float) :=
  let truncated := Js.slice0 MAX_INPUT_CHARS text in
  do w <- get_world;
  modify (set_gemini_calls (S (gemini_calls w))) ;;
  match fetch_gemini (gemini_calls w) apiKey truncated with
  | NetworkError message => throw message
  | HttpError status error =>
      throw ("Gemini API error: " +:+ pretty status +:+ " - " +:+ error)
  | HttpOk values => ret (default [] values)
  end.

(** [embedWithOpenAI] *)
Definition embedWithOpenAI (text apiKey : string) : M (list float) :=
  let truncated := Js.slice0 MAX_INPUT_CHARS text in
  do w <- get_world;
  modify (set_openai_calls (S (openai_calls w))) ;;
  match fetch_openai (openai_calls w) apiKey truncated with
  | NetworkError message => throw message
  | HttpError status error =>
      throw ("OpenAI API error: " +:+ pretty status +:+ " - " +:+ error)
  | HttpOk values => ret (default [] values)
  end.

(** The fields of [class EmbeddingProvider]. A key that is missing or
    empty is falsy. *)
Record provider_state := {
  geminiKey : option string;
  openaiKey : option string;
  preferredProvider : string
}.

Definition key_of (k : option string) : option string :=
  match k with
  | Some s => if Js.truthy s then Some s else None
  | None => None
  end.

(** The three local variables of [embed]. *)
Record attempt := {
  a_embedding : option (list float);
  a_provider : option string;
  a_model : option string
}.

Definition nothing_yet : attempt :=
  {| a_embedding := None; a_provider := None; a_model := None |}.

(** [const cached = cache.get(cacheKey); if (cached) return cached;] *)
Definition embed_lookup (p : provider_state) (text : string)
    : M (option embed_result) :=
  cache_get (hash text (preferredProvider p)).

(** The rest of [embed], after a cache miss. *)
Definition embed_fetch (p : provider_state) (text : string)
    : M embed_result :=
  let cacheKey := hash text (preferredProvider p) in
  (* Try preferred provider first *)
  do a1 <-
    match key_of (geminiKey p) with
    | Some key =>
        if decide (preferredProvider p = "gemini")
        then try_catch
               (do e <- retryWithBackoff (embedWithGemini text key)
                          MAX_RETRIES;
                ret {| a_embedding := e;
                       a_provider := Some "gemini";
                       a_model := Some GEMINI_EMBEDDING_MODEL |})
               (fun _ => ret nothing_yet)
        else ret nothing_yet
    | None => ret nothing_yet
    end;
  (* Fallback to OpenAI *)
  do a2 <-
    match a_embedding a1, key_of (openaiKey p) with
    | None, Some key =>
        do e <- retryWithBackoff (embedWithOpenAI text key) MAX_RETRIES;
        ret {| a_embedding := e;
               a_provider := Some "openai";
               a_model := Some OPENAI_EMBEDDING_MODEL |}
    | _, _ => ret a1
    end;
  (* Try Gemini as last resort if OpenAI was preferred *)
  do a3 <-
    match a_embedding a2, key_of (geminiKey p) with
    | None, Some key =>
        if decide (preferredProvider p = "openai")
        then do e <- retryWithBackoff (embedWithGemini text key)
                       MAX_RETRIES;
             ret {| a_embedding := e;
                    a_provider := Some "gemini";
                    a_model := Some GEMINI_EMBEDDING_MODEL |}
        else ret a2
    | _, _ => ret a2
    end;
  match a_embedding a3 with
  | None | Some [] =>
      throw "No embedding provider available or all providers failed"
  | Some e =>
      let result := {| embedding := e;
                       provider := a_provider a3;
                       model := a_model a3 |} in
      cache_set cacheKey result ;;
      ret result
  end.

(** [embed(text)] *)
Definition embed (p : provider_state) (text : string) : M embed_result :=
  do cached <- embed_lookup p text;
  match cached with
  | Some result => ret result
  | None => embed_fetch p text
  end.

(** [Promise.all(batch.map(text => this.embed(text)))]. Creating the
    promises runs the synchronous start of every call, the cache
    lookup, in order ([lookup_all]); the calls that missed then run to
    their end, here one after the other in the order of the batch
    ([settle_all]). A call that throws does not stop the others; the
    batch rejects with the first rejection. *)
Fixpoint lookup_all (p : provider_state) (batch : list string)
    : M (list (string * option embed_result)) :=
  match batch with
  | [] => ret []
  | text :: rest =>
      do cached <- embed_lookup p text;
      do others <- lookup_all p rest;
      ret ((text, cached) :: others)
  end.

Fixpoint settle_all (p : provider_state)
    (started : list (string * option embed_result))
    : world -> list (outcome embed_result) * world :=
  fun w =>
    match started with
    | [] => ([], w)
    | (text, cached) :: rest =>
        let '(r, w1) :=
          match cached with
          | Some result => (Ok result, w)
          | None => embed_fetch p text w
          end in
        let '(rs, w2) := settle_all p rest w1 in
        (r :: rs, w2)
    end.

Fixpoint all_settled {A} (rs : list (outcome A)) : outcome (list A) :=
  match rs with
  | [] => Ok []
  | Throw e :: _ => Throw e
  | Ok a :: rs' =>
      match all_settled rs' with
      | Ok l => Ok (a :: l)
      | Throw e => Throw e
      end
  end.

Definition promise_all_embed (p : provider_state) (batch : list string)
    : M (list embed_result) :=
  do started <- lookup_all p batch;
  fun w => let '(rs, w') := settle_all p started w in (all_settled rs, w').

(** The loop of [embedBatch] over [texts.slice(i, i + BATCH_SIZE)];
    [fuel] bounds the number of turns. *)
Fixpoint embedBatch_loop (fuel : nat) (p : provider_state)
    (texts : list string) (results : list embed_result)
    : M (list embed_result) :=
  match fuel, texts with
  | _, [] | O, _ => ret results
  | S fuel', _ =>
      let batch := take BATCH_SIZE texts in
      let rest := drop BATCH_SIZE texts in
      do batchResults <- promise_all_embed p batch;
      (match rest with
       | [] => ret tt
       | _ :: _ => sleep BATCH_DELAY
       end) ;;
      embedBatch_loop fuel' p rest (results ++ batchResults)
  end.

(** [embedBatch(texts)] *)
Definition embedBatch (p : provider_state) (texts : list string)
    : M (list embed_result) :=
  embedBatch_loop (length texts) p texts [].

End Providers.

(** *** Cosine similarity *)

#[local] Open Scope float_scope.

(** The three running sums of the loop of [cosineSimilarity]. *)
Fixpoint sums (a b : list float) (dotProduct normA normB : float)
    : float * float * float :=
  match a, b with
  | x :: a', y :: b' =>
      sums a' b' (dotProduct + x * y) (normA + x * x) (normB + y * y)
  | _, _ => (dotProduct, normA, normB)
  end.

Definition cosineSimilarity (a b : list float) : float :=
  if negb (length a =? length b)%nat then 0
  else
    let '(dotProduct, normA, normB) := sums a b 0 0 0 in
    let denominator := sqrt normA * sqrt normB in
    if denominator =? 0 then 0 else dotProduct / denominator.

End Embeddings.

(** ** db.js *)

(** *** The platform's [URL] class, for plain web addresses

    [Url.parse] stands for [new URL(url)] on plain addresses: strings of
    the shape [scheme://host[:port][/path][?query][#fragment]] with scheme
    http or https, no credentials, a port that the platform keeps as
    written, and a path and a query in which the platform changes nothing,
    neither when it parses (dot segments, back slashes, characters that it
    percent-encodes) nor when [searchParams.delete] writes the query again
    (letters, digits and the four characters of [*-._] stay, a blank
    becomes [+], every other character is percent-encoded). A string
    without such a scheme and host counts as not parseable ([None], the
    [catch] branch of [normalizeUrl]). On an address that is not plain,
    [Url.parse] keeps the text where the platform would rewrite it. *)

Module Url.

Record t := {
  protocol : string;
  hostname : string;
  port : string;
  pathname : string;
  searchParams : list (string * string);
  hash : string
}.

(** The text before the first [c], and the text after it if [c] occurs. *)
Fixpoint cut (c : Ascii.ascii) (s : string) : string * option string :=
  match s with
  | EmptyString => (EmptyString, None)
  | String a s' =>
      if decide (a = c) then (EmptyString, Some s')
      else let '(h, t) := cut c s' in (String a h, t)
  end.

Fixpoint pieces (fuel : nat) (c : Ascii.ascii) (s : string) : list string :=
  match fuel with
  | O => [s]
  | S fuel' =>
      match cut c s with
      | (h, Some t) => h :: pieces fuel' c t
      | (h, None) => [h]
      end
  end.

(** [s.split(c)] *)
Definition split (c : Ascii.ascii) (s : string) : list string :=
  pieces (String.length s) c s.

Definition strip_prefix (p s : string) : option string :=
  if String.prefix p s
  then Some (String.substring (String.length p)
               (String.length s - String.length p) s)
  else None.

Fixpoint all_digits (s : string) : bool :=
  match s with
  | EmptyString => true
  | String a s' => bool_decide (is_Some (Ascii.is_nat a)) && all_digits s'
  end.

(** The name-value pairs of a query string. *)
Definition parse_query (q : string) : list (string * string) :=
  omap (fun piece =>
          if Js.truthy piece
          then let '(name, value) := cut "="%char piece in
               Some (name, default EmptyString value)
          else None)
       (split "&"%char q).

Definition default_port (scheme : string) : string :=
  if decide (scheme = "https") then "443" else "80".

Definition parse (input : string) : option t :=
  match cut ":"%char input with
  | (scheme, Some rest) =>
      let scheme := Js.toLowerCase scheme in
      if bool_decide (scheme = "http" \/ scheme = "https")
      then
        match strip_prefix "//" rest with
        | Some rest =>
            let '(before_hash, fragment) := cut "#"%char rest in
            let '(before_query, query) := cut "?"%char before_hash in
            let '(authority, path) := cut "/"%char before_query in
            let '(host, port) := cut ":"%char authority in
            let port := default EmptyString port in
            if Js.truthy host
               && negb (bool_decide ("@"%char ∈ String.list_ascii_of_string authority))
               && all_digits port
            then Some {|
              protocol := scheme +:+ ":";
              hostname := Js.toLowerCase host;
              port := if decide (port = default_port scheme)
                      then EmptyString else port;
              pathname := "/" +:+ default EmptyString path;
              searchParams := parse_query (default EmptyString query);
              hash := match fragment with
                      | Some f => if Js.truthy f then "#" +:+ f else ""
                      | None => ""
                      end |}
            else None
        | None => None
        end
      else None
  | (_, None) => None
  end.

(** [parsed.searchParams.delete(name)] *)
Definition searchParams_delete (name : string) (u : t) : t :=
  {| protocol := protocol u; hostname := hostname u; port := port u;
     pathname := pathname u;
     searchParams := filter (fun p => p.1 <> name) (searchParams u);
     hash := hash u |}.

(** [parsed.hostname = h]; an empty host is refused for these schemes. *)
Definition set_hostname (h : string) (u : t) : t :=
  if Js.truthy h
  then {| protocol := protocol u; hostname := Js.toLowerCase h;
          port := port u; pathname := pathname u;
          searchParams := searchParams u; hash := hash u |}
  else u.

(** [parsed.origin] *)
Definition origin (u : t) : string :=
  protocol u +:+ "//" +:+ hostname u
  +:+ (if Js.truthy (port u) then ":" +:+ port u else "").

(** [parsed.search] *)
Definition search (u : t) : string :=
  match searchParams u with
  | [] => ""
  | _ :: _ =>
      "?" +:+ Js.join "&"
                (map (fun p => p.1 +:+ "=" +:+ p.2) (searchParams u))
  end.

End Url.

Module Db.

Import Store.

Definition trackingParams : list string :=
  ["utm_source"; "utm_medium"; "utm_campaign"; "utm_content";
   "fbclid"; "igshid"; "ref"; "s"; "t"; "si"; "feature"].

(** [h.replace(/^www\./, '')] *)
Definition strip_www (h : string) : string :=
  default h (Url.strip_prefix "www." h).

(** [p.replace(/\/$/, '')] *)
Definition strip_trailing_slash (p : string) : string :=
  match String.rev p with
  | String "/"%char r => String.rev r
  | _ => p
  end.

(** [normalizeUrl(url)] *)
Definition normalizeUrl (url : option string) : option string :=
  match url with
  | None => None
  | Some url =>
      if negb (Js.truthy url) then None
      else
        match Url.parse url with
        | Some parsed =>
            (* Remove tracking params *)
            let parsed :=
              fold_left (fun u p => Url.searchParams_delete p u)
                        trackingParams parsed in
            (* Normalize twitter -> x *)
            let parsed :=
              if decide (Url.hostname parsed = "twitter.com")
              then Url.set_hostname "x.com" parsed else parsed in
            (* Remove www *)
            let parsed :=
              Url.set_hostname (strip_www (Url.hostname parsed)) parsed in
            (* Remove trailing slash and fragment *)
            let normalized :=
              Url.origin parsed
              +:+ strip_trailing_slash (Url.pathname parsed)
              +:+ Url.search parsed in
            Some (Js.toLowerCase normalized)
        | None => Some (Js.toLowerCase url)
        end
  end.

Section Database.
Context `{Collaborators}.

(** [hashContent(content)] *)
Definition hashContent (content : string) : string := sha256_hex content.

(** [SELECT id FROM sources WHERE url_normalized = ?], first row. *)
Definition select_by_url (n : string) (w : world) : option source_row :=
  find (fun r => bool_decide (url_normalized r = Some n)) (sources w).

(** [SELECT id FROM sources WHERE content_hash = ?], first row. *)
Definition select_by_hash (h : string) (w : world) : option source_row :=
  find (fun r => bool_decide (content_hash r = h)) (sources w).

(** [sourceExists(url, content)] *)
Definition sourceExists (url : option string) (content : string)
    : M (option source_row) :=
  let normalizedUrl := normalizeUrl url in
  let contentHash := hashContent content in
  do w <- get_world;
  let byUrl :=
    match normalizedUrl with
    | Some n => if Js.truthy n then select_by_url n w else None
    | None => None
    end in
  let byHash := select_by_hash contentHash w in
  ret (match byUrl with Some r => Some r | None => byHash end).

(** The argument of [insertSource]. *)
Record new_source := {
  n_url : option string;
  n_title : string;
  n_sourceType : string;
  n_summary : string;
  n_rawContent : string;
  n_tags : list string;
  n_metadata : list (string * string)
}.

(** The row that [INSERT INTO sources] writes. *)
Definition source_row_of (rowid : Z) (n : new_source) : source_row :=
  {| id := rowid;
     url := n_url n;
     url_normalized := normalizeUrl (n_url n);
     title := n_title n;
     source_type := n_sourceType n;
     summary := n_summary n;
     raw_content := n_rawContent n;
     content_hash := hashContent (n_rawContent n);
     tags := n_tags n;
     metadata := n_metadata n |}.

(** [insertSource({...})]: returns [lastInsertRowid]. *)
Definition insertSource (n : new_source) : M Z :=
  do w <- get_world;
  let rowid := next_source_id w in
  modify (fun w =>
    set_next_source_id (rowid + 1)
      (set_sources (fun t => t ++ [source_row_of rowid n]) w)) ;;
  ret rowid.

(** A chunk merged with its embedding, as [insertChunks] receives it. *)
Record embedded_chunk := {
  e_chunk : Chunker.chunk;
  e_embedding : list float;
  e_provider : option string;
  e_model : option string
}.

Definition chunk_row_of (sourceId rowid : Z) (i : nat) (c : embedded_chunk)
    : chunk_row :=
  {| chunk_id := rowid + Z.of_nat i;
     source_id := sourceId;
     chunk_index := Z.of_nat i;
     content := Chunker.content (e_chunk c);
     embedding := Some (map fround (e_embedding c));
     embedding_dim :=
       (let n := Z.of_nat (length (e_embedding c)) in
        if n =? 0 then None else Some n);
     embedding_provider := e_provider c;
     embedding_model := e_model c |}.

(** [insertChunks(sourceId, chunks)]: one transaction. *)
Definition insertChunks (sourceId : Z) (cs : list embedded_chunk) : M unit :=
  modify (fun w =>
    set_next_chunk_id (next_chunk_id w + Z.of_nat (length cs))
      (set_chunks (fun t => t ++ imap (chunk_row_of sourceId (next_chunk_id w)) cs)
         w)).

(** [getAllChunksWithEmbeddings()]: chunks [JOIN] sources on the id,
    where the embedding is not null. *)
Definition getAllChunksWithEmbeddings : M (list chunk_view) :=
  do w <- get_world;
  ret (omap (fun c : chunk_row =>
               match embedding c with
               | None => None
               | Some e =>
                   match find (fun s => bool_decide (id s = source_id c))
                              (sources w) with
                   | Some s =>
                       Some {| v_id := chunk_id c;
                               v_source_id := source_id c;
                               v_chunk_index := chunk_index c;
                               v_content := content c;
                               v_embedding := Some e;
                               v_title := title s;
                               v_url := url s;
                               v_source_type := source_type s |}
                   | None => None
                   end
               end)
            (chunks w)).

End Database.

(** [getSource(id)]: [SELECT * FROM sources WHERE id = ?], the first row,
    [undefined] when there is none. *)
Definition getSource (i : Z) : M (option source_row) :=
  do w <- get_world;
  ret (find (fun r => bool_decide (id r = i)) (sources w)).

(** [deleteSource(id)]: [DELETE FROM sources WHERE id = ?]. The connection
    runs with [foreign_keys = ON] and the chunks reference their source
    [ON DELETE CASCADE], so the chunks of the source go with it. The
    answer is [changes], the number of source rows deleted. *)
Definition deleteSource (i : Z) : M Z :=
  do w <- get_world;
  modify (fun w =>
    set_chunks (filter (fun c => source_id c <> i))
      (set_sources (filter (fun r => id r <> i)) w)) ;;
  ret (Z.of_nat (length (filter (fun r => id r = i) (sources w)))).

(** What [getStats()] returns. [byType] is an object keyed by source
    type. *)
Record stats := {
  totalSources : Z;
  totalChunks : Z;
  byType : gmap string Z
}.

(** [GROUP BY source_type] with its count, as the loop
    [counts[t] = (counts[t] || 0) + 1] over the rows. *)
Definition count_by_type (rows : list source_row) : gmap string Z :=
  fold_left (fun counts r =>
               <[source_type r :=
                   Js.num_or (counts !! source_type r) 0 + 1]> counts)
            rows ∅.

(** [getStats()] *)
Definition getStats : M stats :=
  do w <- get_world;
  ret {| totalSources := Z.of_nat (length (sources w));
         totalChunks := Z.of_nat (length (chunks w));
         byType := count_by_type (sources w) |}.

(** [cosineSimilarity] as db.js exports it: null-safe. *)
Definition cosineSimilarity (a b : option (list float)) : float :=
  match a, b with
  | Some a, Some b => Embeddings.cosineSimilarity a b
  | _, _ => 0%float
  end.

End Db.

(** ** rag.js *)

Module Rag.

Definition LOCK_FILE : string := ".rag.lock".
Definition LOCK_TIMEOUT : Z := 15 * 60 * 1000.

(** The database classes: [RagDatabase] of db.js, which has no
    [vectorSearch], and the two implementations that [createDatabase]
    chooses from, which have one. All three keep the same two tables,
    local or remote; [world] holds the tables of the one in use. *)
Inductive database := RagDatabase | SQLiteDatabase | SupabaseDatabase.

Definition has_vectorSearch (d : database) : bool :=
  match d with
  | RagDatabase => false
  | SQLiteDatabase | SupabaseDatabase => true
  end.

(** The fields of [class RAG] that ingest and search read, and the id
    of the process. *)
Record t := {
  db : database;
  backend : string;
  embedder : Embeddings.provider_state;
  chunkOptions : Chunker.options;
  isAsync : bool;
  pid : Z
}.

Record config := {
  c_dbPath : option string;
  c_backend : option string;
  c_geminiKey : option string;
  c_openaiKey : option string;
  c_preferredProvider : option string;
  c_chunkSize : option Z;
  c_overlap : option Z
}.

(** [process.env] *)
Record env := {
  SUPABASE_URL : option string;
  SUPABASE_KEY : option string;
  SUPABASE_ANON_KEY : option string;
  GEMINI_API_KEY : option string;
  GOOGLE_API_KEY : option string;
  OPENAI_API_KEY : option string
}.

(** [a || b] on optional strings. *)
Definition or_else (a b : option string) : option string :=
  match Embeddings.key_of a with
  | Some s => Some s
  | None => b
  end.

Definition detectBackend (e : env) : string :=
  match Embeddings.key_of (SUPABASE_URL e),
        Embeddings.key_of (or_else (SUPABASE_KEY e) (SUPABASE_ANON_KEY e)) with
  | Some _, Some _ => "supabase"
  | _, _ => "sqlite"
  end.

(** What the constructors of the two database classes take from outside,
    and what may throw there: [createClient(url, key)] of supabase-js, and
    the opening of the local database at a path ([fs.mkdirSync] for its
    directory, [new Database(dbPath)], the two pragmas and the schema of
    [init]). *)
Class Drivers := {
  createClient : string -> string -> outcome unit;
  openDatabase : string -> outcome unit
}.

(** [createDatabase({ dbPath, backend })] as the constructor of [RAG]
    calls it, with the constructors of the two classes. The Supabase one
    throws without its two settings. *)
Definition createDatabase `{Drivers} (dbPath backend : string) (e : env)
    : outcome database :=
  if decide (backend = "supabase")
  then
    match Embeddings.key_of (SUPABASE_URL e),
          Embeddings.key_of (or_else (SUPABASE_KEY e) (SUPABASE_ANON_KEY e)) with
    | Some supabaseUrl, Some supabaseKey =>
        match createClient supabaseUrl supabaseKey with
        | Ok _ => Ok SupabaseDatabase
        | Throw error => Throw error
        end
    | _, _ =>
        Throw "SUPABASE_URL and SUPABASE_KEY required for Supabase backend"
    end
  else
    match openDatabase dbPath with
    | Ok _ => Ok SQLiteDatabase
    | Throw error => Throw error
    end.

(** [new RAG(config)], in a process with environment [e] and id [p]. *)
Definition new `{Drivers} (c : config) (e : env) (p : Z) : outcome t :=
  let dbPath := Js.str_or (c_dbPath c) "./rag.db" in
  let backend := Js.str_or (c_backend c) (detectBackend e) in
  match createDatabase dbPath backend e with
  | Throw error => Throw error
  | Ok d =>
      Ok {| db := d;
            backend := backend;
            embedder :=
              {| Embeddings.geminiKey :=
                   or_else (c_geminiKey c)
                     (or_else (GEMINI_API_KEY e) (GOOGLE_API_KEY e));
                 Embeddings.openaiKey :=
                   or_else (c_openaiKey c) (OPENAI_API_KEY e);
                 Embeddings.preferredProvider :=
                   Js.str_or (c_preferredProvider c) "gemini" |};
            chunkOptions :=
              {| Chunker.chunkSize := Some (Js.num_or (c_chunkSize c) 800);
                 Chunker.overlap := Some (Js.num_or (c_overlap c) 200);
                 Chunker.minChunkSize := None |};
            isAsync := bool_decide (backend = "supabase");
            pid := p |}
  end.

(** [acquireLock()] *)
Definition acquireLock (r : t) : M unit :=
  if isAsync r then ret tt
  else
    do w <- get_world;
    (match lock w with
     | Some stats =>
         let age := clock w - Store.mtimeMs stats in
         if age <? LOCK_TIMEOUT
         then throw "Another ingestion is in progress"
         else modify (set_lock None)
     | None => ret tt
     end) ;;
    modify (fun w =>
      set_lock (Some {| Store.mtimeMs := clock w; Store.pid_text := pretty (pid r) |}) w).

(** [releaseLock()] *)
Definition releaseLock (r : t) (w : world) : world :=
  if isAsync r then w
  else match lock w with
       | Some _ => set_lock None w
       | None => w
       end.

Record ingest_options := {
  o_sourceType : option string;
  o_tags : option (list string);
  o_metadata : option (list (string * string))
}.

(** What [ingest] resolves to. *)
Inductive ingest_result :=
  | duplicate (sourceId : Z)
  | success (sourceId : Z) (title sourceType : string) (chunkCount : Z)
            (backend : string).

(** [{ ...chunk, similarity: cosineSimilarity(queryEmbedding, chunk.embedding) }]
    over all chunks. *)
Definition score_all (queryEmbedding : list float) (chunks : list chunk_view)
    : list scored_row :=
  map (fun chunk =>
         {| row := chunk;
            similarity :=
              Db.cosineSimilarity (Some queryEmbedding) (v_embedding chunk) |})
      chunks.

(** *** [Array.prototype.sort]

    The comparator's number decides as [SortCompare] reads it: negative,
    the first argument goes first; positive, the second; zero or NaN, a
    tie. *)
Definition sort_compare {A} (comparefn : A -> A -> float) (a b : A)
    : comparison :=
  let v := comparefn a b in
  if (v <? 0)%float then Lt
  else if (0 <? v)%float then Gt
  else Eq.

(** The sort is stable: an element goes behind every element that must
    come before it and ahead of the others. Taken from the right, the
    elements of the array find their places one by one. For a consistent
    comparator this is the order that every stable sorting method
    yields. *)
Fixpoint sort_insert {A} (comparefn : A -> A -> float) (x : A) (l : list A)
    : list A :=
  match l with
  | [] => [x]
  | y :: l' =>
      match sort_compare comparefn y x with
      | Lt => y :: sort_insert comparefn x l'
      | _ => x :: l
      end
  end.

Fixpoint sort {A} (comparefn : A -> A -> float) (l : list A) : list A :=
  match l with
  | [] => []
  | x :: l' => sort_insert comparefn x (sort comparefn l')
  end.

(** [(a, b) => b.similarity - a.similarity] *)
Definition by_similarity (a b : scored_row) : float :=
  (similarity b - similarity a)%float.

(** [results.sort((a, b) => b.similarity - a.similarity)] *)
Definition rank (results : list scored_row) : list scored_row :=
  sort by_similarity results.

(** The [filter] over [seenSources]. *)
Fixpoint dedupe (seenSources : gset Z) (results : list scored_row)
    : list scored_row :=
  match results with
  | [] => []
  | r :: rest =>
      if decide (v_source_id (row r) ∈ seenSources)
      then dedupe seenSources rest
      else r :: dedupe ({[ v_source_id (row r) ]} ∪ seenSources) rest
  end.

Record search_options := {
  topK : option Z;
  maxCharsPerResult : option Z;
  dedupeBySource : option bool
}.

Definition default_search : search_options :=
  {| topK := None; maxCharsPerResult := None; dedupeBySource := None |}.

(** An entry of the answer of [search]. *)
Record hit := {
  h_sourceId : Z;
  h_title : string;
  h_url : option string;
  h_sourceType : string;
  h_content : string;
  h_similarity : float;
  h_chunkIndex : Z
}.

Definition project (maxCharsPerResult : Z) (r : scored_row) : hit :=
  {| h_sourceId := v_source_id (row r);
     h_title := v_title (row r);
     h_url := v_url (row r);
     h_sourceType := v_source_type (row r);
     h_content := Js.slice0 maxCharsPerResult (v_content (row r));
     h_similarity := similarity r;
     h_chunkIndex := v_chunk_index (row r) |}.

(** "Deduplicate by source if requested" and "Take top K and sanitize". *)
Definition finish_search (o : search_options) (results : list scored_row)
    : list hit :=
  let topK := Js.num_or (topK o) 10 in
  let maxCharsPerResult := Js.num_or (maxCharsPerResult o) 2500 in
  let dedupeBySource :=
    match dedupeBySource o with Some false => false | _ => true end in
  let filtered := if dedupeBySource then dedupe ∅ results else results in
  map (project maxCharsPerResult) (Js.take0 topK filtered).

Section Coordinator.
Context `{Collaborators}.

(** The fallback of [search] and the body of the in-memory
    [vectorSearch]: all chunks, scored and sorted. *)
Definition search_in_memory (queryEmbedding : list float)
    : M (list scored_row) :=
  do chunks <- Db.getAllChunksWithEmbeddings;
  ret (rank (score_all queryEmbedding chunks)).

(** [db.vectorSearch(queryEmbedding, topK)] of the two newer classes. *)
Definition vectorSearch (d : database) (queryEmbedding : list float)
    (topK : Z) : M (list scored_row) :=
  match d with
  | SupabaseDatabase =>
      do w <- get_world;
      modify (set_rpc_calls (S (rpc_calls w))) ;;
      match match_rag_chunks (rpc_calls w) queryEmbedding topK with
      | Some data => ret data
      | None =>
          do results <- search_in_memory queryEmbedding;
          ret (Js.take0 topK results)
      end
  | _ =>
      do results <- search_in_memory queryEmbedding;
      ret (Js.take0 topK results)
  end.

(** [search(query, options)] *)
Definition search (r : t) (query : string) (o : search_options)
    : M (list hit) :=
  let topK := Js.num_or (topK o) 10 in
  do q <- Embeddings.embed (embedder r) query;
  let queryEmbedding := embedding q in
  do results <-
    (if has_vectorSearch (db r)
     then vectorSearch (db r) queryEmbedding (topK * 3)
     else search_in_memory queryEmbedding);
  ret (finish_search o results).

(** [chunks.map((chunk, i) => ({ ...chunk, embedding: embedResults[i].embedding, ... }))];
    reading a field of [undefined] throws. *)
Definition merge (chunks : list Chunker.chunk)
    (embedResults : list embed_result) : outcome (list Db.embedded_chunk) :=
  Embeddings.all_settled
    (imap (fun i chunk =>
             match embedResults !! i with
             | Some e =>
                 Ok {| Db.e_chunk := chunk;
                       Db.e_embedding := embedding e;
                       Db.e_provider := provider e;
                       Db.e_model := model e |}
             | None =>
                 Throw "Cannot read properties of undefined (reading 'embedding')"
             end)
          chunks).

(** [await extract(input, options.sourceType)] *)
Definition call_extract (input : string) (hint : option string)
    : M extracted :=
  fun w =>
    (extract (extract_calls w) input hint,
     set_extract_calls (S (extract_calls w)) w).

(** The [try] block of [ingest]. *)
Definition ingest_body (r : t) (input : string) (o : ingest_options)
    : M ingest_result :=
  (* Extract content *)
  do extracted <- call_extract input (o_sourceType o);
  (* Check for duplicates *)
  do existing <- Db.sourceExists (x_url extracted) (x_content extracted);
  match existing with
  | Some existing => ret (duplicate (Store.id existing))
  | None =>
      (* Create chunks *)
      let chunks :=
        Chunker.createChunks (x_content extracted) (chunkOptions r) in
      (* Generate embeddings *)
      do embedResults <-
        Embeddings.embedBatch (embedder r) (map Chunker.content chunks);
      (* Merge chunks with embeddings *)
      do chunksWithEmbeddings <-
        (fun w => (merge chunks embedResults, w));
      (* Store source *)
      do sourceId <- Db.insertSource {|
        Db.n_url := x_url extracted;
        Db.n_title := x_title extracted;
        Db.n_sourceType := x_sourceType extracted;
        Db.n_summary := x_excerpt extracted;
        Db.n_rawContent := x_content extracted;
        Db.n_tags := default [] (o_tags o);
        Db.n_metadata := default [] (o_metadata o) |};
      (* Store chunks *)
      Db.insertChunks sourceId chunksWithEmbeddings ;;
      ret (success sourceId (x_title extracted) (x_sourceType extracted)
             (Z.of_nat (length chunks)) (backend r))
  end.

(** [ingest(input, options)] *)
Definition ingest (r : t) (input : string) (o : ingest_options)
    : M ingest_result :=
  acquireLock r ;;
  try_finally (ingest_body r input o) (releaseLock r).

End Coordinator.

End Rag.

(** ** extractors.js *)

Module Extractors.

Definition MAX_CONTENT_LENGTH : Z := 200000.
Definition MIN_CONTENT_LENGTH : Z := 20.
Definition MIN_ARTICLE_LENGTH : Z := 500.

Definition ERROR_SIGNALS : list string :=
  ["access denied"; "captcha"; "please enable javascript"; "cloudflare";
   "404"; "sign in"; "blocked"; "rate limit"].

(** [detectSourceType(input)] *)
Definition detectSourceType (input : string) : string :=
  let lower := Js.toLowerCase input in
  (* YouTube *)
  if Js.includes "youtube.com/watch" lower || Js.includes "youtu.be/" lower
  then "video"
  (* Twitter/X *)
  else if Js.includes "twitter.com/" lower || Js.includes "x.com/" lower
  then "tweet"
  (* PDF *)
  else if Js.endsWith ".pdf" lower then "pdf"
  (* Local files *)
  else if Js.endsWith ".txt" lower || Js.endsWith ".md" lower then "text"
  (* URLs default to article *)
  else if Js.startsWith "http://" lower || Js.startsWith "https://" lower
  then "article"
  (* Plain text input *)
  else "text".

(** The number of error signals that occur in a content. *)
Definition errorCount (content : string) : Z :=
  let lowerContent := Js.toLowerCase content in
  Z.of_nat (length (filter (fun signal => Js.includes signal lowerContent = true)
                      ERROR_SIGNALS)).

(** [validateContent(content, sourceType)]: throws, or returns [true]. *)
Definition validateContent (content sourceType : string) : outcome unit :=
  if negb (Js.truthy content) || (Js.len content <? MIN_CONTENT_LENGTH)
  then Throw ("Content too short (" +:+ pretty (Js.len content) +:+ " chars)")
  (* Check for error pages *)
  else if errorCount content >=? 2
  then Throw "Content appears to be an error page"
  (* For articles, check for real prose *)
  else if bool_decide (sourceType = "article")
          && (Js.len content <? MIN_ARTICLE_LENGTH)
  then Throw ("Article content too short (" +:+ pretty (Js.len content)
              +:+ " chars)")
  (* Check for prose vs navigation menus (for articles) *)
  else if bool_decide (sourceType = "article")
  then
    let lines :=
      filter (fun l => Js.truthy (Js.trim l) = true)
             (Url.split "010"%char content) in
    let longLines := filter (fun l => 80 < Js.len l) lines in
    if (5 <? Z.of_nat (length lines))
       && (Js.number (Z.of_nat (length longLines))
           / Js.number (Z.of_nat (length lines)) <? 0.15)%float
    then Throw "Content appears to be navigation/menus rather than prose"
    else Ok tt
  else Ok tt.

(** [{ title, content, excerpt }], what each extractor returns. *)
Record extraction := {
  title : string;
  content : string;
  excerpt : string
}.

(** What the extractors take from outside: the file system
    ([fs.existsSync] with [fs.readFileSync], [None] for a path that
    does not exist), [path.basename], and the four extractors that need
    the network or a parser. *)
Class Platform := {
  readFile : string -> option string;
  basename : string -> string;
  extractArticle : string -> outcome extraction;
  extractYouTube : string -> outcome extraction;
  extractTweet : string -> outcome extraction;
  extractPDF : string -> outcome extraction
}.

Section Extract.
Context `{Platform}.

(** [extractText(input)]: a file if the input is the path of one, the
    input itself otherwise. *)
Definition extractText (input : string) : extraction :=
  match readFile input with
  | Some text =>
      {| title := basename input;
         content := Js.slice0 MAX_CONTENT_LENGTH text;
         excerpt := Js.slice0 200 text |}
  | None =>
      {| title := Js.slice0 50 input
                  +:+ (if 50 <? Js.len input then "..." else "");
         content := Js.slice0 MAX_CONTENT_LENGTH input;
         excerpt := Js.slice0 200 input |}
  end.

(** [extract(input, sourceType)] *)
Definition extract (input : string) (sourceType : option string)
    : outcome extracted :=
  let type := Js.str_or sourceType (detectSourceType input) in
  let result :=
    if decide (type = "article") then extractArticle input
    else if decide (type = "video") then extractYouTube input
    else if decide (type = "tweet") then extractTweet input
    else if decide (type = "pdf") then extractPDF input
    else Ok (extractText input) in
  match result with
  | Throw e => Throw e
  | Ok result =>
      (* Validate content *)
      match validateContent (content result) type with
      | Throw e => Throw e
      | Ok _ =>
          Ok {| x_title := title result;
                x_content := content result;
                x_excerpt := excerpt result;
                x_sourceType := type;
                x_url := if decide (type = "text") then None else Some input |}
      end
  end.

End Extract.

End Extractors.

(** The collaborators of the coordinator with [extract] as extractors.js
    defines it. *)
Definition with_extractors `{Extractors.Platform} (c : Collaborators)
    : Collaborators :=
  {| fetch_gemini := @fetch_gemini c;
     fetch_openai := @fetch_openai c;
     extract := fun _ input sourceType => Extractors.extract input sourceType;
     sha256_hex := @sha256_hex c;
     fround := @fround c;
     match_rag_chunks := @match_rag_chunks c |}.

(** ** Measures and relations used by the statements *)

(** The length of the longest string of a list. *)
Definition longest (l : list string) : Z :=
  foldr (fun s m => Z.max (Js.len s) m) 0 l.

(** The bound [B] holds for every closed chunk and for the running one. *)
Definition within (B : Z) (st : Chunker.loop_state) : Prop :=
  Forall (fun c => Js.len c <= B) (Chunker.chunks st)
  /\ Js.len (Chunker.currentChunk st) <= B.

(** Every chunk but the last is within [B]; the last one may pass it by
    [extra]. *)
Definition within_but_last (B extra : Z) (l : list string) : Prop :=
  forall (i : nat) c,
    l !! i = Some c ->
    Js.len c <= B + extra /\ ((S i < length l)%nat -> Js.len c <= B).

(** The bound under test: a chunk is at most [chunkSize] long unless it
    is one sentence that alone is longer. *)
Definition chunk_size_respected (text : string) (o : Chunker.options) : Prop :=
  let chunkSize := Js.num_or (Chunker.chunkSize o) Chunker.DEFAULT_CHUNK_SIZE in
  Forall (fun c =>
            Js.len c <= chunkSize
            \/ (c ∈ Chunker.splitSentences (Chunker.clean text)
                /\ chunkSize < Js.len c))
         (Chunker.chunkText text o).




(** [w'] differs from [w] at most in what the embedder owns: the cache,
    the clock and the counts of requests to the two endpoints. *)
Definition embedder_only (w w' : world) : Prop :=
  sources w' = sources w
  /\ chunks w' = chunks w
  /\ next_source_id w' = next_source_id w
  /\ next_chunk_id w' = next_chunk_id w
  /\ lock w' = lock w
  /\ extract_calls w' = extract_calls w
  /\ rpc_calls w' = rpc_calls w.

(** A computation that leaves everything else alone, whatever it returns. *)
Definition quiet {A} (c : M A) : Prop :=
  forall w, embedder_only w (c w).2.

(** [w'] has the tables and the embedder of [w]. *)
Definition nothing_stored_or_embedded (w w' : world) : Prop :=
  sources w' = sources w
  /\ chunks w' = chunks w
  /\ next_source_id w' = next_source_id w
  /\ next_chunk_id w' = next_chunk_id w
  /\ cache w' = cache w
  /\ gemini_calls w' = gemini_calls w
  /\ openai_calls w' = openai_calls w.

(** The message of the error that [embedWithGemini] ("Gemini") or
    [embedWithOpenAI] ("OpenAI") throws on a reply, when it throws. *)
Definition failure (service : string) (reply : http_reply) : option string :=
  match reply with
  | NetworkError message => Some message
  | HttpError status error =>
      Some (service +:+ " API error: " +:+ pretty status +:+ " - " +:+ error)
  | HttpOk _ => None
  end.

(** The source that [ingest] hands to [insertSource]. *)
Definition source_of_extracted `{Collaborators} (x : extracted)
    (o : Rag.ingest_options) : Db.new_source :=
  {| Db.n_url := x_url x;
     Db.n_title := x_title x;
     Db.n_sourceType := x_sourceType x;
     Db.n_summary := x_excerpt x;
     Db.n_rawContent := x_content x;
     Db.n_tags := default [] (Rag.o_tags o);
     Db.n_metadata := default [] (Rag.o_metadata o) |}.

(** What [merge] builds when every chunk has its result. *)
Definition merged (pieces : list Chunker.chunk) (embedResults : list embed_result)
    : list Db.embedded_chunk :=
  zip_with (fun chunk e =>
              {| Db.e_chunk := chunk;
                 Db.e_embedding := embedding e;
                 Db.e_provider := provider e;
                 Db.e_model := model e |})
           pieces embedResults.

#[global] Instance float_eq_dec : EqDecision float.
Proof.
  intros x y. destruct (PrimFloat.Leibniz.eqb x y) eqn:E.
  - left. by apply Leibniz.eqb_spec.
  - right. intros Heq. apply Leibniz.eqb_spec in Heq. congruence.
Defined.

(** A consistent comparator for the values of [S], in the sense of
    ECMAScript (the condition under which [Array.prototype.sort] has a
    defined result): ties form an equivalence and the two strict orders are
    transitive. Under [b.similarity - a.similarity] a similarity that is
    NaN ties with every other one, so that the comparator is not
    consistent as soon as two of the others differ. *)
Record consistent_comparator {A} (comparefn : A -> A -> float) (S : list A)
    : Prop := {
  cc_refl : forall a, a ∈ S -> Rag.sort_compare comparefn a a = Eq;
  cc_sym : forall a b, a ∈ S -> b ∈ S ->
    Rag.sort_compare comparefn a b = Eq -> Rag.sort_compare comparefn b a = Eq;
  cc_trans_eq : forall a b c, a ∈ S -> b ∈ S -> c ∈ S ->
    Rag.sort_compare comparefn a b = Eq -> Rag.sort_compare comparefn b c = Eq ->
    Rag.sort_compare comparefn a c = Eq;
  cc_trans_lt : forall a b c, a ∈ S -> b ∈ S -> c ∈ S ->
    Rag.sort_compare comparefn a b = Lt -> Rag.sort_compare comparefn b c = Lt ->
    Rag.sort_compare comparefn a c = Lt;
  cc_trans_gt : forall a b c, a ∈ S -> b ∈ S -> c ∈ S ->
    Rag.sort_compare comparefn a b = Gt -> Rag.sort_compare comparefn b c = Gt ->
    Rag.sort_compare comparefn a c = Gt
}.

Definition same_sign (c d : comparison) : bool :=
  match c, d with
  | Eq, Eq | Lt, Lt | Gt, Gt => true
  | _, _ => false
  end.

(** The same conditions, checked by running the comparator on all pairs
    and triples of [S]. *)
Definition consistent_on {A} (comparefn : A -> A -> float) (S : list A) : bool :=
  let sc := Rag.sort_compare comparefn in
  forallb (fun a =>
    same_sign (sc a a) Eq
    && forallb (fun b =>
         implb (same_sign (sc a b) Eq) (same_sign (sc b a) Eq)
         && forallb (fun c =>
              implb (same_sign (sc a b) Eq && same_sign (sc b c) Eq)
                    (same_sign (sc a c) Eq)
              && implb (same_sign (sc a b) Lt && same_sign (sc b c) Lt)
                       (same_sign (sc a c) Lt)
              && implb (same_sign (sc a b) Gt && same_sign (sc b c) Gt)
                       (same_sign (sc a c) Gt)) S) S) S.

Definition source_of (r : scored_row) : Z := v_source_id (row r).

(** "Retain only the first (highest-ranked) chunk per source id,
    preserving rank order", said directly: the head stays, and with it
    what is retained of the rest except the chunks of the head's source. *)
Fixpoint first_per_source (ranked : list scored_row) : list scored_row :=
  match ranked with
  | [] => []
  | r :: rest =>
      r :: filter (fun x => source_of x <> source_of r)
             (first_per_source rest)
  end.

(** The cache holds no key twice and no more entries than its capacity. *)
Definition cache_ok (c : list (string * embed_result)) : Prop :=
  NoDup c.*1 /\ Z.of_nat (length c) <= Embeddings.CACHE_MAX_SIZE.

(** A computation that sends at most [g] requests to Gemini and at most
    [o] to OpenAI, and never lowers the counts. *)
Definition sends (g o : nat) {A} (c : M A) : Prop :=
  forall w,
    (gemini_calls w <= gemini_calls (c w).2 <= gemini_calls w + g)%nat
    /\ (openai_calls w <= openai_calls (c w).2 <= openai_calls w + o)%nat.

(** A computation that leaves the cache well formed if it found it so. *)
Definition keeps_cache {A} (c : M A) : Prop :=
  forall w, cache_ok (cache w) -> cache_ok (cache (c w).2).

(** The state of the two tables that the schema and the AUTOINCREMENT
    counters stand for: ids below the counters and given once, every chunk
    with its source, no content hash and no normalized URL twice, and
    both keys computed from the row they stand for. *)
Record well_formed `{Collaborators} (w : world) : Prop := {
  wf_source_ids :
    Forall (fun r => Store.id r < next_source_id w) (sources w);
  wf_source_ids_once : NoDup (Store.id <$> sources w);
  wf_chunk_ids :
    Forall (fun c => Store.chunk_id c < next_chunk_id w) (chunks w);
  wf_chunk_ids_once : NoDup (Store.chunk_id <$> chunks w);
  wf_chunk_source :
    Forall (fun c => Store.source_id c ∈ Store.id <$> sources w) (chunks w);
  wf_hash_once : NoDup (Store.content_hash <$> sources w);
  wf_url_once : NoDup (omap Store.url_normalized (sources w));
  wf_keys :
    Forall (fun r =>
              Store.url_normalized r = Db.normalizeUrl (Store.url r)
              /\ Store.content_hash r = Db.hashContent (Store.raw_content r))
           (sources w)
}.

(** A stored source that [sourceExists] takes for the given URL and
    content. *)
Definition same_source `{Collaborators} (url : option string)
    (content : string) (r : Store.source_row) : Prop :=
  (exists n, Db.normalizeUrl url = Some n /\ Store.url_normalized r = Some n)
  \/ Store.content_hash r = Db.hashContent content.

(** The row of the search pool for a stored chunk of a source. *)
Definition view_of (s : Store.source_row) (c : Store.chunk_row) : chunk_view :=
  {| v_id := Store.chunk_id c;
     v_source_id := Store.source_id c;
     v_chunk_index := Store.chunk_index c;
     v_content := Store.content c;
     v_embedding := Store.embedding c;
     v_title := Store.title s;
     v_url := Store.url s;
     v_source_type := Store.source_type s |}.

(** The number of stored sources of a type. *)
Definition sources_of_type (t : string) (w : world) : Z :=
  Z.of_nat (length (filter (fun r => Store.source_type r = t) (sources w))).

(** [x] occurs in [c] as it stands. *)
Definition occurs_in (x c : string) : Prop :=
  exists pre post, c = pre +:+ x +:+ post.

(** The room that sentences take when joined, one blank after each. *)
Definition weight (l : list string) : Z :=
  foldr (fun s acc => Js.len s + 1 + acc) 0 l.

(** A string that is not empty and has no white space at either end. *)
Definition inked (x : string) : Prop :=
  (exists c x', x = String c x' /\ Ascii.is_space c = false)
  /\ (exists c x', String.rev x = String c x' /\ Ascii.is_space c = false).

(** The state of the loop of [chunkText] accounts for the sentences
    [seen] so far: each is in a chunk already closed or in the running
    one, and the running chunk holds its sentences, a blank between
    them. *)
Definition accounts_for (seen : list string) (st : Chunker.loop_state) : Prop :=
  (forall s, s ∈ seen ->
     (exists c, c ∈ Chunker.chunks st /\ occurs_in (Js.trim s) c)
     \/ s ∈ Chunker.currentSentences st)
  /\ (forall s, s ∈ Chunker.currentSentences st ->
        s ∈ seen /\ occurs_in s (Chunker.currentChunk st))
  /\ weight (Chunker.currentSentences st)
     <= Js.len (Chunker.currentChunk st) + 1.

(** [u] has seen no fewer requests to either endpoint than [w]. *)
Definition no_fewer_requests (w u : world) : Prop :=
  (gemini_calls w <= gemini_calls u)%nat
  /\ (openai_calls w <= openai_calls u)%nat.

(** A computation that puts nothing into the cache under [key]. *)
Definition keeps_absent (key : string) {A} (c : M A) : Prop :=
  forall u,
    Embeddings.map_get key (cache u) = None ->
    Embeddings.map_get key (cache (c u).2) = None.

(** Two worlds that differ in the cache at most. *)
Definition cache_apart (w1 w2 : world) : Prop :=
  w2 = set_cache (cache w2) w1.

(** A computation that does not look into the cache: from worlds that
    differ in the cache only it gives the same outcome, in worlds that
    differ in the cache only. *)
Definition cache_deaf {A} (c : M A) : Prop :=
  forall w1 w2,
    cache_apart w1 w2 ->
    (c w1).1 = (c w2).1 /\ cache_apart (c w1).2 (c w2).2.

(** A computation that neither reads nor writes the lock: with another
    marker in place it does and answers the same, and leaves that marker. *)
Definition lock_blind {A} (c : M A) : Prop :=
  forall l w, c (set_lock l w) = (let '(res, w') := c w in (res, set_lock l w')).

(** ** Sample data *)

Module Sample.

(** [n] times the letter [c], then a full stop. *)
Fixpoint sentence (c : Ascii.ascii) (n : nat) : string :=
  match n with
  | O => "."
  | S n' => String c (sentence c n')
  end.

(** Two long sentences and a short one, 842 characters. *)
Definition three_sentences : string :=
  sentence "a" 399 +:+ " " +:+ sentence "b" 389 +:+ " " +:+ sentence "c" 49.

Definition small_chunks : Chunker.options :=
  {| Chunker.chunkSize := Some 20;
     Chunker.overlap := Some 5;
     Chunker.minChunkSize := Some 10 |}.

Definition wide_overlap : Chunker.options :=
  {| Chunker.chunkSize := Some 20;
     Chunker.overlap := Some 10;
     Chunker.minChunkSize := Some 5 |}.

Definition view (id source : Z) : chunk_view :=
  {| v_id := id; v_source_id := source; v_chunk_index := 0;
     v_content := "text"; v_embedding := None; v_title := "title";
     v_url := None; v_source_type := "text" |}.

(** Three scored chunks with similarities 0.9, 0.5, 0.9. *)
Definition c0 : scored_row := {| row := view 0 10; similarity := 0.9 |}.
Definition c1 : scored_row := {| row := view 1 11; similarity := 0.5 |}.
Definition c2 : scored_row := {| row := view 2 12; similarity := 0.9 |}.

(** Chunks ranked A, B, A by source (A is 1, B is 2). *)
Definition a1 : scored_row := {| row := view 0 1; similarity := 0.9 |}.
Definition b2 : scored_row := {| row := view 1 2; similarity := 0.8 |}.
Definition a3 : scored_row := {| row := view 2 1; similarity := 0.7 |}.

(** A number as a binary64 value (exact below 2^53). *)
Definition float_of (z : Z) : float := PrimFloat.of_uint63 (Uint63.of_Z z).

(** The code of the first character of a text, 0 for the empty text. *)
Definition first_code (text : string) : Z :=
  match text with
  | EmptyString => 0
  | String c _ => Z.of_N (Ascii.N_of_ascii c)
  end.

(** What an endpoint that is up answers: a vector that tells texts
    apart by their first character and their length. *)
Definition answer (text : string) : http_reply :=
  HttpOk (Some [float_of (first_code text); float_of (Js.len text)]).

Definition unavailable : http_reply := HttpError 503 "Service Unavailable".

(** Plain-text extraction: the input is the content. *)
Definition as_note (input : string) : extracted :=
  {| x_title := Js.slice0 50 input;
     x_content := input;
     x_excerpt := Js.slice0 200 input;
     x_sourceType := "text";
     x_url := None |}.

Definition note (input : string) : outcome extracted := Ok (as_note input).

(** Both endpoints up. The digest stands in for SHA-256 (here the text
    itself) and stored vectors keep their precision. *)
Definition all_up : Collaborators :=
  {| fetch_gemini := fun _ _ text => answer text;
     fetch_openai := fun _ _ text => answer text;
     extract := fun _ input _ => note input;
     sha256_hex := fun content => content;
     fround := fun x => x;
     match_rag_chunks := fun _ _ _ => None |}.

(** OpenAI answers 503 to every request, Gemini is up. *)
Definition openai_down : Collaborators :=
  {| fetch_gemini := fun _ _ text => answer text;
     fetch_openai := fun _ _ _ => unavailable;
     extract := fun _ input _ => note input;
     sha256_hex := fun content => content;
     fround := fun x => x;
     match_rag_chunks := fun _ _ _ => None |}.

(** Both endpoints answer 503. *)
Definition all_down : Collaborators :=
  {| fetch_gemini := fun _ _ _ => unavailable;
     fetch_openai := fun _ _ _ => unavailable;
     extract := fun _ input _ => note input;
     sha256_hex := fun content => content;
     fround := fun x => x;
     match_rag_chunks := fun _ _ _ => None |}.

Definition both_keys (preferred : string) : Embeddings.provider_state :=
  {| Embeddings.geminiKey := Some "gemini-key";
     Embeddings.openaiKey := Some "openai-key";
     Embeddings.preferredProvider := preferred |}.

(** A fresh process: empty tables and cache, no marker, the clock at
    some instant. *)
Definition fresh : world :=
  {| sources := []; chunks := [];
     next_source_id := 1; next_chunk_id := 1;
     lock := None; clock := 1700000000000; cache := [];
     gemini_calls := 0; openai_calls := 0; extract_calls := 0;
     rpc_calls := 0 |}.

Definition no_env : Rag.env :=
  {| Rag.SUPABASE_URL := None; Rag.SUPABASE_KEY := None;
     Rag.SUPABASE_ANON_KEY := None; Rag.GEMINI_API_KEY := None;
     Rag.GOOGLE_API_KEY := None; Rag.OPENAI_API_KEY := None |}.

(** An environment with the two settings of Supabase. *)
Definition supabase_env : Rag.env :=
  {| Rag.SUPABASE_URL := Some "https://project.supabase.co";
     Rag.SUPABASE_KEY := Some "service-key";
     Rag.SUPABASE_ANON_KEY := None; Rag.GEMINI_API_KEY := None;
     Rag.GOOGLE_API_KEY := None; Rag.OPENAI_API_KEY := None |}.

Definition keys : Rag.config :=
  {| Rag.c_dbPath := None;
     Rag.c_backend := None;
     Rag.c_geminiKey := Some "gemini-key";
     Rag.c_openaiKey := Some "openai-key";
     Rag.c_preferredProvider := None;
     Rag.c_chunkSize := None;
     Rag.c_overlap := None |}.

(** Drivers with which both databases open. *)
Definition drivers : Rag.Drivers :=
  {| Rag.createClient := fun _ _ => Ok tt;
     Rag.openDatabase := fun _ => Ok tt |}.

Definition coordinator (d : Rag.database) (backend : string) : Rag.t :=
  {| Rag.db := d;
     Rag.backend := backend;
     Rag.embedder := both_keys "gemini";
     Rag.chunkOptions :=
       {| Chunker.chunkSize := Some 800;
          Chunker.overlap := Some 200;
          Chunker.minChunkSize := None |};
     Rag.isAsync := bool_decide (backend = "supabase");
     Rag.pid := 4242 |}.

(** The coordinator that [new RAG(keys)] builds without the settings of
    Supabase, on the local backend, and the one it builds with them. *)
Definition local : Rag.t := coordinator Rag.SQLiteDatabase "sqlite".
Definition cloud : Rag.t := coordinator Rag.SupabaseDatabase "supabase".

Definition plain : Rag.ingest_options :=
  {| Rag.o_sourceType := None; Rag.o_tags := None; Rag.o_metadata := None |}.

Definition a_note : string :=
  "Remember to water the plants on Friday.".

(** A marker written one minute before the instant of [fresh]. *)
Definition recent_marker : Store.lock_file :=
  {| Store.mtimeMs := 1700000000000 - 60000; Store.pid_text := "4000" |}.

(** A marker written one hour before. *)
Definition old_marker : Store.lock_file :=
  {| Store.mtimeMs := 1700000000000 - 3600000; Store.pid_text := "4000" |}.

(** The world after the note has been ingested once, and the source row
    that this ingest stored. *)
Definition after_note : world :=
  (@Rag.ingest all_up local a_note plain fresh).2.

Definition note_row : Store.source_row :=
  {| Store.id := 1;
     Store.url := None;
     Store.url_normalized := None;
     Store.title := a_note;
     Store.source_type := "text";
     Store.summary := a_note;
     Store.raw_content := a_note;
     Store.content_hash := a_note;
     Store.tags := [];
     Store.metadata := [] |}.

(** A stored result, and a cache at capacity: 1000 entries under the keys
    "0" to "999", "0" the least recently used. *)
Definition hello : embed_result :=
  {| embedding := [104; 5]%float;
     provider := Some "gemini";
     model := Some "text-embedding-004" |}.

Definition full_cache : list (string * embed_result) :=
  (fun i : nat => (pretty (Z.of_nat i), hello)) <$> seq 0 1000.

(** Gemini answers 503 to every request, OpenAI is up. *)
Definition gemini_down : Collaborators :=
  {| fetch_gemini := fun _ _ _ => unavailable;
     fetch_openai := fun _ _ text => answer text;
     extract := fun _ input _ => note input;
     sha256_hex := fun content => content;
     fround := fun x => x;
     match_rag_chunks := fun _ _ _ => None |}.

(** Gemini answers 200 with a body that holds no embedding. *)
Definition gemini_blank : Collaborators :=
  {| fetch_gemini := fun _ _ _ => HttpOk None;
     fetch_openai := fun _ _ text => answer text;
     extract := fun _ input _ => note input;
     sha256_hex := fun content => content;
     fround := fun x => x;
     match_rag_chunks := fun _ _ _ => None |}.

(** A second note, and the world after both notes have been ingested. *)
Definition b_note : string :=
  "Buy milk, eggs and flour before the weekend.".

Definition after_two : world :=
  (@Rag.ingest all_up local b_note plain after_note).2.

(** A machine without files at the paths asked for and without network. *)
Definition offline : Extractors.Platform :=
  {| Extractors.readFile := fun _ => None;
     Extractors.basename := fun path => path;
     Extractors.extractArticle := fun _ => Throw "fetch failed";
     Extractors.extractYouTube := fun _ => Throw "fetch failed";
     Extractors.extractTweet := fun _ => Throw "fetch failed";
     Extractors.extractPDF := fun path => Throw ("PDF file not found: " +:+ path) |}.

(** A stored source and a stored chunk with a two-dimensional
    embedding, and a world that holds given rows. *)
Definition source_named (i : Z) (name : string) : Store.source_row :=
  {| Store.id := i;
     Store.url := None;
     Store.url_normalized := None;
     Store.title := name;
     Store.source_type := "text";
     Store.summary := name;
     Store.raw_content := name;
     Store.content_hash := name;
     Store.tags := [];
     Store.metadata := [] |}.

Definition chunk_with (i source : Z) (e : list float) : Store.chunk_row :=
  {| Store.chunk_id := i;
     Store.source_id := source;
     Store.chunk_index := 0;
     Store.content := "text";
     Store.embedding := Some e;
     Store.embedding_dim := Some 2;
     Store.embedding_provider := Some "gemini";
     Store.embedding_model := Some "text-embedding-004" |}.

Definition shelf (rows : list Store.source_row)
    (pieces : list Store.chunk_row) : world :=
  {| sources := rows; chunks := pieces;
     next_source_id := 100; next_chunk_id := 100;
     lock := None; clock := 1700000000000; cache := [];
     gemini_calls := 0; openai_calls := 0; extract_calls := 0;
     rpc_calls := 0 |}.

(** Three sources with one chunk each; the first and the third chunk have
    the same embedding, so the same similarity to any query. *)
Definition shelf_with_tie : world :=
  shelf [source_named 10 "ten"; source_named 11 "eleven";
         source_named 12 "twelve"]
        [chunk_with 1 10 [1; 1]%float; chunk_with 2 11 [0; 1]%float;
         chunk_with 3 12 [1; 1]%float].

(** Two sources, A (1) with two chunks and B (2) with one, which the
    query "q" ranks A, B, A. *)
Definition shelf_a_b_a : world :=
  shelf [source_named 1 "A"; source_named 2 "B"]
        [chunk_with 1 1 [1; 0]%float; chunk_with 2 2 [1; 1]%float;
         chunk_with 3 1 [0; 1]%float].

(** Endpoints that refuse every text that starts with the letter b and
    answer all others. *)
Definition picky_answer (text : string) : http_reply :=
  if first_code text =? 98 then unavailable
  else answer text.

Definition picky : Collaborators :=
  {| fetch_gemini := fun _ _ text => picky_answer text;
     fetch_openai := fun _ _ text => picky_answer text;
     extract := fun _ input _ => note input;
     sha256_hex := fun content => content;
     fround := fun x => x;
     match_rag_chunks := fun _ _ _ => None |}.

(** A note of three sentences that makes two chunks, and its second
    chunk, which starts with b. *)
Definition second_chunk : string :=
  sentence "b" 399 +:+ " " +:+ sentence "c" 149.

Definition long_note : string :=
  sentence "a" 399 +:+ " " +:+ second_chunk.

(** Endpoints that answer a text that starts with "h" with a vector of
    two components of 1e308, and any other text as [answer] does. Stored
    in single precision they are [Infinity]; as they are, their squares
    are. *)
Definition overflowing_answer (text : string) : http_reply :=
  if first_code text =? 104
  then HttpOk (Some [1e308; 1e308]%float)
  else answer text.

Definition overflowing : Collaborators :=
  {| fetch_gemini := fun _ _ text => overflowing_answer text;
     fetch_openai := fun _ _ text => overflowing_answer text;
     extract := fun _ input _ => note input;
     sha256_hex := fun content => content;
     fround := fun x => x;
     match_rag_chunks := fun _ _ _ => None |}.

(** A fresh process after three notes were ingested with these
    endpoints. *)
Definition library_with_overflow : world :=
  (@Rag.ingest overflowing local "quick question" plain
     (@Rag.ingest overflowing local "huge numbers" plain
        (@Rag.ingest overflowing local "a note of some length" plain
           fresh).2).2).2.

End Sample.

(** * Properties *)

(** ** Strings *)

Lemma len_nonneg s : 0 <= Js.len s.
Proof. unfold Js.len. lia. Qed.

Lemma len_app s1 s2 : Js.len (s1 +:+ s2) = Js.len s1 + Js.len s2.
Proof.
  induction s1 as [|a s1 IH].
  - reflexivity.
  - change (Js.len (String a (s1 +:+ s2)) = Js.len (String a s1) + Js.len s2).
    unfold Js.len in *. cbn [String.length]. lia.
Qed.

Lemma len_rev_app s1 s2 :
  Js.len (String.rev_app s1 s2) = Js.len s1 + Js.len s2.
Proof.
  unfold Js.len. revert s2.
  induction s1 as [|a s1 IH]; intros s2; cbn [String.rev_app String.length].
  - lia.
  - rewrite IH. cbn [String.length]. lia.
Qed.

Lemma len_rev s : Js.len (String.rev s) = Js.len s.
Proof. unfold String.rev. rewrite len_rev_app. unfold Js.len. simpl. lia. Qed.

Lemma len_drop_space s : Js.len (Js.drop_space s) <= Js.len s.
Proof.
  unfold Js.len. induction s as [|a s IH]; cbn [Js.drop_space].
  - lia.
  - destruct (Ascii.is_space a); cbn [String.length]; lia.
Qed.

Lemma len_trim s : Js.len (Js.trim s) <= Js.len s.
Proof.
  unfold Js.trim. rewrite len_rev.
  etrans; [apply len_drop_space|]. rewrite len_rev. apply len_drop_space.
Qed.

Lemma longest_nonneg l : 0 <= longest l.
Proof. induction l; simpl; lia. Qed.

Lemma longest_app l1 l2 : longest (l1 ++ l2) = Z.max (longest l1) (longest l2).
Proof.
  induction l1 as [|s l1 IH]; simpl.
  - pose proof (longest_nonneg l2). lia.
  - rewrite IH. lia.
Qed.

(** ** Chunker *)

Section ChunkBounds.

Variables (chunkSize overlap minChunkSize : Z).

Lemma overlap_loop_len rev_sentences overlapText overlapSentences :
  Js.len overlapText <= Z.max 0 overlap ->
  Js.len (Chunker.overlap_loop overlap rev_sentences overlapText
            overlapSentences).1 <= Z.max 0 overlap.
Proof.
  revert overlapText overlapSentences.
  induction rev_sentences as [|s rest IH]; intros ot os Hot; simpl; [done|].
  destruct (Z.leb_spec (Js.len (s +:+ " " +:+ ot)) overlap) as [Hfit|_].
  - apply IH. lia.
  - done.
Qed.

Lemma step_within B st sentence :
  chunkSize <= B ->
  Z.max 0 overlap + Js.len sentence <= B ->
  within B st ->
  within B (Chunker.step chunkSize overlap minChunkSize st sentence).
Proof.
  intros HS Hs [Hchunks Hcur]. unfold Chunker.step.
  destruct (Z.gtb_spec
              (Js.len (Chunker.currentChunk st) + Js.len sentence + 1)
              chunkSize) as [Hover|Hfits].
  - pose proof (overlap_loop_len (rev (Chunker.currentSentences st)) "" []) as Ho.
    destruct (Chunker.overlap_loop overlap _ _ _) as [ot os].
    split; cbn [Chunker.chunks Chunker.currentChunk].
    + destruct (Js.len (Chunker.currentChunk st) >=? minChunkSize); [|done].
      apply Forall_app; split; [done|].
      apply Forall_singleton.
      pose proof (len_trim (Chunker.currentChunk st)). lia.
    + rewrite len_app. cbn [fst] in Ho.
      assert (Js.len ot <= Z.max 0 overlap)
        by (apply Ho; change (Js.len "") with 0; lia).
      lia.
  - split; cbn [Chunker.chunks Chunker.currentChunk]; [done|].
    rewrite !len_app.
    destruct (Js.truthy (Chunker.currentChunk st));
      [change (Js.len " ") with 1|change (Js.len "") with 0]; lia.
Qed.

Lemma loop_within B sentences st :
  chunkSize <= B ->
  Z.max 0 overlap + longest sentences <= B ->
  within B st ->
  within B (fold_left (Chunker.step chunkSize overlap minChunkSize)
              sentences st).
Proof.
  revert st. induction sentences as [|s rest IH]; intros st HS HL Hst; [done|].
  cbn [fold_left]. cbn [longest foldr] in HL. fold (longest rest) in HL.
  apply IH; [done|lia|].
  apply step_within; [done|lia|done].
Qed.

Lemma within_all B extra l :
  0 <= extra -> Forall (fun c => Js.len c <= B) l -> within_but_last B extra l.
Proof.
  intros He Hl i c Hi.
  pose proof (proj1 (Forall_lookup _ _) Hl i c Hi) as Hc. cbn beta in Hc.
  split; [lia|done].
Qed.

Lemma append_to_last_within B extra l suffix :
  Forall (fun c => Js.len c <= B) l ->
  0 <= Js.len suffix <= extra ->
  within_but_last B extra (Chunker.append_to_last l suffix).
Proof.
  intros Hl Hs. unfold Chunker.append_to_last.
  destruct (last l) as [c0|] eqn:Hlast; [|by apply within_all; [lia|]].
  intros i c Hi. rewrite length_insert.
  apply list_lookup_insert_Some in Hi as [(<- & <- & Hlt)|[Hne Hi]].
  - rewrite last_lookup in Hlast.
    pose proof (proj1 (Forall_lookup _ _) Hl _ _ Hlast) as Hc. cbn beta in Hc.
    rewrite len_app. split; [lia|]. lia.
  - pose proof (proj1 (Forall_lookup _ _) Hl i c Hi) as Hc. cbn beta in Hc.
    split; [lia|done].
Qed.

Lemma finish_within B st :
  within B st ->
  within_but_last B (Z.max 0 minChunkSize) (Chunker.finish minChunkSize st).
Proof.
  intros [Hchunks Hcur]. unfold Chunker.finish.
  assert (Hpush : within_but_last B (Z.max 0 minChunkSize)
                    (Chunker.chunks st ++ [Js.trim (Chunker.currentChunk st)])).
  { apply within_all; [lia|]. apply Forall_app; split; [done|].
    apply Forall_singleton.
    pose proof (len_trim (Chunker.currentChunk st)). lia. }
  destruct (Z.geb_spec (Js.len (Chunker.currentChunk st)) minChunkSize)
    as [_|Hsmall]; [done|].
  destruct (_ && _); [|destruct (0 <? _); [done|by apply within_all; [lia|]]].
  apply append_to_last_within; [done|].
  rewrite len_app.
  pose proof (len_trim (Chunker.currentChunk st)).
  pose proof (len_nonneg (Js.trim (Chunker.currentChunk st))).
  change (Js.len " ") with 1. lia.
Qed.

End ChunkBounds.

(** C5, as amended. Let [L] be the length of the longest sentence of the
    cleaned text and [B] the larger of [chunkSize] and [overlap + L]. Every
    chunk of [chunkText] but the last is at most [B] long, and the last is
    at most [B + minChunkSize] long (it may have taken in a remainder
    shorter than [minChunkSize]); a text that fits [chunkSize] after
    cleaning is one chunk within [chunkSize]. *)
Theorem chunkText_length_bound (text : string) (o : Chunker.options) :
  let chunkSize := Js.num_or (Chunker.chunkSize o) Chunker.DEFAULT_CHUNK_SIZE in
  let overlap := Js.num_or (Chunker.overlap o) Chunker.DEFAULT_OVERLAP in
  let minChunkSize := Js.num_or (Chunker.minChunkSize o) Chunker.MIN_CHUNK_SIZE in
  let L := longest (Chunker.splitSentences (Chunker.clean text)) in
  let B := Z.max chunkSize (Z.max 0 overlap + L) in
  forall (i : nat) (c : string),
    Chunker.chunkText text o !! i = Some c ->
    Js.len c <= B + Z.max 0 minChunkSize
    /\ ((S i < length (Chunker.chunkText text o))%nat -> Js.len c <= B)
    /\ (Js.len (Chunker.clean text) <= chunkSize ->
        Chunker.chunkText text o = [Chunker.clean text]
        /\ Js.len c <= chunkSize).
Proof.
  intros chunkSize overlap minChunkSize L B i c Hi.
  unfold Chunker.chunkText in *.
  fold chunkSize overlap minChunkSize in Hi |- *.
  destruct (Z.leb_spec (Js.len (Chunker.clean text)) chunkSize) as [Hfit|Hlong].
  - apply list_lookup_singleton_Some in Hi as [-> <-].
    pose proof (longest_nonneg (Chunker.splitSentences (Chunker.clean text))).
    repeat split; try done; cbn [length]; lia.
  - assert (Hw : within_but_last B (Z.max 0 minChunkSize)
                   (Chunker.finish minChunkSize
                      (fold_left (Chunker.step chunkSize overlap minChunkSize)
                         (Chunker.splitSentences (Chunker.clean text))
                         {| Chunker.chunks := [];
                            Chunker.currentChunk := "";
                            Chunker.currentSentences := [] |}))).
    { apply finish_within, loop_within; [lia|lia|].
      split; cbn; [constructor|].
      pose proof (longest_nonneg (Chunker.splitSentences (Chunker.clean text))).
      change (Js.len "") with 0. lia. }
    destruct (Hw i c Hi) as [H1 H2].
    repeat split; [done|done|lia|lia].
Qed.

Lemma chunkText_length_bound_witness :
  Chunker.chunkText "Aaaaaaaa. Bbbbbbbb. Cc." Sample.small_chunks !! 0%nat
  = Some "Aaaaaaaa. Bbbbbbbb. Cc."
  /\ Js.len "Aaaaaaaa. Bbbbbbbb. Cc." <= Z.max 20 (Z.max 0 5 + 9) + Z.max 0 10.
Proof.
  split; [reflexivity|].
  exact (proj1 (chunkText_length_bound "Aaaaaaaa. Bbbbbbbb. Cc."
                  Sample.small_chunks 0 "Aaaaaaaa. Bbbbbbbb. Cc." eq_refl)).
Defined.

(** C5, as stated, fails: when the last sentence is shorter than
    [minChunkSize] it is appended to the chunk before it, which then holds
    three sentences and is longer than [chunkSize]; with sizes 20/5/10 on
    a text of 23 characters, and with the default sizes 800/200/100 on a
    text of 842 characters. A chunk that starts with carried-over
    sentences may pass [chunkSize] as well: with sizes 20/10/5 the second
    chunk of the third text has two sentences and 24 characters. *)
Lemma chunkText_exceeds_chunkSize :
  ~ chunk_size_respected "Aaaaaaaa. Bbbbbbbb. Cc." Sample.small_chunks
  /\ ~ chunk_size_respected Sample.three_sentences Chunker.no_options
  /\ ~ chunk_size_respected "Aaaaaaaa. Bbbbbbb. Cccccccccccccc."
        Sample.wide_overlap
  /\ Chunker.chunkText "Aaaaaaaa. Bbbbbbbb. Cc." Sample.small_chunks
     = ["Aaaaaaaa. Bbbbbbbb. Cc."]
  /\ Chunker.chunkText "Aaaaaaaa. Bbbbbbb. Cccccccccccccc." Sample.wide_overlap
     = ["Aaaaaaaa. Bbbbbbb."; "Bbbbbbb. Cccccccccccccc."].
Proof.
  unfold chunk_size_respected.
  repeat split;
    try (apply (bool_decide_eq_false_1 _); vm_compute; reflexivity).
Qed.

(** ** Binary64 arithmetic *)


Lemma Prim2SF_zero : Prim2SF 0 = S754_zero false.
Proof. reflexivity. Qed.




(** *** The sign of a difference *)

(** The number of binary digits of a mantissa. *)
Lemma digits2_pos_bounds (m : positive) :
  2 ^ (Z.pos (digits2_pos m) - 1) <= Z.pos m < 2 ^ Z.pos (digits2_pos m).
Proof.
  induction m as [m IH|m IH|]; cbn [digits2_pos].
  - rewrite Pos2Z.inj_succ, (Pos2Z.inj_xI m).
    replace (Z.succ (Z.pos (digits2_pos m)) - 1) with
      (Z.succ (Z.pos (digits2_pos m) - 1)) by lia.
    rewrite !Z.pow_succ_r by lia.
    generalize dependent (2 ^ (Z.pos (digits2_pos m) - 1)).
    generalize dependent (2 ^ Z.pos (digits2_pos m)). lia.
  - rewrite Pos2Z.inj_succ, (Pos2Z.inj_xO m).
    replace (Z.succ (Z.pos (digits2_pos m)) - 1) with
      (Z.succ (Z.pos (digits2_pos m) - 1)) by lia.
    rewrite !Z.pow_succ_r by lia.
    generalize dependent (2 ^ (Z.pos (digits2_pos m) - 1)).
    generalize dependent (2 ^ Z.pos (digits2_pos m)). lia.
  - cbn. lia.
Qed.

(** A mantissa and an exponent of a binary64 number: at most 53 digits,
    and exactly 53 above the least exponent. *)
Lemma bounded_inv (m : positive) (e : Z) :
  bounded prec emax m e = true ->
  -1074 <= e <= 971
  /\ Z.pos (digits2_pos m) <= 53
  /\ (-1074 < e -> Z.pos (digits2_pos m) = 53).
Proof.
  unfold bounded, canonical_mantissa, fexp, SpecFloat.emin, prec, emax.
  intros [Hc He]%andb_prop. apply Z.eqb_eq in Hc. apply Z.leb_le in He.
  lia.
Qed.

Lemma iter_xO (m d : positive) :
  Z.pos (Pos.iter xO m d) = Z.pos m * 2 ^ Z.pos d.
Proof.
  induction d as [|d IH] using Pos.peano_ind.
  - cbn. lia.
  - rewrite Pos.iter_succ, (Pos2Z.inj_xO (Pos.iter xO m d)), IH, Pos2Z.inj_succ,
      Z.pow_succ_r by lia.
    lia.
Qed.

(** Aligning a mantissa to a smaller exponent multiplies it. *)
Lemma shl_align_value (m : positive) (e e' : Z) :
  e' <= e ->
  Z.pos (shl_align m e e').1 = Z.pos m * 2 ^ (e - e').
Proof.
  intros He. unfold shl_align.
  destruct (e' - e) as [|d|d] eqn:Hd; cbn [fst]; try lia.
  - replace (e - e') with 0 by lia. lia.
  - rewrite iter_xO. f_equal. f_equal. lia.
Qed.

Lemma shl_align_exponent (m : positive) (e e' : Z) :
  (shl_align m e e').2 = Z.min e e'.
Proof.
  unfold shl_align. destruct (e' - e) as [|d|d] eqn:Hd; cbn [snd]; lia.
Qed.

(** *** Shifting right *)

Lemma shr_1_m (mrs : shr_record) :
  0 <= shr_m mrs -> shr_m (shr_1 mrs) = shr_m mrs / 2.
Proof.
  destruct mrs as [m r s]. cbn [shr_m shr_1]. intros Hm.
  destruct m as [|[p|p|]|p]; cbn [shr_m]; try lia.
  - reflexivity.
  - rewrite (Pos2Z.inj_xI p). apply (Z.div_unique _ 2 _ 1); lia.
  - rewrite (Pos2Z.inj_xO p). apply (Z.div_unique _ 2 _ 0); lia.
  - reflexivity.
Qed.

Lemma iter_shr_1_m (p : positive) (mrs : shr_record) :
  0 <= shr_m mrs ->
  shr_m (SpecFloat.iter_pos shr_1 p mrs) = shr_m mrs / 2 ^ Z.pos p.
Proof.
  revert mrs. induction p as [p IH|p IH|]; intros mrs Hm; cbn [SpecFloat.iter_pos].
  - assert (H1 : 0 <= shr_m (shr_1 mrs)).
    { rewrite shr_1_m by done. apply Z.div_pos; lia. }
    assert (H2 : 0 <= shr_m (SpecFloat.iter_pos shr_1 p (shr_1 mrs))).
    { rewrite IH by done. apply Z.div_pos; [done|]. apply Z.pow_pos_nonneg; lia. }
    rewrite IH, IH, shr_1_m by done.
    rewrite !Z.div_div by (try apply Z.pow_pos_nonneg; lia).
    f_equal. rewrite (Pos2Z.inj_xI p).
    replace (2 * Z.pos p + 1) with (1 + Z.pos p + Z.pos p) by lia.
    rewrite !Z.pow_add_r by lia. lia.
  - assert (H2 : 0 <= shr_m (SpecFloat.iter_pos shr_1 p mrs)).
    { rewrite IH by done. apply Z.div_pos; [done|]. apply Z.pow_pos_nonneg; lia. }
    rewrite IH, IH by done.
    rewrite !Z.div_div by (try apply Z.pow_pos_nonneg; lia).
    f_equal. rewrite (Pos2Z.inj_xO p).
    replace (2 * Z.pos p) with (Z.pos p + Z.pos p) by lia.
    rewrite !Z.pow_add_r by lia. lia.
  - rewrite shr_1_m by done. reflexivity.
Qed.

Lemma shr_record_of_loc_m (m : Z) (l : location) :
  shr_m (shr_record_of_loc m l) = m.
Proof. by destruct l as [|[]]. Qed.

(** Shifting a positive mantissa to its format leaves it positive, above
    the least exponent. *)
Lemma shr_fexp_positive (m : positive) (e : Z) (l : location) :
  -1074 <= e ->
  0 < shr_m (shr_fexp prec emax (Z.pos m) e l).1
  /\ -1074 <= (shr_fexp prec emax (Z.pos m) e l).2.
Proof.
  intros He. unfold shr_fexp, shr, fexp, SpecFloat.emin, prec, emax.
  cbn [Zdigits2].
  pose proof (digits2_pos_bounds m) as [Hlow Hhigh].
  set (D := Z.pos (digits2_pos m)) in *.
  destruct (Z.max (D + e - 53) (3 - 1024 - 53) - e) as [|n|n] eqn:Hn;
    cbn [fst snd]; rewrite ?shr_record_of_loc_m; try lia.
  split; [|lia].
  rewrite iter_shr_1_m by (rewrite shr_record_of_loc_m; lia).
  rewrite shr_record_of_loc_m.
  assert (Hnd : Z.pos n <= D - 1) by lia.
  apply Z.div_str_pos. split; [apply Z.pow_pos_nonneg; lia|].
  etrans; [|exact Hlow]. apply Z.pow_le_mono_r; lia.
Qed.

Lemma round_nearest_even_positive (m : Z) (l : location) :
  0 < m -> 0 < round_nearest_even m l.
Proof.
  intros Hm. destruct l as [|[]]; cbn; try lia.
  destruct (Z.even m); lia.
Qed.

(** Rounding a positive mantissa gives a number that is not zero, of the
    sign asked for. *)
Lemma binary_round_aux_sign (s : bool) (m : positive) (e : Z) (l : location) :
  -1074 <= e ->
  (exists m' e', binary_round_aux prec emax s (Z.pos m) e l
                 = S754_finite s m' e')
  \/ binary_round_aux prec emax s (Z.pos m) e l = S754_infinity s.
Proof.
  intros He. unfold binary_round_aux.
  pose proof (shr_fexp_positive m e l He) as [Hm1 He1].
  destruct (shr_fexp prec emax (Z.pos m) e l) as [mrs1 e1]. cbn [fst snd] in *.
  pose proof (round_nearest_even_positive (shr_m mrs1)
                (loc_of_shr_record mrs1) Hm1) as Hr.
  destruct (round_nearest_even (shr_m mrs1) (loc_of_shr_record mrs1))
    as [|m2|m2]; try lia.
  pose proof (shr_fexp_positive m2 e1 loc_Exact He1) as [Hm2 He2].
  destruct (shr_fexp prec emax (Z.pos m2) e1 loc_Exact) as [mrs2 e2].
  cbn [fst snd] in *.
  destruct (shr_m mrs2) as [|m3|m3]; try lia.
  destruct (e2 <=? emax - prec); [left; by eexists _, _|by right].
Qed.

Lemma binary_round_sign (s : bool) (m : positive) (e : Z) :
  -1074 <= e ->
  (exists m' e', binary_round prec emax s m e = S754_finite s m' e')
  \/ binary_round prec emax s m e = S754_infinity s.
Proof.
  intros He. unfold binary_round.
  pose proof (shl_align_exponent m e
                (fexp prec emax (Z.pos (digits2_pos m) + e))) as Hz.
  destruct (shl_align m e _) as [mz ez]. cbn [snd] in Hz.
  apply binary_round_aux_sign.
  unfold fexp, SpecFloat.emin, prec, emax in Hz. lia.
Qed.

(** The difference of two aligned mantissas, once rounded: zero, or a
    number of the sign of the difference. *)
Lemma binary_normalize_sign (d e : Z) :
  -1074 <= e ->
  match d ?= 0 with
  | Eq => binary_normalize prec emax d e false = S754_zero false
  | Lt => (exists m' e', binary_normalize prec emax d e false
                         = S754_finite true m' e')
          \/ binary_normalize prec emax d e false = S754_infinity true
  | Gt => (exists m' e', binary_normalize prec emax d e false
                         = S754_finite false m' e')
          \/ binary_normalize prec emax d e false = S754_infinity false
  end.
Proof.
  intros He. destruct d as [|m|m]; cbn [Z.compare binary_normalize].
  - reflexivity.
  - by apply binary_round_sign.
  - by apply binary_round_sign.
Qed.

(** *** Comparing *)

(** Two binary64 numbers compare as their aligned mantissas do. *)
Lemma SFcompare_aligned (s1 s2 : bool) (m1 m2 : positive) (e1 e2 : Z) :
  bounded prec emax m1 e1 = true ->
  bounded prec emax m2 e2 = true ->
  SFcompare (S754_finite s1 m1 e1) (S754_finite s2 m2 e2)
  = Some (cond_Zopp s1 (Z.pos (shl_align m1 e1 (Z.min e1 e2)).1)
          ?= cond_Zopp s2 (Z.pos (shl_align m2 e2 (Z.min e1 e2)).1)).
Proof.
  intros [He1 [Hd1 Hn1]]%bounded_inv [He2 [Hd2 Hn2]]%bounded_inv.
  rewrite !shl_align_value by lia.
  pose proof (digits2_pos_bounds m1) as [Hl1 Hh1].
  pose proof (digits2_pos_bounds m2) as [Hl2 Hh2].
  assert (Hm1 : Z.pos m1 < 2 ^ 53).
  { eapply Z.lt_le_trans; [exact Hh1|]. apply Z.pow_le_mono_r; lia. }
  assert (Hm2 : Z.pos m2 < 2 ^ 53).
  { eapply Z.lt_le_trans; [exact Hh2|]. apply Z.pow_le_mono_r; lia. }
  cbn [SFcompare]. f_equal.
  destruct (Z.compare_spec e1 e2) as [Heq|Hlt|Hgt].
  - subst e2. rewrite Z.min_id, Z.sub_diag, Z.pow_0_r, !Z.mul_1_r.
    by destruct s1, s2.
  - rewrite Z.min_l by lia. rewrite Z.sub_diag, Z.pow_0_r, Z.mul_1_r.
    assert (Hbig : 2 ^ 53 <= Z.pos m2 * 2 ^ (e2 - e1)).
    { rewrite Hn2 in Hl2 by lia.
      pose proof (Z.pow_le_mono_r 2 1 (e2 - e1) ltac:(lia) ltac:(lia)) as Hp.
      change (2 ^ 1) with 2 in Hp. change (2 ^ (53 - 1)) with (2 ^ 52) in Hl2.
      change (2 ^ 53) with (2 * 2 ^ 52).
      generalize dependent (2 ^ (e2 - e1)). generalize dependent (2 ^ 52).
      intros. nia. }
    destruct s1, s2; cbn [cond_Zopp]; symmetry;
      first [apply Z.compare_lt_iff | apply Z.compare_gt_iff]; lia.
  - rewrite Z.min_r by lia. rewrite Z.sub_diag, Z.pow_0_r, Z.mul_1_r.
    assert (Hbig : 2 ^ 53 <= Z.pos m1 * 2 ^ (e1 - e2)).
    { rewrite Hn1 in Hl1 by lia.
      pose proof (Z.pow_le_mono_r 2 1 (e1 - e2) ltac:(lia) ltac:(lia)) as Hp.
      change (2 ^ 1) with 2 in Hp. change (2 ^ (53 - 1)) with (2 ^ 52) in Hl1.
      change (2 ^ 53) with (2 * 2 ^ 52).
      generalize dependent (2 ^ (e1 - e2)). generalize dependent (2 ^ 52).
      intros. nia. }
    destruct s1, s2; cbn [cond_Zopp]; symmetry;
      first [apply Z.compare_lt_iff | apply Z.compare_gt_iff]; lia.
Qed.

(** The sign of a difference tells which of the two numbers is the
    smaller one; the difference of two equal infinities is NaN, which is
    neither below nor above zero. *)
Lemma SFsub_sign (x y : spec_float) :
  valid_binary x = true -> valid_binary y = true ->
  x <> S754_nan -> y <> S754_nan ->
  SFltb (SFsub prec emax y x) (S754_zero false) = SFltb y x
  /\ SFltb (S754_zero false) (SFsub prec emax y x) = SFltb x y.
Proof.
  intros Hx Hy Hnx Hny.
  destruct y as [sy|sy| |sy my ey], x as [sx|sx| |sx mx ex]; try done;
    try (by destruct sy, sx).
  cbn [SpecFloat.valid_binary] in Hx, Hy.
  unfold SFltb at 2 4.
  rewrite (SFcompare_aligned sy sx my mx ey ex Hy Hx).
  rewrite (SFcompare_aligned sx sy mx my ex ey Hx Hy).
  rewrite (Z.min_comm ex ey).
  cbn [SFsub].
  change (IntDef.Z.min ey ex) with (Z.min ey ex).
  set (a := cond_Zopp sy (Z.pos (shl_align my ey (Z.min ey ex)).1)).
  set (b := cond_Zopp sx (Z.pos (shl_align mx ex (Z.min ey ex)).1)).
  change (cond_Zopp sy (Z.pos (fst (shl_align my ey (Z.min ey ex))))) with a.
  change (cond_Zopp sx (Z.pos (fst (shl_align mx ex (Z.min ey ex))))) with b.
  apply bounded_inv in Hx as [Hex _]. apply bounded_inv in Hy as [Hey _].
  pose proof (binary_normalize_sign (a - b) (Z.min ey ex) ltac:(lia)) as Hs.
  destruct (Z.compare_spec (a - b) 0) as [Hd|Hd|Hd].
  - rewrite Hs. rewrite (proj2 (Z.compare_eq_iff a b)) by lia.
    rewrite (proj2 (Z.compare_eq_iff b a)) by lia. done.
  - rewrite (proj2 (Z.compare_lt_iff a b)) by lia.
    rewrite (proj2 (Z.compare_gt_iff b a)) by lia.
    by destruct Hs as [(m' & e' & ->)| ->].
  - rewrite (proj2 (Z.compare_gt_iff a b)) by lia.
    rewrite (proj2 (Z.compare_lt_iff b a)) by lia.
    by destruct Hs as [(m' & e' & ->)| ->].
Qed.

(** *** The order of the binary64 numbers

    A number's place on the line of integers: the numbers that are not
    NaN compare as their places do. *)
Definition SFplace (f : spec_float) : Z :=
  match f with
  | S754_zero _ | S754_nan => 0
  | S754_infinity s => cond_Zopp s (3000 * 2 ^ 53)
  | S754_finite s m e => cond_Zopp s ((e + 1075) * 2 ^ 53 + Z.pos m)
  end.

Lemma SFplace_finite (s : bool) (m : positive) (e : Z) :
  bounded prec emax m e = true ->
  0 < (e + 1075) * 2 ^ 53 + Z.pos m < 3000 * 2 ^ 53
  /\ Z.pos m < 2 ^ 53.
Proof.
  intros [He [Hd Hn]]%bounded_inv.
  pose proof (digits2_pos_bounds m) as [Hl Hh].
  assert (Hm : Z.pos m < 2 ^ 53).
  { eapply Z.lt_le_trans; [exact Hh|]. apply Z.pow_le_mono_r; lia. }
  split; [|done]. generalize dependent (2 ^ 53). intros. nia.
Qed.

Lemma SFcompare_place (x y : spec_float) :
  valid_binary x = true -> valid_binary y = true ->
  x <> S754_nan -> y <> S754_nan ->
  SFcompare x y = Some (SFplace x ?= SFplace y).
Proof.
  intros Hx Hy Hnx Hny.
  assert (Hbig : 0 < 3000 * 2 ^ 53) by done.
  destruct x as [sx|sx| |sx mx ex], y as [sy|sy| |sy my ey]; try done;
    cbn [SpecFloat.valid_binary] in Hx, Hy;
    try pose proof (SFplace_finite sx mx ex Hx) as [Hpx Hmx];
    try pose proof (SFplace_finite sy my ey Hy) as [Hpy Hmy];
    cbn [SFcompare SFplace]; f_equal.
  - by destruct sy.
  - destruct sy; cbn [cond_Zopp]; symmetry;
      first [apply Z.compare_lt_iff | apply Z.compare_gt_iff]; lia.
  - by destruct sx.
  - by destruct sx, sy.
  - destruct sx, sy; cbn [cond_Zopp]; symmetry;
      first [apply Z.compare_lt_iff | apply Z.compare_gt_iff]; lia.
  - destruct sx; cbn [cond_Zopp]; symmetry;
      first [apply Z.compare_lt_iff | apply Z.compare_gt_iff]; lia.
  - destruct sx, sy; cbn [cond_Zopp]; symmetry;
      first [apply Z.compare_lt_iff | apply Z.compare_gt_iff]; lia.
  - destruct (Z.compare_spec ex ey) as [Heq|Hlt|Hgt].
    + subst ey. change (Pos.compare_cont Eq mx my) with (Z.pos mx ?= Z.pos my).
      destruct sx, sy; cbn [cond_Zopp]; symmetry.
      * rewrite Z.compare_opp. rewrite <- Z.compare_antisym.
        destruct (Z.compare_spec (Z.pos my) (Z.pos mx)) as [H|H|H];
          first [apply Z.compare_eq_iff | apply Z.compare_lt_iff
                | apply Z.compare_gt_iff]; lia.
      * apply Z.compare_lt_iff; lia.
      * apply Z.compare_gt_iff; lia.
      * destruct (Z.compare_spec (Z.pos mx) (Z.pos my)) as [H|H|H];
          first [apply Z.compare_eq_iff | apply Z.compare_lt_iff
                | apply Z.compare_gt_iff]; lia.
    + assert (Hlt' : (ex + 1075) * 2 ^ 53 + Z.pos mx
                     < (ey + 1075) * 2 ^ 53 + Z.pos my).
      { generalize dependent (2 ^ 53). intros. nia. }
      destruct sx, sy; cbn [cond_Zopp]; symmetry;
        first [apply Z.compare_lt_iff | apply Z.compare_gt_iff]; lia.
    + assert (Hlt' : (ey + 1075) * 2 ^ 53 + Z.pos my
                     < (ex + 1075) * 2 ^ 53 + Z.pos mx).
      { generalize dependent (2 ^ 53). intros. nia. }
      destruct sx, sy; cbn [cond_Zopp]; symmetry;
        first [apply Z.compare_lt_iff | apply Z.compare_gt_iff]; lia.
Qed.

(** The place of a number of the program. *)
Definition place (x : float) : Z := SFplace (Prim2SF x).

Lemma is_nan_false (x : float) :
  is_nan x = false <-> Prim2SF x <> S754_nan.
Proof.
  unfold is_nan. rewrite FloatAxioms.eqb_spec. unfold SFeqb. split.
  - intros Hx Hn. rewrite Hn in Hx. done.
  - intros Hn.
    rewrite (SFcompare_place _ _ (Prim2SF_valid x) (Prim2SF_valid x) Hn Hn).
    by rewrite Z.compare_refl.
Qed.

Lemma ltb_place (x y : float) :
  is_nan x = false -> is_nan y = false ->
  (x <? y)%float = (place x <? place y).
Proof.
  intros Hx%is_nan_false Hy%is_nan_false.
  rewrite FloatAxioms.ltb_spec. unfold SFltb, place, Z.ltb.
  by rewrite (SFcompare_place _ _ (Prim2SF_valid x) (Prim2SF_valid y) Hx Hy).
Qed.

(** [y - x] is negative exactly when [y] is below [x], and positive
    exactly when [x] is below [y]. *)
Lemma sub_sign (x y : float) :
  is_nan x = false -> is_nan y = false ->
  ((y - x <? 0)%float = (place y <? place x))
  /\ ((0 <? y - x)%float = (place x <? place y)).
Proof.
  intros Hx Hy. rewrite <- !ltb_place by done.
  apply is_nan_false in Hx, Hy.
  rewrite !FloatAxioms.ltb_spec, FloatAxioms.sub_spec.
  change (Prim2SF 0) with (S754_zero false).
  exact (SFsub_sign _ _ (Prim2SF_valid x) (Prim2SF_valid y) Hx Hy).
Qed.

Lemma eqb_place (x y : float) :
  is_nan x = false -> is_nan y = false ->
  (x =? y)%float = (place x =? place y).
Proof.
  intros Hx%is_nan_false Hy%is_nan_false.
  rewrite FloatAxioms.eqb_spec. unfold SFeqb, place.
  rewrite (SFcompare_place _ _ (Prim2SF_valid x) (Prim2SF_valid y) Hx Hy).
  destruct (Z.eqb_spec (SFplace (Prim2SF x)) (SFplace (Prim2SF y))) as [E|E].
  - by rewrite (proj2 (Z.compare_eq_iff _ _) E).
  - destruct (Z.compare_spec (SFplace (Prim2SF x)) (SFplace (Prim2SF y)));
      done.
Qed.

Lemma leb_place (x y : float) :
  is_nan x = false -> is_nan y = false ->
  (x <=? y)%float = (place x <=? place y).
Proof.
  intros Hx%is_nan_false Hy%is_nan_false.
  rewrite FloatAxioms.leb_spec. unfold SFleb, place, Z.leb.
  rewrite (SFcompare_place _ _ (Prim2SF_valid x) (Prim2SF_valid y) Hx Hy).
  by destruct (SFplace (Prim2SF x) ?= SFplace (Prim2SF y)).
Qed.

Lemma eqb_nan_r (x s : float) : is_nan s = true -> (x =? s)%float = false.
Proof.
  intros Hs.
  assert (Hn : Prim2SF s = S754_nan).
  { destruct (Prim2SF s) eqn:E; try done; exfalso;
      assert (is_nan s = false) by (apply is_nan_false; by rewrite E);
      congruence. }
  rewrite FloatAxioms.eqb_spec, Hn. unfold SFeqb.
  by destruct (Prim2SF x) as [[]|[]| |[] m e].
Qed.

(** ** Cosine similarity *)








(** ** Sorting with a consistent comparator *)

Lemma same_sign_eq c d : same_sign c d = true <-> c = d.
Proof. destruct c, d; cbn; split; congruence. Qed.

Lemma consistent_on_sound {A} (comparefn : A -> A -> float) (S : list A) :
  consistent_on comparefn S = true -> consistent_comparator comparefn S.
Proof.
  unfold consistent_on. intros Hall.
  assert (Hin : forall a, a ∈ S -> In a S) by (intros; by apply list_elem_of_In).
  rewrite forallb_forall in Hall.
  assert (H1 : forall a, a ∈ S -> Rag.sort_compare comparefn a a = Eq).
  { intros a Ha. specialize (Hall a (Hin a Ha)).
    apply andb_prop in Hall as [Hr _]. by apply same_sign_eq. }
  assert (H2 : forall a b, a ∈ S -> b ∈ S ->
             (Rag.sort_compare comparefn a b = Eq ->
              Rag.sort_compare comparefn b a = Eq)
             /\ forall c, c ∈ S ->
                 forall d, Rag.sort_compare comparefn a b = d ->
                           Rag.sort_compare comparefn b c = d ->
                           Rag.sort_compare comparefn a c = d).
  { intros a b Ha Hb. specialize (Hall a (Hin a Ha)).
    apply andb_prop in Hall as [_ Hall]. rewrite forallb_forall in Hall.
    specialize (Hall b (Hin b Hb)). apply andb_prop in Hall as [Hs Hall].
    split.
    - intros Hab. rewrite Hab in Hs. by apply same_sign_eq.
    - intros c Hc d Hab Hbc. rewrite forallb_forall in Hall.
      specialize (Hall c (Hin c Hc)). rewrite Hab, Hbc in Hall.
      apply andb_prop in Hall as [Hall Hg]. apply andb_prop in Hall as [He Hl].
      destruct d; cbn in He, Hl, Hg; by apply same_sign_eq. }
  split; [done|..].
  - intros a b Ha Hb. by apply H2.
  - intros a b c Ha Hb Hc. by apply (H2 a b Ha Hb).
  - intros a b c Ha Hb Hc. by apply (H2 a b Ha Hb).
  - intros a b c Ha Hb Hc. by apply (H2 a b Ha Hb).
Qed.

Section SortContract.

Context {A : Type} (comparefn : A -> A -> float) (S : list A).
Hypothesis consistent : consistent_comparator comparefn S.

#[local] Abbreviation sc := (Rag.sort_compare comparefn).

Lemma lt_gt a b : a ∈ S -> b ∈ S -> sc a b = Lt -> sc b a = Gt.
Proof.
  intros Ha Hb Hab. destruct (sc b a) eqn:Hba; [| |done].
  - apply (cc_sym _ _ consistent) in Hba; [congruence|done..].
  - pose proof (cc_trans_lt _ _ consistent a b a Ha Hb Ha Hab Hba).
    pose proof (cc_refl _ _ consistent a Ha). congruence.
Qed.

Lemma gt_lt a b : a ∈ S -> b ∈ S -> sc a b = Gt -> sc b a = Lt.
Proof.
  intros Ha Hb Hab. destruct (sc b a) eqn:Hba; [|done|].
  - apply (cc_sym _ _ consistent) in Hba; [congruence|done..].
  - pose proof (cc_trans_gt _ _ consistent a b a Ha Hb Ha Hab Hba).
    pose proof (cc_refl _ _ consistent a Ha). congruence.
Qed.

(** Before a tie is before. *)
Lemma lt_eq_lt a b c :
  a ∈ S -> b ∈ S -> c ∈ S -> sc a b = Lt -> sc b c = Eq -> sc a c = Lt.
Proof.
  intros Ha Hb Hc Hab Hbc. destruct (sc a c) eqn:Hac; [|done|].
  - apply (cc_sym _ _ consistent) in Hbc; [|done..].
    pose proof (cc_trans_eq _ _ consistent a c b Ha Hc Hb Hac Hbc). congruence.
  - apply gt_lt in Hac; [|done..].
    pose proof (cc_trans_lt _ _ consistent c a b Hc Ha Hb Hac Hab).
    apply (cc_sym _ _ consistent) in Hbc; [congruence|done..].
Qed.

Lemma eq_lt_lt a b c :
  a ∈ S -> b ∈ S -> c ∈ S -> sc a b = Eq -> sc b c = Lt -> sc a c = Lt.
Proof.
  intros Ha Hb Hc Hab Hbc. destruct (sc a c) eqn:Hac; [|done|].
  - apply (cc_sym _ _ consistent) in Hab; [|done..].
    pose proof (cc_trans_eq _ _ consistent b a c Hb Ha Hc Hab Hac). congruence.
  - apply gt_lt in Hac; [|done..].
    pose proof (cc_trans_lt _ _ consistent b c a Hb Hc Ha Hbc Hac).
    apply (cc_sym _ _ consistent) in Hab; [congruence|done..].
Qed.

(** "Not after" is transitive. *)
Lemma not_gt_trans a b c :
  a ∈ S -> b ∈ S -> c ∈ S -> sc a b <> Gt -> sc b c <> Gt -> sc a c <> Gt.
Proof.
  intros Ha Hb Hc Hab Hbc.
  destruct (sc a b) eqn:Eab; [| |done]; destruct (sc b c) eqn:Ebc; try done.
  - by rewrite (cc_trans_eq _ _ consistent a b c).
  - by rewrite (eq_lt_lt a b c).
  - by rewrite (lt_eq_lt a b c).
  - by rewrite (cc_trans_lt _ _ consistent a b c).
Qed.

Lemma sort_insert_perm x l : Rag.sort_insert comparefn x l ≡ₚ x :: l.
Proof.
  induction l as [|y l IH]; cbn; [done|].
  destruct (sc y x); try done.
  rewrite IH. apply Permutation_swap.
Qed.

Lemma sort_perm l : Rag.sort comparefn l ≡ₚ l.
Proof.
  induction l as [|x l IH]; cbn; [done|].
  by rewrite sort_insert_perm, IH.
Qed.

Lemma sort_subseteq l : l ⊆ S -> Rag.sort comparefn l ⊆ S.
Proof. intros Hl x Hx. apply Hl. by rewrite <- (sort_perm l). Qed.

Lemma sort_insert_sorted x l :
  x ∈ S -> l ⊆ S ->
  StronglySorted (fun a b => sc a b <> Gt) l ->
  StronglySorted (fun a b => sc a b <> Gt) (Rag.sort_insert comparefn x l).
Proof.
  intros Hx Hl Hs. induction Hs as [|y l Hs IH Hy]; cbn.
  - repeat constructor.
  - assert (Hyin : y ∈ S) by (apply Hl; left).
    assert (Hlin : l ⊆ S) by (intros z Hz; apply Hl; by right).
    assert (Hafter : sc y x <> Lt ->
              StronglySorted (fun a b => sc a b <> Gt) (x :: y :: l)).
    { intros Hyx.
      assert (Hxy : sc x y <> Gt).
      { intros Hgt. by apply gt_lt in Hgt. }
      constructor; [by constructor|].
      constructor; [done|].
      apply Forall_forall. intros z Hz.
      apply (not_gt_trans x y z); [done|done|by apply Hlin|done|].
      by apply (proj1 (Forall_forall _ _) Hy). }
    destruct (sc y x) eqn:Hyx; [by apply Hafter| |by apply Hafter].
    constructor; [by apply IH|].
    rewrite sort_insert_perm. constructor; [congruence|done].
Qed.

Lemma sort_sorted l :
  l ⊆ S -> StronglySorted (fun a b => sc a b <> Gt) (Rag.sort comparefn l).
Proof.
  induction l as [|x l IH]; intros Hl; cbn; [constructor|].
  apply sort_insert_sorted.
  - apply Hl. left.
  - apply sort_subseteq. intros z Hz. apply Hl. by right.
  - apply IH. intros z Hz. apply Hl. by right.
Qed.

(** Inserting [x] puts it ahead of the elements it ties with. *)
Lemma filter_ties_insert r x l :
  r ∈ S -> x ∈ S -> l ⊆ S ->
  filter (fun y => sc y r = Eq) (Rag.sort_insert comparefn x l)
  = filter (fun y => sc y r = Eq) (x :: l).
Proof.
  intros Hr Hx Hl. induction l as [|y l IH]; cbn [Rag.sort_insert]; [done|].
  assert (Hyin : y ∈ S) by (apply Hl; left).
  assert (Hlin : l ⊆ S) by (intros z Hz; apply Hl; by right).
  destruct (sc y x) eqn:Hyx; try done.
  rewrite (filter_cons _ y), IH by done.
  rewrite !(filter_cons _ x), !(filter_cons _ y).
  destruct (decide (sc x r = Eq)) as [Hxr|Hxr]; [|done].
  destruct (decide (sc y r = Eq)) as [Hyr|Hyr]; [|done].
  by rewrite (lt_eq_lt y x r) in Hyr.
Qed.

Lemma filter_ties_sort r l :
  r ∈ S -> l ⊆ S ->
  filter (fun y => sc y r = Eq) (Rag.sort comparefn l)
  = filter (fun y => sc y r = Eq) l.
Proof.
  intros Hr. induction l as [|x l IH]; intros Hl; cbn [Rag.sort]; [done|].
  assert (Hlin : l ⊆ S) by (intros z Hz; apply Hl; by right).
  rewrite filter_ties_insert; [|done|apply Hl; left|by apply sort_subseteq].
  by rewrite !(filter_cons _ x), IH.
Qed.

(** Two sorted lists that show every class of ties in the same order
    are one list. *)
Lemma sorted_ties_determine l1 l2 :
  l1 ⊆ S -> l2 ⊆ S ->
  StronglySorted (fun a b => sc a b <> Gt) l1 ->
  StronglySorted (fun a b => sc a b <> Gt) l2 ->
  (forall r, r ∈ S ->
     filter (fun y => sc y r = Eq) l1 = filter (fun y => sc y r = Eq) l2) ->
  l1 = l2.
Proof.
  intros H1 H2 Hs1. revert l2 H2.
  induction Hs1 as [|x l1 Hs1 IH Hx]; intros l2 H2 Hs2 Hties.
  - destruct l2 as [|y l2]; [done|].
    assert (Hy : y ∈ S) by (apply H2; left).
    specialize (Hties y Hy). rewrite filter_nil, filter_cons_True in Hties;
      [done|by apply (cc_refl _ _ consistent)].
  - assert (Hxin : x ∈ S) by (apply H1; left).
    assert (H1' : l1 ⊆ S) by (intros z Hz; apply H1; by right).
    pose proof (Hties x Hxin) as Hx2.
    rewrite filter_cons_True in Hx2 by (by apply (cc_refl _ _ consistent)).
    destruct Hs2 as [|y l2 Hs2 Hy].
    { by rewrite filter_nil in Hx2. }
    assert (Hyin : y ∈ S) by (apply H2; left).
    assert (H2' : l2 ⊆ S) by (intros z Hz; apply H2; by right).
    assert (Hyx : sc y x <> Gt).
    { assert (Hin : x ∈ filter (fun z => sc z x = Eq) (y :: l2))
        by (rewrite <- Hx2; left).
      apply list_elem_of_filter in Hin as [_ Hin].
      apply elem_of_cons in Hin as [->|Hin].
      - by rewrite (cc_refl _ _ consistent).
      - by apply (proj1 (Forall_forall _ _) Hy). }
    assert (Hxy : sc x y <> Gt).
    { pose proof (Hties y Hyin) as Hy2.
      rewrite (filter_cons_True _ y l2) in Hy2
        by (by apply (cc_refl _ _ consistent)).
      assert (Hin : y ∈ filter (fun z => sc z y = Eq) (x :: l1))
        by (rewrite Hy2; left).
      apply list_elem_of_filter in Hin as [_ Hin].
      apply elem_of_cons in Hin as [->|Hin].
      - by rewrite (cc_refl _ _ consistent).
      - by apply (proj1 (Forall_forall _ _) Hx). }
    assert (Htie : sc y x = Eq).
    { destruct (sc y x) eqn:E; [done| |done].
      by apply lt_gt in E. }
    rewrite (filter_cons_True _ y l2) in Hx2 by done.
    injection Hx2 as -> _. f_equal.
    apply IH; [done|done|done|].
    intros r Hr. specialize (Hties r Hr).
    rewrite !(filter_cons _ y) in Hties.
    destruct (decide (sc y r = Eq)); [by injection Hties|done].
Qed.

(** The model of [Array.prototype.sort] is the only stable sort: every
    list that is sorted by the comparator and keeps the ties of [l] in
    their order is [sort l]. *)
Lemma sort_is_the_stable_sort l l' :
  l ⊆ S -> l' ⊆ S ->
  StronglySorted (fun a b => sc a b <> Gt) l' ->
  (forall r, r ∈ S ->
     filter (fun y => sc y r = Eq) l' = filter (fun y => sc y r = Eq) l) ->
  l' = Rag.sort comparefn l.
Proof.
  intros Hl Hl' Hsorted Hstable.
  apply sorted_ties_determine;
    [done|by apply sort_subseteq|done|by apply sort_sorted|].
  intros r Hr. rewrite Hstable by done. by rewrite filter_ties_sort.
Qed.

End SortContract.

Lemma StronglySorted_lookup {A} (R : A -> A -> Prop) (l : list A) (i j : nat) a b :
  StronglySorted R l -> l !! i = Some a -> l !! j = Some b -> (i < j)%nat -> R a b.
Proof.
  intros Hs. revert i j. induction Hs as [|x l Hs IH Hx]; intros i j Hi Hj Hij.
  - done.
  - destruct j as [|j]; [lia|]. cbn in Hj.
    destruct i as [|i]; cbn in Hi.
    + injection Hi as <-. apply (proj1 (Forall_forall _ _) Hx).
      by eapply list_elem_of_lookup_2.
    + apply (IH i j); [done|done|lia].
Qed.

(** ** Ranking *)

Lemma ltb_zero_asym (v : float) : (v <? 0)%float = true -> (0 <? v)%float = false.
Proof.
  rewrite !ltb_spec, Prim2SF_zero. unfold SFltb.
  destruct (Prim2SF v) as [s|[]| |[] m e]; cbn; congruence.
Qed.

Lemma not_after_by_similarity (a b : scored_row) :
  Rag.sort_compare Rag.by_similarity a b <> Gt ->
  (0 <? similarity b - similarity a)%float = false.
Proof.
  unfold Rag.sort_compare, Rag.by_similarity.
  destruct (similarity b - similarity a <? 0)%float eqn:Hneg.
  - intros _. by apply ltb_zero_asym.
  - by destruct (0 <? similarity b - similarity a)%float.
Qed.

Lemma search_in_memory_ranked `{Collaborators} (queryEmbedding : list float)
    (w : world) :
  exists pool,
    Db.getAllChunksWithEmbeddings w = (Ok pool, w)
    /\ Rag.search_in_memory queryEmbedding w
       = (Ok (Rag.rank (Rag.score_all queryEmbedding pool)), w).
Proof. eexists. split; reflexivity. Qed.

(** [search] answers with [finish_search] of what the backend ranked. *)
Lemma search_answer `{Collaborators} (r : Rag.t) (query : string)
    (o : Rag.search_options) (w w1 w2 : world) (q : embed_result)
    (results : list scored_row) :
  Embeddings.embed (Rag.embedder r) query w = (Ok q, w1) ->
  (if Rag.has_vectorSearch (Rag.db r)
   then Rag.vectorSearch (Rag.db r) (embedding q)
          (Js.num_or (Rag.topK o) 10 * 3)
   else Rag.search_in_memory (embedding q)) w1 = (Ok results, w2) ->
  Rag.search r query o w = (Ok (Rag.finish_search o results), w2).
Proof.
  intros Hq Hr. unfold Rag.search, bind. rewrite Hq.
  destruct (Rag.has_vectorSearch (Rag.db r)); by rewrite Hr.
Qed.

(** What [search] answers on a database that ranks in memory, from the
    ranking of [search_in_memory]. *)
Lemma search_in_memory_answer `{Collaborators} (r : Rag.t) (query : string)
    (o : Rag.search_options) (w w1 : world) (q : embed_result)
    (ranked : list scored_row) :
  Rag.db r <> Rag.SupabaseDatabase ->
  Embeddings.embed (Rag.embedder r) query w = (Ok q, w1) ->
  Rag.search_in_memory (embedding q) w1 = (Ok ranked, w1) ->
  Rag.search r query o w
  = (Ok (Rag.finish_search o
           (if Rag.has_vectorSearch (Rag.db r)
            then Js.take0 (Js.num_or (Rag.topK o) 10 * 3) ranked
            else ranked)), w1).
Proof.
  intros Hdb Hq Hr.
  apply (search_answer r query o w w1 w1 q); [done|].
  destruct (Rag.db r); cbn [Rag.has_vectorSearch Rag.vectorSearch]; try done.
  unfold bind. by rewrite Hr.
Qed.

(** The in-memory search path ([search_in_memory], which is the fallback
    of [search] and the [vectorSearch] of the local database) returns the
    scored chunks sorted by [b.similarity - a.similarity], and [search]
    answers from this ranking. Whenever that comparator is consistent on
    the scored chunks, the ranking is a rearrangement of them in which a
    later entry's similarity minus an earlier one's is never positive, and
    chunks that tie keep their original relative order. *)
Lemma search_in_memory_sorted `{Collaborators} (r : Rag.t)
    (query : string) (o : Rag.search_options) (w w1 : world)
    (q : embed_result) (pool : list chunk_view) :
  Rag.db r <> Rag.SupabaseDatabase ->
  Embeddings.embed (Rag.embedder r) query w = (Ok q, w1) ->
  Db.getAllChunksWithEmbeddings w1 = (Ok pool, w1) ->
  consistent_comparator Rag.by_similarity (Rag.score_all (embedding q) pool) ->
  exists ranked,
    Rag.search_in_memory (embedding q) w1 = (Ok ranked, w1)
    /\ Rag.search r query o w
       = (Ok (Rag.finish_search o
                (if Rag.has_vectorSearch (Rag.db r)
                 then Js.take0 (Js.num_or (Rag.topK o) 10 * 3) ranked
                 else ranked)), w1)
    /\ ranked ≡ₚ Rag.score_all (embedding q) pool
    /\ (forall (i j : nat) (a b : scored_row),
          ranked !! i = Some a -> ranked !! j = Some b -> (i < j)%nat ->
          (0 <? similarity b - similarity a)%float = false)
    /\ (forall x,
          x ∈ Rag.score_all (embedding q) pool ->
          filter (fun y => Rag.sort_compare Rag.by_similarity y x = Eq) ranked
          = filter (fun y => Rag.sort_compare Rag.by_similarity y x = Eq)
                   (Rag.score_all (embedding q) pool))
    /\ (forall s : float,
          filter (fun y => similarity y = s) ranked
          = filter (fun y => similarity y = s)
                   (Rag.score_all (embedding q) pool)).
Proof.
  intros Hdb Hq Hpool Hc.
  set (scored := Rag.score_all (embedding q) pool) in *.
  assert (Hr : Rag.search_in_memory (embedding q) w1
               = (Ok (Rag.rank scored), w1)).
  { unfold Rag.search_in_memory, bind. by rewrite Hpool. }
  exists (Rag.rank scored).
  split; [done|].
  split; [by apply (search_in_memory_answer r query o w w1 q)|].
  unfold Rag.rank. split; [apply sort_perm|].
  split.
  { intros i j a b Hi Hj Hij. apply not_after_by_similarity.
    apply (StronglySorted_lookup
             (fun a b => Rag.sort_compare Rag.by_similarity a b <> Gt)
             (Rag.sort Rag.by_similarity scored) i j a b); [|done..].
    by apply (sort_sorted Rag.by_similarity scored). }
  split.
  { intros x Hx.
    by apply (filter_ties_sort Rag.by_similarity scored Hc x scored). }
  intros s.
  destruct (decide (Exists (fun y => similarity y = s) scored))
    as [(x & Hx & Hs)%Exists_exists|Hnone].
  - assert (Htie : forall l : list scored_row,
              filter (fun y => similarity y = s)
                     (filter (fun y => Rag.sort_compare Rag.by_similarity y x
                                       = Eq) l)
              = filter (fun y => similarity y = s) l).
    { intros l. rewrite list_filter_filter. apply list_filter_iff.
      intros y. split; [tauto|]. intros Hy. split; [done|].
      rewrite <- (cc_refl _ _ Hc x Hx).
      unfold Rag.sort_compare, Rag.by_similarity. by rewrite Hy, Hs. }
    rewrite <- (Htie (Rag.sort _ _)), <- (Htie scored).
    by rewrite (filter_ties_sort Rag.by_similarity scored Hc x scored).
  - assert (Hnil : forall l : list scored_row, l ⊆ scored ->
              filter (fun y => similarity y = s) l = []).
    { intros l Hl. induction l as [|y l IH]; [done|].
      rewrite filter_cons_False.
      - apply IH. intros z Hz. apply Hl. by right.
      - intros Hy. apply Hnone, Exists_exists.
        exists y. split; [apply Hl; left|done]. }
    rewrite (Hnil scored) by done.
    apply Hnil. by apply (sort_subseteq Rag.by_similarity scored).
Qed.

(** Without NaN, [b.similarity - a.similarity] orders two rows as their
    similarities' places compare. *)
Lemma sort_compare_by_similarity (a b : scored_row) :
  is_nan (similarity a) = false -> is_nan (similarity b) = false ->
  Rag.sort_compare Rag.by_similarity a b
  = (place (similarity b) ?= place (similarity a)).
Proof.
  intros Ha Hb. unfold Rag.sort_compare, Rag.by_similarity.
  destruct (sub_sign (similarity a) (similarity b) Ha Hb) as [-> ->].
  destruct (Z.ltb_spec (place (similarity b)) (place (similarity a)));
    [symmetry; by apply Z.compare_lt_iff|].
  destruct (Z.ltb_spec (place (similarity a)) (place (similarity b)));
    symmetry; [apply Z.compare_gt_iff | apply Z.compare_eq_iff]; lia.
Qed.

(** Without NaN the comparator of the ranking is consistent. *)
Lemma by_similarity_consistent (S : list scored_row) :
  Forall (fun x => is_nan (similarity x) = false) S ->
  consistent_comparator Rag.by_similarity S.
Proof.
  intros Hnan. rewrite Forall_forall in Hnan.
  split.
  - intros a Ha. rewrite sort_compare_by_similarity by auto.
    apply Z.compare_refl.
  - intros a b Ha Hb. rewrite !sort_compare_by_similarity by auto.
    rewrite !Z.compare_eq_iff. lia.
  - intros a b c Ha Hb Hc. rewrite !sort_compare_by_similarity by auto.
    rewrite !Z.compare_eq_iff. lia.
  - intros a b c Ha Hb Hc. rewrite !sort_compare_by_similarity by auto.
    rewrite !Z.compare_lt_iff. lia.
  - intros a b c Ha Hb Hc. rewrite !sort_compare_by_similarity by auto.
    rewrite !Z.compare_gt_iff. lia.
Qed.

Lemma filter_ext_in {A} (P Q : A -> Prop) `{!forall x, Decision (P x)}
    `{!forall x, Decision (Q x)} (l : list A) :
  (forall x, x ∈ l -> P x <-> Q x) -> filter P l = filter Q l.
Proof.
  induction l as [|x l IH]; intros Hl; [done|].
  assert (Hx : P x <-> Q x) by (apply Hl; left).
  assert (Hrest : filter P l = filter Q l)
    by (apply IH; intros y Hy; apply Hl; by right).
  destruct (decide (P x)) as [HP|HP].
  - rewrite !filter_cons_True by tauto. by rewrite Hrest.
  - rewrite !filter_cons_False by tauto. done.
Qed.

Lemma filter_none {A} (P : A -> Prop) `{!forall x, Decision (P x)}
    (l : list A) :
  (forall x, x ∈ l -> ~ P x) -> filter P l = [].
Proof.
  induction l as [|x l IH]; intros Hl; [done|].
  rewrite filter_cons_False by (apply Hl; left).
  apply IH. intros y Hy. apply Hl. by right.
Qed.

(** C6, as amended. The in-memory search path ([search_in_memory], which
    is the fallback of [search] and the [vectorSearch] of the local
    database) returns the scored chunks sorted by
    [b.similarity - a.similarity], and [search] answers from this
    ranking. When no similarity is NaN, the ranking is a rearrangement of
    the scored chunks in descending order of similarity (a later entry's
    similarity is at most an earlier one's), and for every number the
    chunks whose similarity equals it keep their original relative
    order. *)
Theorem search_in_memory_descending_stable `{Collaborators} (r : Rag.t)
    (query : string) (o : Rag.search_options) (w w1 : world)
    (q : embed_result) (pool : list chunk_view) :
  Rag.db r <> Rag.SupabaseDatabase ->
  Embeddings.embed (Rag.embedder r) query w = (Ok q, w1) ->
  Db.getAllChunksWithEmbeddings w1 = (Ok pool, w1) ->
  Forall (fun x => is_nan (similarity x) = false)
         (Rag.score_all (embedding q) pool) ->
  exists ranked,
    Rag.search_in_memory (embedding q) w1 = (Ok ranked, w1)
    /\ Rag.search r query o w
       = (Ok (Rag.finish_search o
                (if Rag.has_vectorSearch (Rag.db r)
                 then Js.take0 (Js.num_or (Rag.topK o) 10 * 3) ranked
                 else ranked)), w1)
    /\ ranked ≡ₚ Rag.score_all (embedding q) pool
    /\ (forall (i j : nat) (a b : scored_row),
          ranked !! i = Some a -> ranked !! j = Some b -> (i < j)%nat ->
          (similarity b <=? similarity a)%float = true)
    /\ (forall s : float,
          filter (fun y => (similarity y =? s)%float = true) ranked
          = filter (fun y => (similarity y =? s)%float = true)
                   (Rag.score_all (embedding q) pool)).
Proof.
  intros Hdb Hq Hpool Hnan.
  set (scored := Rag.score_all (embedding q) pool) in *.
  destruct (search_in_memory_sorted r query o w w1 q pool Hdb Hq
              Hpool (by_similarity_consistent _ Hnan))
    as (ranked & Hr & Hsearch & Hperm & Hdesc & Hties & _).
  fold scored in Hperm, Hties.
  rewrite Forall_forall in Hnan.
  assert (Hnan' : forall y, y ∈ ranked -> is_nan (similarity y) = false).
  { intros y Hy. apply Hnan. by rewrite <- Hperm. }
  exists ranked. do 3 (split; [done|]). split.
  - intros i j a b Hi Hj Hij.
    assert (Ha : is_nan (similarity a) = false)
      by (eapply Hnan', list_elem_of_lookup_2, Hi).
    assert (Hb : is_nan (similarity b) = false)
      by (eapply Hnan', list_elem_of_lookup_2, Hj).
    specialize (Hdesc i j a b Hi Hj Hij).
    destruct (sub_sign (similarity a) (similarity b) Ha Hb) as [_ Hpos].
    rewrite Hpos in Hdesc. rewrite leb_place by done.
    apply Z.leb_le. apply Z.ltb_ge in Hdesc. done.
  - intros s.
    destruct (decide (Exists (fun y => (similarity y =? s)%float = true)
                             scored))
      as [(x & Hx & Hs)%Exists_exists|Hnone].
    + assert (Hsn : is_nan s = false).
      { destruct (is_nan s) eqn:E; [|done].
        by rewrite (eqb_nan_r _ _ E) in Hs. }
      assert (Htie : forall y, is_nan (similarity y) = false ->
                (similarity y =? s)%float = true
                <-> Rag.sort_compare Rag.by_similarity y x = Eq).
      { intros y Hy.
        rewrite sort_compare_by_similarity by auto.
        rewrite eqb_place in Hs |- * by auto.
        apply Z.eqb_eq in Hs. rewrite Z.eqb_eq, Z.compare_eq_iff. lia. }
      rewrite (filter_ext_in _
                 (fun y => Rag.sort_compare Rag.by_similarity y x = Eq) ranked)
        by (intros y Hy; apply Htie; auto).
      rewrite (filter_ext_in _
                 (fun y => Rag.sort_compare Rag.by_similarity y x = Eq) scored)
        by (intros y Hy; apply Htie; auto).
      by apply Hties.
    + assert (Hno : forall y, y ∈ scored -> ~ (similarity y =? s)%float = true).
      { intros y Hy Hys. apply Hnone, Exists_exists. by exists y. }
      rewrite (filter_none _ scored) by done.
      apply filter_none. intros y Hy. apply Hno. by rewrite <- Hperm.
Qed.

Lemma search_in_memory_descending_stable_witness :
  Rag.rank [Sample.c0; Sample.c1; Sample.c2]
  = [Sample.c0; Sample.c2; Sample.c1]
  /\ exists ranked hits w1,
       Rag.search_in_memory [113; 1]%float
         Sample.shelf_with_tie
       = (Ok ranked, Sample.shelf_with_tie)
       /\ v_source_id ∘ row <$> ranked = [10; 12; 11]
       /\ @Rag.search Sample.all_up Sample.local "q" Rag.default_search
            Sample.shelf_with_tie = (Ok hits, w1)
       /\ Rag.h_sourceId <$> hits = [10; 12; 11]
       /\ forall (i j : nat) (a b : scored_row),
            ranked !! i = Some a -> ranked !! j = Some b -> (i < j)%nat ->
            (similarity b <=? similarity a)%float = true.
Proof.
  split; [vm_compute; reflexivity|].
  assert (Hq : exists w1,
             @Embeddings.embed Sample.all_up (Rag.embedder Sample.local) "q"
               Sample.shelf_with_tie
             = (Ok {| embedding := [113; 1]%float;
                      provider := Some "gemini";
                      model := Some "text-embedding-004" |}, w1)
             /\ sources w1 = sources Sample.shelf_with_tie
             /\ chunks w1 = chunks Sample.shelf_with_tie)
    by (vm_compute; eexists; repeat split; reflexivity).
  destruct Hq as (w1 & Hq & Hs & Hc).
  assert (Hpool : exists pool,
             Db.getAllChunksWithEmbeddings w1 = (Ok pool, w1)
             /\ Db.getAllChunksWithEmbeddings Sample.shelf_with_tie
                = (Ok pool, Sample.shelf_with_tie)).
  { unfold Db.getAllChunksWithEmbeddings, bind, get_world, ret.
    rewrite Hs, Hc. eexists. split; reflexivity. }
  destruct Hpool as (pool & Hpool & Hpool0).
  assert (Hpool' : pool
            = [view_of (Sample.source_named 10 "ten")
                 (Sample.chunk_with 1 10 [1; 1]%float);
               view_of (Sample.source_named 11 "eleven")
                 (Sample.chunk_with 2 11 [0; 1]%float);
               view_of (Sample.source_named 12 "twelve")
                 (Sample.chunk_with 3 12 [1; 1]%float)]).
  { vm_compute in Hpool0. by injection Hpool0 as <-. }
  assert (Hnan : Forall (fun x => is_nan (similarity x) = false)
                   (Rag.score_all [113; 1]%float pool)).
  { rewrite Hpool'. repeat constructor; vm_compute; reflexivity. }
  destruct (@search_in_memory_descending_stable Sample.all_up Sample.local
              "q" Rag.default_search Sample.shelf_with_tie w1 _ pool
              ltac:(discriminate) Hq Hpool Hnan)
    as (ranked & Hr & Hsearch & _ & Hdesc & _).
  cbn [embedding] in Hr, Hdesc.
  assert (Hranked : ranked = Rag.rank (Rag.score_all [113; 1]%float pool)).
  { unfold Rag.search_in_memory, bind in Hr. rewrite Hpool in Hr.
    by injection Hr as <-. }
  exists ranked, (Rag.finish_search Rag.default_search
                    (Js.take0 30 ranked)), w1.
  split.
  { unfold Rag.search_in_memory, bind. rewrite Hpool0, Hranked. reflexivity. }
  split; [rewrite Hranked, Hpool'; vm_compute; reflexivity|].
  split; [exact Hsearch|].
  split; [rewrite Hranked, Hpool'; vm_compute; reflexivity|].
  exact Hdesc.
Defined.

(** C6, as stated, fails when a similarity is NaN, which ties with
    every number under [b.similarity - a.similarity]. Three notes are
    ingested into a fresh local database, the embedding endpoint answering
    the second one with a vector of two components of 1e308: the query "q"
    (vector [113, 1]) then scores the three chunks 0.979..., NaN and
    0.993..., and both [search_in_memory] and [search] answer in that very
    order, the most similar chunk last. *)
Lemma search_in_memory_nan_unsorted :
  exists a b c hits w1,
    Store.embedding <$> chunks Sample.library_with_overflow
    = [Some [97; 21]; Some [1e308; 1e308]; Some [113; 14]]%float
    /\ Rag.search_in_memory [113; 1]%float Sample.library_with_overflow
       = (Ok [a; b; c], Sample.library_with_overflow)
    /\ is_nan (similarity b) = true
    /\ (similarity a <? similarity c)%float = true
    /\ (similarity c <=? similarity a)%float = false
    /\ @Rag.search Sample.overflowing Sample.local "q" Rag.default_search
         Sample.library_with_overflow = (Ok hits, w1)
    /\ Rag.h_similarity <$> hits = similarity <$> [a; b; c]
    /\ Rag.h_sourceId <$> hits = [1; 2; 3].
Proof.
  vm_compute. eexists _, _, _, _, _. repeat split; reflexivity.
Qed.

(** ** Deduplication by source *)

Lemma dedupe_filter_first (seen : gset Z) (results : list scored_row) :
  Rag.dedupe seen results
  = filter (fun x => source_of x ∉ seen) (first_per_source results).
Proof.
  revert seen. induction results as [|r rest IH]; intros seen; [done|].
  cbn [Rag.dedupe first_per_source]. fold (source_of r).
  rewrite filter_cons.
  destruct (decide (source_of r ∈ seen)) as [Hin|Hout].
  - rewrite decide_False by (by intros ?).
    rewrite IH, list_filter_filter. apply list_filter_iff.
    intros x. split; [|tauto].
    intros Hx. split; [done|]. intros Heq. apply Hx. by rewrite Heq.
  - rewrite decide_True by done. f_equal.
    rewrite IH, list_filter_filter. apply list_filter_iff.
    intros x. rewrite not_elem_of_union, not_elem_of_singleton. tauto.
Qed.

Lemma first_per_source_sublist (results : list scored_row) :
  first_per_source results `sublist_of` results.
Proof.
  induction results as [|r rest IH]; cbn; [done|].
  apply sublist_skip. etrans; [|exact IH].
  apply sublist_filter.
Qed.

Lemma first_per_source_sources (results : list scored_row) :
  NoDup (source_of <$> first_per_source results).
Proof.
  induction results as [|r rest IH]; cbn [first_per_source]; [constructor|].
  rewrite fmap_cons. apply NoDup_cons. split.
  - intros (x & Hx & Hin)%list_elem_of_fmap.
    apply list_elem_of_filter in Hin as [Hne _]. by apply Hne.
  - apply (sublist_NoDup _ (source_of <$> first_per_source rest));
      [exact IH|apply fmap_sublist, sublist_filter].
Qed.

Lemma first_per_source_covers (results : list scored_row) (x : scored_row) :
  x ∈ results ->
  exists r, r ∈ first_per_source results /\ source_of r = source_of x.
Proof.
  induction results as [|r0 rest IH]; [by intros ?%elem_of_nil|].
  intros [->|Hx]%elem_of_cons; cbn [first_per_source].
  - exists r0. split; [left|done].
  - destruct (IH Hx) as (r & Hr & Hsrc).
    destruct (decide (source_of r = source_of r0)) as [Heq|Hne].
    + exists r0. split; [left|congruence].
    + exists r. split; [|done]. right. by apply list_elem_of_filter.
Qed.

Lemma first_per_source_first (before : list scored_row) (r : scored_row)
    (after : list scored_row) :
  source_of r ∉ source_of <$> before ->
  r ∈ first_per_source (before ++ r :: after).
Proof.
  induction before as [|y before IH]; intros Hfresh; cbn [app first_per_source].
  - left.
  - right. rewrite fmap_cons, not_elem_of_cons in Hfresh.
    destruct Hfresh as [Hne Hfresh].
    apply list_elem_of_filter. split; [done|]. by apply IH.
Qed.

(** The pool depends on the two tables only. *)
Lemma pool_of_same_tables (u w : world) :
  sources u = sources w -> chunks u = chunks w ->
  Db.getAllChunksWithEmbeddings u
  = (Ok (default [] (match (Db.getAllChunksWithEmbeddings w).1 with
                     | Ok pool => Some pool
                     | Throw _ => None
                     end)), u).
Proof.
  unfold Db.getAllChunksWithEmbeddings, bind, get_world, ret.
  by intros -> ->.
Qed.

Lemma vectorSearch_local `{Collaborators} (queryEmbedding : list float)
    (topK : Z) (u : world) (pool : list chunk_view) :
  Db.getAllChunksWithEmbeddings u = (Ok pool, u) ->
  Rag.vectorSearch Rag.SQLiteDatabase queryEmbedding topK u
  = (Ok (Js.take0 topK (Rag.rank (Rag.score_all queryEmbedding pool))), u).
Proof.
  intros Hpool. unfold Rag.vectorSearch, Rag.search_in_memory, bind.
  by rewrite Hpool.
Qed.

(** C7. Unless [dedupeBySource] is [false], [search] keeps of the list
    that the database ranked the first chunk of every source, in rank
    order, and answers with the top K of these. Said with
    [first_per_source]: what is kept is a sublist of the ranked list
    (order kept), holds no source twice, holds every source of the ranked
    list, and holds each chunk whose source does not occur before it. *)
Theorem search_keeps_first_per_source `{Collaborators} (r : Rag.t)
    (query : string) (o : Rag.search_options) (w w' : world)
    (hits : list Rag.hit) :
  Rag.dedupeBySource o <> Some false ->
  Rag.search r query o w = (Ok hits, w') ->
  exists q w1 ranked,
    Embeddings.embed (Rag.embedder r) query w = (Ok q, w1)
    /\ (if Rag.has_vectorSearch (Rag.db r)
        then Rag.vectorSearch (Rag.db r) (embedding q)
               (Js.num_or (Rag.topK o) 10 * 3)
        else Rag.search_in_memory (embedding q)) w1 = (Ok ranked, w')
    /\ hits
       = map (Rag.project (Js.num_or (Rag.maxCharsPerResult o) 2500))
           (Js.take0 (Js.num_or (Rag.topK o) 10) (first_per_source ranked))
    /\ first_per_source ranked `sublist_of` ranked
    /\ NoDup (source_of <$> first_per_source ranked)
    /\ (forall x, x ∈ ranked ->
          exists y, y ∈ first_per_source ranked /\ source_of y = source_of x)
    /\ (forall before x after,
          ranked = before ++ x :: after ->
          source_of x ∉ source_of <$> before ->
          x ∈ first_per_source ranked).
Proof.
  intros Hon Hs. unfold Rag.search, bind in Hs.
  destruct (Embeddings.embed (Rag.embedder r) query w) as [[q|e] w1] eqn:Hq;
    [|done].
  match type of Hs with
  | context [match ?c w1 with _ => _ end] =>
      destruct (c w1) as [[ranked|e] w2] eqn:Hr; [|done]
  end.
  injection Hs as <- <-.
  exists q, w1, ranked. split; [done|]. split; [done|].
  assert (Hd : Rag.dedupe ∅ ranked = first_per_source ranked).
  { rewrite dedupe_filter_first.
    induction (first_per_source ranked) as [|x l IH]; [done|].
    rewrite filter_cons_True by set_solver. by rewrite IH. }
  split.
  { unfold Rag.finish_search. rewrite Hd.
    destruct (Rag.dedupeBySource o) as [[]|]; done. }
  split; [apply first_per_source_sublist|].
  split; [apply first_per_source_sources|].
  split; [apply first_per_source_covers|].
  intros before x after ->. apply first_per_source_first.
Qed.

Lemma search_keeps_first_per_source_witness :
  Rag.finish_search Rag.default_search [Sample.a1; Sample.b2; Sample.a3]
  = map (Rag.project 2500) [Sample.a1; Sample.b2]
  /\ exists hits w' ranked,
       @Rag.search Sample.all_up Sample.local "q" Rag.default_search
         Sample.shelf_a_b_a = (Ok hits, w')
       /\ source_of <$> ranked = [1; 2; 1]
       /\ hits = map (Rag.project 2500)
                   (Js.take0 10 (first_per_source ranked))
       /\ Rag.h_sourceId <$> hits = [1; 2].
Proof.
  split; [vm_compute; reflexivity|].
  assert (Hs : exists hits w',
             @Rag.search Sample.all_up Sample.local "q" Rag.default_search
               Sample.shelf_a_b_a = (Ok hits, w')
             /\ Rag.h_sourceId <$> hits = [1; 2])
    by (vm_compute; eexists _, _; split; reflexivity).
  destruct Hs as (hits & w' & Hs & Hids).
  destruct (@search_keeps_first_per_source Sample.all_up Sample.local "q"
              Rag.default_search Sample.shelf_a_b_a w' hits
              ltac:(discriminate) Hs)
    as (q & w1 & ranked & Hq & Hr & Hhits & _).
  exists hits, w', ranked. split; [exact Hs|].
  split; [|split; [exact Hhits|exact Hids]].
  assert (Hq' : exists u,
             @Embeddings.embed Sample.all_up (Rag.embedder Sample.local) "q"
               Sample.shelf_a_b_a
             = (Ok {| embedding := [113; 1]%float;
                      provider := Some "gemini";
                      model := Some "text-embedding-004" |}, u)
             /\ sources u = sources Sample.shelf_a_b_a
             /\ chunks u = chunks Sample.shelf_a_b_a)
    by (vm_compute; eexists; repeat split; reflexivity).
  destruct Hq' as (u & Hu & Hsu & Hcu).
  rewrite Hu in Hq. injection Hq as <- <-.
  change (Rag.has_vectorSearch (Rag.db Sample.local)) with true in Hr.
  change (Rag.db Sample.local) with Rag.SQLiteDatabase in Hr.
  cbn [embedding] in Hr.
  rewrite (@vectorSearch_local Sample.all_up _ _ _ _
             (pool_of_same_tables u Sample.shelf_a_b_a Hsu Hcu)) in Hr.
  injection Hr as <- _.
  vm_compute. reflexivity.
Defined.

(** ** URL normalization *)

(** C4, at its two addresses. The first is normalized to
    [https://x.com/a/b]. The second is not: its host, [www.twitter.com], is
    compared with [twitter.com] before the leading "www." is removed, so
    the alias is not rewritten and the key is [https://twitter.com/a/b]. *)
Theorem normalizeUrl_www_twitter :
  Db.normalizeUrl (Some "https://x.com/a/b/?utm_source=x")
  = Some "https://x.com/a/b"
  /\ Db.normalizeUrl (Some "https://www.twitter.com/a/b")
     = Some "https://twitter.com/a/b"
  /\ Db.normalizeUrl (Some "https://twitter.com/a/b")
     = Some "https://x.com/a/b".
Proof. repeat split; vm_compute; reflexivity. Qed.

(** ** Embedding: fallback and cache *)

(** C3, where it fails. With OpenAI preferred, both keys set and OpenAI
    answering 503, [embed] throws the error of the third OpenAI attempt:
    Gemini, which would have answered, is never called, and the error is
    not the one that says that no provider is available. The same error
    comes out when Gemini is preferred and both endpoints are down. *)
Theorem embed_openai_failure_is_final :
  let '(r, w) :=
    @Embeddings.embed Sample.openai_down (Sample.both_keys "openai")
      "hello" Sample.fresh in
  r = Throw "OpenAI API error: 503 - Service Unavailable"
  /\ openai_calls w = 3%nat
  /\ gemini_calls w = 0%nat
  /\ @fetch_gemini Sample.openai_down 0 "gemini-key" "hello"
     = HttpOk (Some [104; 5]%float)
  /\ (@Embeddings.embed Sample.all_down (Sample.both_keys "gemini")
        "hello" Sample.fresh).1
     = Throw "OpenAI API error: 503 - Service Unavailable".
Proof. vm_compute. repeat split; reflexivity. Qed.

(** The cache is read by the hash alone. *)
Lemma embed_hit `{Collaborators} (p : Embeddings.provider_state)
    (text : string) (w : world) (stored : embed_result) :
  Embeddings.map_get
    (Embeddings.hash text (Embeddings.preferredProvider p)) (cache w)
  = Some stored ->
  (Embeddings.embed p text w).1 = Ok stored.
Proof.
  intros Hhit. unfold Embeddings.embed, Embeddings.embed_lookup,
    Embeddings.cache_get, bind, ret.
  by rewrite Hhit.
Qed.

Section Fallback.

Context `{Collaborators}.

Lemma embedWithOpenAI_throws text key w n e :
  openai_calls w = n ->
  failure "OpenAI"
    (fetch_openai n key (Js.slice0 Embeddings.MAX_INPUT_CHARS text))
  = Some e ->
  Embeddings.embedWithOpenAI text key w = (Throw e, set_openai_calls (S n) w).
Proof.
  intros <-.
  unfold Embeddings.embedWithOpenAI, bind, get_world, modify, throw, ret.
  destruct (fetch_openai _ _ _); cbn; intros [= <-]; reflexivity.
Qed.

(** Three failed requests exhaust the retries: the third error is thrown,
    after pauses of one and two seconds. *)
Lemma retry_openai_exhausted text key w e1 e2 e3 :
  let sent := Js.slice0 Embeddings.MAX_INPUT_CHARS text in
  failure "OpenAI" (fetch_openai (openai_calls w) key sent) = Some e1 ->
  failure "OpenAI" (fetch_openai (S (openai_calls w)) key sent) = Some e2 ->
  failure "OpenAI" (fetch_openai (S (S (openai_calls w))) key sent) = Some e3 ->
  Embeddings.retryWithBackoff (Embeddings.embedWithOpenAI text key)
    Embeddings.MAX_RETRIES w
  = (Throw e3,
     set_openai_calls (S (S (S (openai_calls w))))
       (set_clock (clock w + 1000 + 2000) w)).
Proof.
  intros sent H1 H2 H3.
  unfold Embeddings.retryWithBackoff, Embeddings.MAX_RETRIES.
  cbn [Embeddings.retry_loop]. unfold try_catch at 1. unfold bind at 1.
  rewrite (embedWithOpenAI_throws text key w _ e1 eq_refl H1).
  rewrite (decide_False (P := 0%nat = Init.Nat.pred 3)) by done.
  change (Embeddings.retry_delay 0) with 1000.
  unfold bind at 1. unfold sleep at 1, modify at 1.
  unfold try_catch at 1. unfold bind at 1.
  erewrite (embedWithOpenAI_throws text key _ (S (openai_calls w)) e2);
    [|reflexivity|exact H2].
  rewrite (decide_False (P := 1%nat = Init.Nat.pred 3)) by done.
  change (Embeddings.retry_delay 1) with 2000.
  unfold bind at 1. unfold sleep at 1, modify at 1.
  unfold try_catch at 1. unfold bind at 1.
  erewrite (embedWithOpenAI_throws text key _ (S (S (openai_calls w))) e3);
    [|reflexivity|exact H3].
  rewrite (decide_True (P := 2%nat = Init.Nat.pred 3)) by done.
  unfold throw. by destruct w.
Qed.
(** With OpenAI preferred, a text that is not cached, and three failed
    requests, [embed] throws the third error of OpenAI; no request goes to
    Gemini, with or without a Gemini key. *)
Lemma embed_openai_preferred_exhausted p text w key e1 e2 e3 :
  Embeddings.preferredProvider p = "openai" ->
  Embeddings.key_of (Embeddings.openaiKey p) = Some key ->
  Embeddings.map_get (Embeddings.hash text "openai") (cache w) = None ->
  let sent := Js.slice0 Embeddings.MAX_INPUT_CHARS text in
  failure "OpenAI" (fetch_openai (openai_calls w) key sent) = Some e1 ->
  failure "OpenAI" (fetch_openai (S (openai_calls w)) key sent) = Some e2 ->
  failure "OpenAI" (fetch_openai (S (S (openai_calls w))) key sent) = Some e3 ->
  exists w',
    Embeddings.embed p text w = (Throw e3, w')
    /\ gemini_calls w' = gemini_calls w
    /\ cache w' = cache w.
Proof.
  intros Hpref Hkey Hmiss sent H1 H2 H3.
  unfold Embeddings.embed, Embeddings.embed_lookup, Embeddings.cache_get.
  unfold bind at 1. rewrite Hpref, Hmiss.
  unfold Embeddings.embed_fetch. rewrite Hpref, Hkey.
  assert (Hfirst : forall w0,
            match Embeddings.key_of (Embeddings.geminiKey p) with
            | Some key0 =>
                if decide ("openai" = "gemini")
                then try_catch
                       (do e <- Embeddings.retryWithBackoff
                                  (Embeddings.embedWithGemini text key0)
                                  Embeddings.MAX_RETRIES;
                        ret {| Embeddings.a_embedding := e;
                               Embeddings.a_provider := Some "gemini";
                               Embeddings.a_model :=
                                 Some Embeddings.GEMINI_EMBEDDING_MODEL |})
                       (fun _ => ret Embeddings.nothing_yet)
                else ret Embeddings.nothing_yet
            | None => ret Embeddings.nothing_yet
            end w0 = (Ok Embeddings.nothing_yet, w0)).
  { intros w0. by destruct (Embeddings.key_of (Embeddings.geminiKey p)). }
  unfold bind at 1. rewrite Hfirst. cbn [Embeddings.a_embedding
    Embeddings.nothing_yet].
  unfold bind at 1, bind at 1.
  rewrite (retry_openai_exhausted text key w e1 e2 e3 H1 H2 H3).
  eexists. split; [reflexivity|]. by split.
Qed.

End Fallback.

(** C9, where it fails. The key is a 32-bit hash of
    ["provider:text"], and the texts ["Aa"] and ["BB"] have the same hash
    for one provider. After [embed "Aa"], [embed "BB"] is a cache hit and
    returns the vector of ["Aa"] without any request, although the
    endpoint would have answered ["BB"] with another vector. *)
Theorem embed_cache_collision :
  Embeddings.hash "Aa" "gemini" = Embeddings.hash "BB" "gemini"
  /\ (let '(first, w1) :=
        @Embeddings.embed Sample.all_up (Sample.both_keys "gemini")
          "Aa" Sample.fresh in
      let '(second, w2) :=
        @Embeddings.embed Sample.all_up (Sample.both_keys "gemini")
          "BB" w1 in
      first = Ok {| embedding := [65; 2]%float;
                    provider := Some "gemini";
                    model := Some "text-embedding-004" |}
      /\ second = first
      /\ gemini_calls w1 = 1%nat
      /\ gemini_calls w2 = 1%nat
      /\ length (cache w2) = 1%nat)
  /\ @fetch_gemini Sample.all_up 1 "gemini-key" "BB"
     = HttpOk (Some [66; 2]%float).
Proof. vm_compute. repeat split; reflexivity. Qed.

(** ** What the embedder leaves alone *)

Lemma embedder_only_refl w : embedder_only w w.
Proof. by repeat split. Qed.

Lemma embedder_only_trans w1 w2 w3 :
  embedder_only w1 w2 -> embedder_only w2 w3 -> embedder_only w1 w3.
Proof.
  unfold embedder_only. intros (?&?&?&?&?&?&?) (?&?&?&?&?&?&?).
  repeat split; congruence.
Qed.

Create HintDb quiet.

Lemma quiet_ret {A} (a : A) : quiet (ret a).
Proof. intros w. apply embedder_only_refl. Qed.

Lemma quiet_throw {A} (e : string) : quiet (@throw A e).
Proof. intros w. apply embedder_only_refl. Qed.

Lemma quiet_get_world : quiet get_world.
Proof. intros w. apply embedder_only_refl. Qed.

Lemma quiet_bind {A B} (c : M A) (k : A -> M B) :
  quiet c -> (forall a, quiet (k a)) -> quiet (bind c k).
Proof.
  intros Hc Hk w. unfold bind. specialize (Hc w).
  destruct (c w) as [[a|e] w']; cbn [snd] in *; [|done].
  eapply embedder_only_trans; [exact Hc|apply Hk].
Qed.

Lemma quiet_try_catch {A} (c : M A) (h : string -> M A) :
  quiet c -> (forall e, quiet (h e)) -> quiet (try_catch c h).
Proof.
  intros Hc Hh w. unfold try_catch. specialize (Hc w).
  destruct (c w) as [[a|e] w']; cbn [snd] in *; [done|].
  eapply embedder_only_trans; [exact Hc|apply Hh].
Qed.

Lemma quiet_sleep ms : quiet (sleep ms).
Proof. intros w. by repeat split. Qed.

Lemma quiet_cache_get key : quiet (Embeddings.cache_get key).
Proof.
  intros w. unfold Embeddings.cache_get.
  destruct (Embeddings.map_get key (cache w)); by repeat split.
Qed.

Lemma quiet_cache_set key value : quiet (Embeddings.cache_set key value).
Proof. intros w. by repeat split. Qed.

Lemma quiet_count_gemini n : quiet (modify (set_gemini_calls n)).
Proof. intros w. by repeat split. Qed.

Lemma quiet_count_openai n : quiet (modify (set_openai_calls n)).
Proof. intros w. by repeat split. Qed.

#[local] Hint Resolve quiet_ret quiet_throw quiet_get_world quiet_sleep
  quiet_cache_get quiet_cache_set quiet_count_gemini quiet_count_openai
  : quiet.

Ltac quiet_step :=
  first
    [ apply quiet_bind; [|intros ?]
    | apply quiet_try_catch; [|intros ?]
    | progress auto with quiet
    | match goal with
      | |- quiet (match ?x with _ => _ end) => destruct x
      | |- quiet (if ?x then _ else _) => destruct x
      end ].

Lemma quiet_retry_loop {A} (fn : M A) (retries i remaining : nat) :
  quiet fn -> quiet (Embeddings.retry_loop fn retries i remaining).
Proof.
  intros Hfn. revert i.
  induction remaining as [|k IH]; intros i; cbn [Embeddings.retry_loop];
    repeat quiet_step.
Qed.

Section QuietEmbedder.

Context `{Collaborators}.

Lemma quiet_embedWithGemini text key :
  quiet (Embeddings.embedWithGemini text key).
Proof. unfold Embeddings.embedWithGemini. repeat quiet_step. Qed.

Lemma quiet_embedWithOpenAI text key :
  quiet (Embeddings.embedWithOpenAI text key).
Proof. unfold Embeddings.embedWithOpenAI. repeat quiet_step. Qed.

Lemma quiet_retry_gemini text key n :
  quiet (Embeddings.retryWithBackoff (Embeddings.embedWithGemini text key) n).
Proof. apply quiet_retry_loop, quiet_embedWithGemini. Qed.

Lemma quiet_retry_openai text key n :
  quiet (Embeddings.retryWithBackoff (Embeddings.embedWithOpenAI text key) n).
Proof. apply quiet_retry_loop, quiet_embedWithOpenAI. Qed.

#[local] Hint Resolve quiet_retry_gemini quiet_retry_openai : quiet.

Lemma quiet_embed_lookup p text : quiet (Embeddings.embed_lookup p text).
Proof. apply quiet_cache_get. Qed.

Lemma quiet_embed_fetch p text : quiet (Embeddings.embed_fetch p text).
Proof. unfold Embeddings.embed_fetch. repeat quiet_step. Qed.

Lemma quiet_embed p text : quiet (Embeddings.embed p text).
Proof.
  unfold Embeddings.embed. apply quiet_bind; [apply quiet_embed_lookup|].
  intros [r|]; [apply quiet_ret|apply quiet_embed_fetch].
Qed.

Lemma quiet_lookup_all p batch : quiet (Embeddings.lookup_all p batch).
Proof.
  induction batch as [|text rest IH]; cbn [Embeddings.lookup_all].
  - apply quiet_ret.
  - apply quiet_bind; [apply quiet_embed_lookup|intros ?].
    apply quiet_bind; [exact IH|intros ?]. apply quiet_ret.
Qed.

Lemma settle_all_only p started w :
  embedder_only w (Embeddings.settle_all p started w).2.
Proof.
  revert w. induction started as [|[text cached] rest IH]; intros w;
    cbn [Embeddings.settle_all]; [apply embedder_only_refl|].
  pose proof (quiet_embed_fetch p text w) as Hf.
  destruct cached as [r|].
  - specialize (IH w).
    destruct (Embeddings.settle_all p rest w) as [rs w2]. exact IH.
  - destruct (Embeddings.embed_fetch p text w) as [r w1]. cbn [snd] in Hf.
    specialize (IH w1).
    destruct (Embeddings.settle_all p rest w1) as [rs w2]. cbn [snd] in *.
    by eapply embedder_only_trans.
Qed.

Lemma quiet_promise_all_embed p batch :
  quiet (Embeddings.promise_all_embed p batch).
Proof.
  unfold Embeddings.promise_all_embed.
  apply quiet_bind; [apply quiet_lookup_all|].
  intros started w. pose proof (settle_all_only p started w) as Hs.
  by destruct (Embeddings.settle_all p started w).
Qed.

Lemma quiet_embedBatch_loop fuel p texts results :
  quiet (Embeddings.embedBatch_loop fuel p texts results).
Proof.
  revert texts results.
  induction fuel as [|fuel IH]; intros texts results;
    cbn [Embeddings.embedBatch_loop]; destruct texts as [|t texts];
    try apply quiet_ret.
  apply quiet_bind; [apply quiet_promise_all_embed|intros ?].
  apply quiet_bind; [|intros ?; apply IH].
  destruct (drop _ _); auto with quiet.
Qed.

Lemma quiet_embedBatch p texts : quiet (Embeddings.embedBatch p texts).
Proof. apply quiet_embedBatch_loop. Qed.

End QuietEmbedder.

(** ** The lock *)

Lemma set_lock_id (w : world) : set_lock (lock w) w = w.
Proof. by destruct w. Qed.

Lemma acquireLock_only_lock (r : Rag.t) (w w1 : world) (res : outcome unit) :
  Rag.acquireLock r w = (res, w1) -> w1 = set_lock (lock w1) w.
Proof.
  unfold Rag.acquireLock, bind, get_world, modify, throw, ret.
  destruct (Rag.isAsync r).
  - intros [= <- <-]. by rewrite set_lock_id.
  - destruct (lock w) as [stats|] eqn:Hlock.
    + destruct (clock w - Store.mtimeMs stats <? Rag.LOCK_TIMEOUT).
      * intros [= <- <-]. by rewrite set_lock_id.
      * intros [= <- <-]. reflexivity.
    + intros [= <- <-]. reflexivity.
Qed.

Lemma releaseLock_only_lock (r : Rag.t) (w : world) :
  Rag.releaseLock r w = set_lock (lock (Rag.releaseLock r w)) w.
Proof.
  unfold Rag.releaseLock. destruct (Rag.isAsync r); [by rewrite set_lock_id|].
  destruct w as [? ? ? ? [marker|] ? ? ? ? ? ?]; reflexivity.
Qed.

Section Ingestion.

Context `{Collaborators}.

Lemma ingest_after_lock r input o w w1 :
  Rag.acquireLock r w = (Ok tt, w1) ->
  Rag.ingest r input o w
  = (let '(res, w') := Rag.ingest_body r input o w1 in
     (res, Rag.releaseLock r w')).
Proof.
  intros Hacq. unfold Rag.ingest, bind, try_finally. by rewrite Hacq.
Qed.

Lemma sourceExists_pure url content w :
  exists found,
    Db.sourceExists url content w = (Ok found, w)
    /\ forall w', sources w' = sources w ->
                  Db.sourceExists url content w' = (Ok found, w').
Proof.
  unfold Db.sourceExists, bind, get_world, ret, Db.select_by_url,
    Db.select_by_hash.
  eexists. split; [reflexivity|]. intros w' ->. reflexivity.
Qed.

(** The body of [ingest] asks for one extraction, whatever comes next. *)
Lemma ingest_body_extracts_once r input o w :
  extract_calls (Rag.ingest_body r input o w).2 = S (extract_calls w).
Proof.
  unfold Rag.ingest_body, bind, Rag.call_extract.
  destruct (extract (extract_calls w) input (Rag.o_sourceType o)) as [x|e];
    [|reflexivity].
  destruct (sourceExists_pure (x_url x) (x_content x)
              (set_extract_calls (S (extract_calls w)) w))
    as (found & -> & _).
  destruct found as [existing|]; [reflexivity|].
  pose proof (quiet_embedBatch (Rag.embedder r)
                (map Chunker.content
                   (Chunker.createChunks (x_content x) (Rag.chunkOptions r)))
                (set_extract_calls (S (extract_calls w)) w))
    as (_ & _ & _ & _ & _ & Hx & _).
  destruct (Embeddings.embedBatch _ _ _) as [[results|e] w3];
    cbn [snd] in *; [|done].
  destruct (Rag.merge _ results) as [cwe|e]; cbn; done.
Qed.

End Ingestion.

(** ** Computations that do not look at the lock *)

Lemma lock_blind_ret {A} (a : A) : lock_blind (ret a).
Proof. by intros l w. Qed.

Lemma lock_blind_throw {A} (e : string) : lock_blind (@throw A e).
Proof. by intros l w. Qed.

Lemma lock_blind_bind {A B} (c : M A) (k : A -> M B) :
  lock_blind c -> (forall a, lock_blind (k a)) -> lock_blind (bind c k).
Proof.
  intros Hc Hk l w. unfold bind. rewrite Hc.
  destruct (c w) as [[a|e] w1]; [apply Hk|reflexivity].
Qed.

Lemma lock_blind_try_catch {A} (c : M A) (h : string -> M A) :
  lock_blind c -> (forall e, lock_blind (h e)) -> lock_blind (try_catch c h).
Proof.
  intros Hc Hh l w. unfold try_catch. rewrite Hc.
  destruct (c w) as [[a|e] w1]; [reflexivity|apply Hh].
Qed.

Lemma lock_blind_sleep ms : lock_blind (sleep ms).
Proof. by intros l w. Qed.

Lemma lock_blind_cache_get key : lock_blind (Embeddings.cache_get key).
Proof.
  intros l w. unfold Embeddings.cache_get. cbn [cache set_lock].
  by destruct (Embeddings.map_get key (cache w)).
Qed.

Lemma lock_blind_cache_set key value :
  lock_blind (Embeddings.cache_set key value).
Proof. by intros l w. Qed.

Lemma lock_blind_retry_loop {A} (fn : M A) retries i remaining :
  lock_blind fn -> lock_blind (Embeddings.retry_loop fn retries i remaining).
Proof.
  intros Hfn. revert i.
  induction remaining as [|remaining IH]; intros i;
    cbn [Embeddings.retry_loop]; [apply lock_blind_ret|].
  apply lock_blind_try_catch.
  - apply lock_blind_bind; [done|intros ?; apply lock_blind_ret].
  - intros e. destruct (decide (i = pred retries)); [apply lock_blind_throw|].
    apply lock_blind_bind; [apply lock_blind_sleep|intros ?; apply IH].
Qed.

Section LockBlind.

Context `{Collaborators}.

Lemma lock_blind_embedWithGemini text key :
  lock_blind (Embeddings.embedWithGemini text key).
Proof.
  intros l w. unfold Embeddings.embedWithGemini, bind, get_world, modify.
  cbn [gemini_calls set_lock].
  by destruct (fetch_gemini _ _ _).
Qed.

Lemma lock_blind_embedWithOpenAI text key :
  lock_blind (Embeddings.embedWithOpenAI text key).
Proof.
  intros l w. unfold Embeddings.embedWithOpenAI, bind, get_world, modify.
  cbn [openai_calls set_lock].
  by destruct (fetch_openai _ _ _).
Qed.

Lemma lock_blind_embed_fetch p text :
  lock_blind (Embeddings.embed_fetch p text).
Proof.
  unfold Embeddings.embed_fetch.
  apply lock_blind_bind.
  { destruct (Embeddings.key_of (Embeddings.geminiKey p));
      [|apply lock_blind_ret].
    destruct (decide _); [|apply lock_blind_ret].
    apply lock_blind_try_catch; [|intros ?; apply lock_blind_ret].
    apply lock_blind_bind; [|intros ?; apply lock_blind_ret].
    apply lock_blind_retry_loop, lock_blind_embedWithGemini. }
  intros a1. apply lock_blind_bind.
  { destruct (Embeddings.a_embedding a1); [apply lock_blind_ret|].
    destruct (Embeddings.key_of (Embeddings.openaiKey p));
      [|apply lock_blind_ret].
    apply lock_blind_bind; [|intros ?; apply lock_blind_ret].
    apply lock_blind_retry_loop, lock_blind_embedWithOpenAI. }
  intros a2. apply lock_blind_bind.
  { destruct (Embeddings.a_embedding a2); [apply lock_blind_ret|].
    destruct (Embeddings.key_of (Embeddings.geminiKey p));
      [|apply lock_blind_ret].
    destruct (decide _); [|apply lock_blind_ret].
    apply lock_blind_bind; [|intros ?; apply lock_blind_ret].
    apply lock_blind_retry_loop, lock_blind_embedWithGemini. }
  intros a3. destruct (Embeddings.a_embedding a3) as [[|x v]|];
    try apply lock_blind_throw.
  apply lock_blind_bind; [apply lock_blind_cache_set|].
  intros ?; apply lock_blind_ret.
Qed.

Lemma lock_blind_lookup_all p batch :
  lock_blind (Embeddings.lookup_all p batch).
Proof.
  induction batch as [|text rest IH]; cbn [Embeddings.lookup_all];
    [apply lock_blind_ret|].
  apply lock_blind_bind; [apply lock_blind_cache_get|intros ?].
  apply lock_blind_bind; [apply IH|intros ?; apply lock_blind_ret].
Qed.

Lemma settle_all_lock_blind p started l w :
  Embeddings.settle_all p started (set_lock l w)
  = (let '(rs, w') := Embeddings.settle_all p started w in
     (rs, set_lock l w')).
Proof.
  revert w. induction started as [|[text cached] rest IH]; intros w;
    cbn [Embeddings.settle_all]; [done|].
  destruct cached as [r|].
  - rewrite IH. by destruct (Embeddings.settle_all p rest w).
  - rewrite (lock_blind_embed_fetch p text l w).
    destruct (Embeddings.embed_fetch p text w) as [r w1].
    rewrite IH. by destruct (Embeddings.settle_all p rest w1).
Qed.

Lemma lock_blind_promise_all_embed p batch :
  lock_blind (Embeddings.promise_all_embed p batch).
Proof.
  unfold Embeddings.promise_all_embed.
  apply lock_blind_bind; [apply lock_blind_lookup_all|].
  intros started l w. rewrite settle_all_lock_blind.
  by destruct (Embeddings.settle_all p started w).
Qed.

Lemma lock_blind_embedBatch_loop fuel p texts results :
  lock_blind (Embeddings.embedBatch_loop fuel p texts results).
Proof.
  revert texts results.
  induction fuel as [|fuel IH]; intros texts results;
    cbn [Embeddings.embedBatch_loop]; destruct texts as [|t texts];
    try apply lock_blind_ret.
  apply lock_blind_bind; [apply lock_blind_promise_all_embed|intros ?].
  apply lock_blind_bind; [|intros ?; apply IH].
  destruct (drop _ _); [apply lock_blind_ret|apply lock_blind_sleep].
Qed.

Lemma lock_blind_embedBatch p texts :
  lock_blind (Embeddings.embedBatch p texts).
Proof. apply lock_blind_embedBatch_loop. Qed.

Lemma lock_blind_ingest_body r input o :
  lock_blind (Rag.ingest_body r input o).
Proof.
  unfold Rag.ingest_body.
  apply lock_blind_bind.
  { intros l w. unfold Rag.call_extract. reflexivity. }
  intros x. apply lock_blind_bind.
  { intros l w. reflexivity. }
  intros [existing|]; [apply lock_blind_ret|].
  apply lock_blind_bind; [apply lock_blind_embedBatch|intros embedResults].
  apply lock_blind_bind.
  { intros l w. by destruct (Rag.merge _ _). }
  intros cwe. apply lock_blind_bind.
  { intros l w. reflexivity. }
  intros sid. apply lock_blind_bind; [|intros ?; apply lock_blind_ret].
  intros l w. reflexivity.
Qed.

End LockBlind.

(** C8, as amended. On a coordinator that takes the lock (the local
    backend): when the marker exists and is younger than 15 minutes,
    [ingest] throws "Another ingestion is in progress" and the world is as
    before, nothing extracted, nothing written; when the marker is 15
    minutes old or older, it is replaced by a marker of this call, and
    [ingest] goes on exactly as if there had been no marker, extraction
    included. On a coordinator that does not (the Supabase backend),
    [acquireLock] and [releaseLock] do nothing: [ingest] is its body, it
    leaves the marker as it is, and whatever marker is in place, young or
    old or none, it does and answers the same. *)
Theorem ingest_lock_contention `{Collaborators} (r : Rag.t) (input : string)
    (o : Rag.ingest_options) (w : world) :
  (Rag.isAsync r = false ->
   forall marker,
     lock w = Some marker ->
     (clock w - Store.mtimeMs marker < Rag.LOCK_TIMEOUT ->
        Rag.ingest r input o w
        = (Throw "Another ingestion is in progress", w))
     /\ (Rag.LOCK_TIMEOUT <= clock w - Store.mtimeMs marker ->
         Rag.acquireLock r w
         = (Ok tt,
            set_lock (Some {| Store.mtimeMs := clock w;
                              Store.pid_text := pretty (Rag.pid r) |}) w)
         /\ Rag.ingest r input o w = Rag.ingest r input o (set_lock None w)
         /\ extract_calls (Rag.ingest r input o w).2 = S (extract_calls w)))
  /\ (Rag.isAsync r = true ->
      Rag.acquireLock r w = (Ok tt, w)
      /\ Rag.releaseLock r w = w
      /\ Rag.ingest r input o w = Rag.ingest_body r input o w
      /\ lock (Rag.ingest r input o w).2 = lock w
      /\ extract_calls (Rag.ingest r input o w).2 = S (extract_calls w)
      /\ forall marker : option Store.lock_file,
           Rag.ingest r input o (set_lock marker w)
           = (let '(res, w') := Rag.ingest r input o w in
              (res, set_lock marker w'))).
Proof.
  split.
  - intros Hlocal marker Hlock.
    assert (Hacq : Rag.LOCK_TIMEOUT <= clock w - Store.mtimeMs marker ->
              Rag.acquireLock r w
              = (Ok tt,
                 set_lock (Some {| Store.mtimeMs := clock w;
                                   Store.pid_text := pretty (Rag.pid r) |}) w)).
    { intros Hold. unfold Rag.acquireLock, bind, get_world, modify, throw, ret.
      rewrite Hlocal, Hlock.
      destruct (Z.ltb_spec (clock w - Store.mtimeMs marker) Rag.LOCK_TIMEOUT);
        [lia|]. by destruct w. }
    split.
    + intros Hyoung.
      unfold Rag.ingest, Rag.acquireLock, bind, get_world, throw.
      rewrite Hlocal, Hlock.
      by destruct (Z.ltb_spec (clock w - Store.mtimeMs marker)
                     Rag.LOCK_TIMEOUT); [|lia].
    + intros Hold. split; [by apply Hacq|].
      assert (Hnone : Rag.acquireLock r (set_lock None w)
                = (Ok tt,
                   set_lock (Some {| Store.mtimeMs := clock w;
                                     Store.pid_text := pretty (Rag.pid r) |})
                     w)).
      { unfold Rag.acquireLock, bind, get_world, modify, throw, ret.
        rewrite Hlocal. by destruct w. }
      rewrite (ingest_after_lock r input o w _ (Hacq Hold)).
      rewrite (ingest_after_lock r input o (set_lock None w) _ Hnone).
      split; [reflexivity|].
      pose proof (ingest_body_extracts_once r input o
                    (set_lock (Some {| Store.mtimeMs := clock w;
                                       Store.pid_text := pretty (Rag.pid r) |})
                       w)) as Hx.
      destruct (Rag.ingest_body r input o _) as [res w']. cbn [snd] in *.
      rewrite releaseLock_only_lock. exact Hx.
  - intros Hcloud.
    assert (Hbody : forall u,
              Rag.ingest r input o u = Rag.ingest_body r input o u).
    { intros u. unfold Rag.ingest, Rag.acquireLock, bind, try_finally, ret,
        Rag.releaseLock. rewrite Hcloud.
      by destruct (Rag.ingest_body r input o u). }
    split; [unfold Rag.acquireLock; by rewrite Hcloud|].
    split; [unfold Rag.releaseLock; by rewrite Hcloud|].
    split; [apply Hbody|].
    assert (Hblind : forall marker,
              Rag.ingest r input o (set_lock marker w)
              = (let '(res, w') := Rag.ingest r input o w in
                 (res, set_lock marker w'))).
    { intros marker. rewrite !Hbody. apply lock_blind_ingest_body. }
    split.
    { specialize (Hblind (lock w)). rewrite set_lock_id in Hblind.
      destruct (Rag.ingest r input o w) as [res w'].
      injection Hblind as Hw'. cbn [snd]. by rewrite Hw'. }
    split; [rewrite Hbody; apply ingest_body_extracts_once|].
    exact Hblind.
Qed.

Lemma sample_coordinators :
  @Rag.new Sample.drivers Sample.keys Sample.no_env 4242 = Ok Sample.local
  /\ @Rag.new Sample.drivers Sample.keys Sample.supabase_env 4242
     = Ok Sample.cloud.
Proof. split; reflexivity. Qed.

Lemma ingest_lock_contention_witness :
  Rag.isAsync Sample.local = false
  /\ @Rag.ingest Sample.all_up Sample.local Sample.a_note Sample.plain
       (set_lock (Some Sample.recent_marker) Sample.fresh)
     = (Throw "Another ingestion is in progress",
        set_lock (Some Sample.recent_marker) Sample.fresh)
  /\ extract_calls
       (@Rag.ingest Sample.all_up Sample.local Sample.a_note Sample.plain
          (set_lock (Some Sample.old_marker) Sample.fresh)).2
     = 1%nat
  /\ Rag.isAsync Sample.cloud = true
  /\ lock (@Rag.ingest Sample.all_up Sample.cloud Sample.a_note Sample.plain
             (set_lock (Some Sample.recent_marker) Sample.fresh)).2
     = Some Sample.recent_marker.
Proof.
  split; [reflexivity|].
  destruct (@ingest_lock_contention Sample.all_up Sample.local Sample.a_note
              Sample.plain (set_lock (Some Sample.recent_marker) Sample.fresh))
    as [Hlocal _].
  destruct (Hlocal eq_refl Sample.recent_marker eq_refl) as [Hyoung _].
  destruct (@ingest_lock_contention Sample.all_up Sample.local Sample.a_note
              Sample.plain (set_lock (Some Sample.old_marker) Sample.fresh))
    as [Hlocal' _].
  destruct (Hlocal' eq_refl Sample.old_marker eq_refl) as [_ Hold].
  destruct (@ingest_lock_contention Sample.all_up Sample.cloud Sample.a_note
              Sample.plain (set_lock (Some Sample.recent_marker) Sample.fresh))
    as [_ Hcloud].
  destruct (Hcloud eq_refl) as (_ & _ & _ & Hkept & _).
  split; [apply Hyoung; vm_compute; reflexivity|].
  split; [apply Hold; vm_compute; discriminate|].
  split; [reflexivity|].
  exact Hkept.
Defined.

(** C8, as stated, fails on the Supabase backend: with a marker one
    minute old in place, [ingest] does not throw; it extracts, embeds and
    stores the note, and leaves the marker where it was. *)
Lemma ingest_ignores_marker_on_supabase :
  let w := set_lock (Some Sample.recent_marker) Sample.fresh in
  let '(res, w') :=
    @Rag.ingest Sample.all_up Sample.cloud Sample.a_note Sample.plain w in
  @Rag.new Sample.drivers Sample.keys Sample.supabase_env 4242
  = Ok Sample.cloud
  /\ lock w = Some Sample.recent_marker
  /\ clock w - Store.mtimeMs Sample.recent_marker < Rag.LOCK_TIMEOUT
  /\ res = Ok (Rag.success 1 Sample.a_note "text" 1 "supabase")
  /\ extract_calls w' = 1%nat
  /\ length (sources w') = 1%nat
  /\ lock w' = Some Sample.recent_marker.
Proof. vm_compute. repeat split; reflexivity. Qed.

(** ** Duplicates *)

Lemma find_first {A} (f : A -> bool) (l : list A) (x : A) :
  x ∈ l -> f x = true -> exists y, find f l = Some y /\ y ∈ l /\ f y = true.
Proof.
  induction l as [|a l IH]; [by intros ?%elem_of_nil|].
  intros Hx Hf. cbn [find]. destruct (f a) eqn:Ha.
  - exists a. split; [done|]. split; [left|done].
  - apply elem_of_cons in Hx as [->|Hx]; [congruence|].
    destruct (IH Hx Hf) as (y & Hy & Hin & Hfy).
    exists y. split; [done|]. split; [by right|done].
Qed.

Lemma find_found {A} (f : A -> bool) (l : list A) (y : A) :
  find f l = Some y -> y ∈ l /\ f y = true.
Proof.
  induction l as [|a l IH]; [done|]. cbn [find]. destruct (f a) eqn:Ha.
  - intros [= <-]. split; [left|done].
  - intros Hy. destruct (IH Hy). split; [by right|done].
Qed.

Lemma truthy_toLowerCase s : Js.truthy (Js.toLowerCase s) = Js.truthy s.
Proof. by destruct s. Qed.

Lemma truthy_app_r a b : Js.truthy b = true -> Js.truthy (a +:+ b) = true.
Proof. destruct a; [done|]. reflexivity. Qed.

Lemma truthy_app_l a b : Js.truthy a = true -> Js.truthy (a +:+ b) = true.
Proof. by destruct a. Qed.

(** A normalized URL is never the empty string. *)
Lemma normalizeUrl_truthy (url : option string) (n : string) :
  Db.normalizeUrl url = Some n -> Js.truthy n = true.
Proof.
  unfold Db.normalizeUrl. destruct url as [u|]; [|done].
  destruct (Js.truthy u) eqn:Hu; [|done]. cbn [negb].
  destruct (Url.parse u) as [parsed|].
  - intros [= <-]. rewrite truthy_toLowerCase.
    apply truthy_app_l. unfold Url.origin.
    apply truthy_app_r, truthy_app_l. reflexivity.
  - intros [= <-]. by rewrite truthy_toLowerCase.
Qed.

Section Duplicates.

Context `{Collaborators}.


End Duplicates.



(** ** Embedding before persisting *)

Lemma all_settled_length {A} (rs : list (outcome A)) (l : list A) :
  Embeddings.all_settled rs = Ok l -> length l = length rs.
Proof.
  revert l. induction rs as [|[a|e] rs IH]; intros l; cbn.
  - by intros [= <-].
  - destruct (Embeddings.all_settled rs) as [l'|]; [|done].
    intros [= <-]. cbn. f_equal. by apply IH.
  - done.
Qed.

(** The batch rejects as soon as one of its calls has thrown. *)
Lemma all_settled_throws {A} (rs : list (outcome A)) (e : string) :
  Throw e ∈ rs -> exists e', Embeddings.all_settled rs = Throw e'.
Proof.
  induction rs as [|[a|e0] rs IH]; [by intros ?%elem_of_nil| |].
  - intros [[=]|Hin]%elem_of_cons. cbn.
    destruct (IH Hin) as [e' ->]. by exists e'.
  - intros _. by exists e0.
Qed.

Lemma all_settled_imap {A B} (f : nat -> A -> outcome B) (g : nat -> A -> B)
    (l : list A) :
  (forall i x, l !! i = Some x -> f i x = Ok (g i x)) ->
  Embeddings.all_settled (imap f l) = Ok (imap g l).
Proof.
  revert f g. induction l as [|a l IH]; intros f g Hfg; [done|].
  rewrite !imap_cons. cbn [Embeddings.all_settled].
  rewrite (Hfg 0%nat a eq_refl).
  rewrite (IH (f ∘ S) (g ∘ S)); [done|].
  intros i x Hi. apply (Hfg (S i) x Hi).
Qed.

Lemma merged_imap (pieces : list Chunker.chunk) (embedResults : list embed_result) :
  length embedResults = length pieces ->
  merged pieces embedResults
  = imap (fun i chunk =>
            match embedResults !! i with
            | Some e => {| Db.e_chunk := chunk; Db.e_embedding := embedding e;
                           Db.e_provider := provider e; Db.e_model := model e |}
            | None => {| Db.e_chunk := chunk; Db.e_embedding := [];
                         Db.e_provider := None; Db.e_model := None |}
            end) pieces.
Proof.
  revert embedResults.
  induction pieces as [|c pieces IH]; intros [|e er] Hlen; try discriminate;
    [done|].
  unfold merged in *. cbn [zip_with]. rewrite imap_cons. cbn [lookup list_lookup].
  f_equal. rewrite IH by (by injection Hlen). reflexivity.
Qed.

Section Batches.

Context `{Collaborators}.

Lemma lookup_all_ok p batch w :
  exists started w',
    Embeddings.lookup_all p batch w = (Ok started, w')
    /\ length started = length batch.
Proof.
  revert w. induction batch as [|text rest IH]; intros w;
    cbn [Embeddings.lookup_all].
  - by exists [], w.
  - unfold bind, Embeddings.embed_lookup, Embeddings.cache_get.
    destruct (Embeddings.map_get _ (cache w)) as [value|].
    + destruct (IH (set_cache
                      (Embeddings.map_set
                         (Embeddings.hash text (Embeddings.preferredProvider p))
                         value
                         (Embeddings.map_delete
                            (Embeddings.hash text (Embeddings.preferredProvider p))
                            (cache w))) w))
        as (started & w' & -> & Hlen).
      eexists _, w'. split; [reflexivity|]. cbn. by rewrite Hlen.
    + destruct (IH w) as (started & w' & -> & Hlen).
      eexists _, w'. split; [reflexivity|]. cbn. by rewrite Hlen.
Qed.

Lemma settle_all_length p started w :
  length (Embeddings.settle_all p started w).1 = length started.
Proof.
  revert w. induction started as [|[text cached] rest IH]; intros w;
    cbn [Embeddings.settle_all]; [done|].
  destruct cached as [r|].
  - specialize (IH w). destruct (Embeddings.settle_all p rest w).
    cbn in *. by rewrite IH.
  - destruct (Embeddings.embed_fetch p text w) as [r w1].
    specialize (IH w1). destruct (Embeddings.settle_all p rest w1).
    cbn in *. by rewrite IH.
Qed.

Lemma promise_all_embed_length p batch w rs w' :
  Embeddings.promise_all_embed p batch w = (Ok rs, w') ->
  length rs = length batch.
Proof.
  unfold Embeddings.promise_all_embed, bind.
  destruct (lookup_all_ok p batch w) as (started & w1 & -> & Hlen).
  pose proof (settle_all_length p started w1) as Hs.
  destruct (Embeddings.settle_all p started w1) as [settled w2].
  cbn [fst] in Hs. intros [= Hall <-].
  apply all_settled_length in Hall. congruence.
Qed.

Lemma embedBatch_loop_length fuel p texts results w rs w' :
  (length texts <= fuel)%nat ->
  Embeddings.embedBatch_loop fuel p texts results w = (Ok rs, w') ->
  length rs = (length results + length texts)%nat.
Proof.
  revert texts results w.
  induction fuel as [|fuel IH]; intros texts results w Hfuel;
    cbn [Embeddings.embedBatch_loop]; destruct texts as [|t texts];
    cbn [length] in Hfuel; try lia.
  - intros [= <- <-]. cbn. lia.
  - intros [= <- <-]. cbn. lia.
  - unfold bind.
    destruct (Embeddings.promise_all_embed p _ w) as [[batchResults|e] w1]
      eqn:Hbatch; [|done].
    apply promise_all_embed_length in Hbatch.
    set (rest := drop Embeddings.BATCH_SIZE (t :: texts)) in *.
    assert (Hrest : (length rest <= fuel)%nat).
    { subst rest. rewrite length_drop. unfold Embeddings.BATCH_SIZE.
      cbn [length]. lia. }
    assert (Hsplit : (length (take Embeddings.BATCH_SIZE (t :: texts))
                      + length rest = length (t :: texts))%nat).
    { subst rest. rewrite length_take, length_drop.
      unfold Embeddings.BATCH_SIZE. lia. }
    destruct (match rest with [] => ret tt | _ :: _ => sleep Embeddings.BATCH_DELAY end w1)
      as [[[]|e] w2] eqn:Hpause.
    + intros Hloop. apply IH in Hloop; [|done].
      rewrite Hloop, length_app, Hbatch. cbn [length] in Hsplit. cbn [length]. lia.
    + destruct rest; discriminate.
Qed.

(** [embedBatch] answers with one result for each text. *)
Lemma embedBatch_length p texts w rs w' :
  Embeddings.embedBatch p texts w = (Ok rs, w') -> length rs = length texts.
Proof. intros Hb. by apply embedBatch_loop_length in Hb. Qed.

Lemma merge_ok (pieces : list Chunker.chunk) (embedResults : list embed_result) :
  length embedResults = length pieces ->
  Rag.merge pieces embedResults = Ok (merged pieces embedResults).
Proof.
  intros Hlen. unfold Rag.merge. rewrite merged_imap by done.
  apply all_settled_imap. intros i x Hi.
  destruct (embedResults !! i) eqn:He; [done|].
  apply lookup_ge_None in He. apply lookup_lt_Some in Hi. lia.
Qed.

End Batches.

(** ** Ingesting the same content twice *)

Lemma find_app_last {A} (f : A -> bool) (l : list A) (x : A) :
  find f l = None -> f x = true -> find f (l ++ [x]) = Some x.
Proof.
  induction l as [|a l IH]; cbn [find app]; intros Hnone Hx.
  - by rewrite Hx.
  - destruct (f a); [done|]. by apply IH.
Qed.

Section Twice.

Context `{Collaborators}.



End Twice.

Section CacheFacts.

Context {V : Type}.

Implicit Types (m : list (string * V)) (k : string) (v : V).

Lemma map_get_None k m : Embeddings.map_get k m = None <-> k ∉ m.*1.
Proof.
  induction m as [|[k0 v0] m IH]; cbn.
  - split; [intros _; apply not_elem_of_nil|done].
  - rewrite not_elem_of_cons. destruct (decide (k0 = k)) as [->|Hne].
    + split; [done|]. by intros [? _].
    + rewrite IH. split; [intros ?; split; congruence|by intros [_ ?]].
Qed.

Lemma map_get_set_eq k v m :
  Embeddings.map_get k (Embeddings.map_set k v m) = Some v.
Proof.
  induction m as [|[k0 v0] m IH]; cbn.
  - by rewrite decide_True.
  - destruct (decide (k0 = k)) as [->|Hne]; cbn.
    + by rewrite decide_True.
    + by rewrite decide_False.
Qed.

Lemma map_get_set_ne k k' v m :
  k <> k' ->
  Embeddings.map_get k' (Embeddings.map_set k v m) = Embeddings.map_get k' m.
Proof.
  intros Hne. induction m as [|[k0 v0] m IH]; cbn.
  - by rewrite decide_False.
  - destruct (decide (k0 = k)) as [->|Hne0]; cbn.
    + by rewrite !decide_False.
    + destruct (decide (k0 = k')); [done|exact IH].
Qed.

Lemma map_get_delete_ne k k' m :
  k <> k' ->
  Embeddings.map_get k' (Embeddings.map_delete k m) = Embeddings.map_get k' m.
Proof.
  intros Hne. induction m as [|[k0 v0] m IH]; cbn; [done|].
  destruct (decide (k0 = k)) as [->|Hne0]; cbn.
  - by rewrite decide_False.
  - destruct (decide (k0 = k')); [done|exact IH].
Qed.

Lemma map_delete_keys k m :
  (Embeddings.map_delete k m).*1 = filter (fun k0 => k0 <> k) m.*1.
Proof.
  induction m as [|[k0 v0] m IH]; [done|].
  cbn [Embeddings.map_delete]. rewrite fmap_cons, filter_cons. cbn [fst].
  destruct (decide (k0 = k)) as [->|Hne].
  - by rewrite decide_False by (by intros ?).
  - rewrite decide_True by done. rewrite fmap_cons. cbn [fst]. by rewrite IH.
Qed.

Lemma map_delete_absent k m : k ∉ m.*1 -> Embeddings.map_delete k m = m.
Proof.
  induction m as [|[k0 v0] m IH]; cbn; [done|].
  rewrite not_elem_of_cons. intros [Hne Hin].
  rewrite decide_False by done. by rewrite IH.
Qed.

Lemma map_set_absent k v m :
  k ∉ m.*1 -> Embeddings.map_set k v m = m ++ [(k, v)].
Proof.
  induction m as [|[k0 v0] m IH]; cbn; [done|].
  rewrite not_elem_of_cons. intros [Hne Hin].
  rewrite decide_False by done. by rewrite IH.
Qed.

Lemma map_delete_present k v l1 l2 :
  NoDup (l1 ++ (k, v) :: l2).*1 ->
  Embeddings.map_delete k (l1 ++ (k, v) :: l2) = l1 ++ l2.
Proof.
  rewrite fmap_app, fmap_cons. cbn. intros Hnd.
  apply NoDup_app in Hnd as (_ & Hl1 & Hnd).
  apply NoDup_cons in Hnd as [Hl2 _].
  assert (Hk1 : k ∉ l1.*1).
  { intros Hin. apply (Hl1 k Hin). left. }
  clear Hl1. induction l1 as [|[k0 v0] l1 IH]; cbn.
  - rewrite decide_True by done. by apply map_delete_absent.
  - cbn in Hk1. rewrite not_elem_of_cons in Hk1. destruct Hk1 as [Hne Hk1].
    rewrite decide_False by done. by rewrite IH.
Qed.

Lemma map_set_keys k v m :
  (Embeddings.map_set k v m).*1
  = if decide (k ∈ m.*1) then m.*1 else m.*1 ++ [k].
Proof.
  induction m as [|[k0 v0] m IH]; cbn.
  - rewrite decide_False by apply not_elem_of_nil. done.
  - destruct (decide (k0 = k)) as [->|Hne]; cbn.
    + rewrite decide_True by left. done.
    + rewrite IH. destruct (decide (k ∈ m.*1)) as [Hin|Hout].
      * rewrite decide_True by (by right). done.
      * rewrite decide_False; [done|].
        rewrite not_elem_of_cons. split; [congruence|done].
Qed.

Lemma map_set_NoDup k v m : NoDup m.*1 -> NoDup (Embeddings.map_set k v m).*1.
Proof.
  intros Hnd. rewrite map_set_keys. destruct (decide (k ∈ m.*1)); [done|].
  apply NoDup_app. split; [done|]. split; [|apply NoDup_singleton].
  intros x Hx ->%list_elem_of_singleton. done.
Qed.

Lemma map_set_length k v m :
  (length (Embeddings.map_set k v m) <= S (length m))%nat.
Proof.
  rewrite <- (length_fmap fst), map_set_keys.
  destruct (decide _); rewrite ?length_app, !length_fmap; cbn; lia.
Qed.

Lemma map_delete_NoDup k m : NoDup m.*1 -> NoDup (Embeddings.map_delete k m).*1.
Proof. intros Hnd. rewrite map_delete_keys. by apply NoDup_filter. Qed.

Lemma map_delete_length k m :
  (length (Embeddings.map_delete k m) <= length m)%nat.
Proof.
  rewrite <- (length_fmap fst), map_delete_keys, <- (length_fmap fst m).
  apply length_filter.
Qed.

Lemma map_delete_length_present k m :
  k ∈ m.*1 -> (S (length (Embeddings.map_delete k m)) <= length m)%nat.
Proof.
  induction m as [|[k0 v0] m IH]; cbn; [by intros ?%elem_of_nil|].
  destruct (decide (k0 = k)) as [->|Hne].
  - intros _. pose proof (map_delete_length k m). lia.
  - intros [?|Hin]%elem_of_cons; [congruence|]. cbn. specialize (IH Hin). lia.
Qed.

Lemma map_get_present k v l1 l2 :
  k ∉ l1.*1 -> Embeddings.map_get k (l1 ++ (k, v) :: l2) = Some v.
Proof.
  induction l1 as [|[k0 v0] l1 IH]; cbn.
  - by rewrite decide_True.
  - rewrite not_elem_of_cons. intros [Hne Hk].
    rewrite decide_False by done. by apply IH.
Qed.

End CacheFacts.

Lemma bind_Ok_inv {A B} (c : M A) (k : A -> M B) w b w' :
  bind c k w = (Ok b, w') ->
  exists a w1, c w = (Ok a, w1) /\ k a w1 = (Ok b, w').
Proof.
  unfold bind. destruct (c w) as [[a|e] w1]; [|done]. intros Hk. by exists a, w1.
Qed.

Lemma full_cache_keys : NoDup Sample.full_cache.*1 /\ length Sample.full_cache = 1000%nat.
Proof.
  unfold Sample.full_cache. split.
  - rewrite <- list_fmap_compose. apply NoDup_fmap_2; [|apply NoDup_seq].
    intros i j Hij. cbn in Hij. apply (inj pretty) in Hij. lia.
  - by rewrite length_fmap, length_seq.
Qed.

(** X1. What [set] stores under a key, [get] returns under that key; and a
    key that was absent before is still absent afterwards. *)
Theorem cache_set_then_get (key : string) (value : embed_result) (w : world) :
  let w1 := (Embeddings.cache_set key value w).2 in
  (Embeddings.cache_get key w1).1 = Ok (Some value)
  /\ (forall other, other <> key ->
        Embeddings.map_get other (cache w) = None ->
        Embeddings.cache_get other w1 = (Ok None, w1)).
Proof.
  cbn zeta. unfold Embeddings.cache_set, Embeddings.cache_get, modify.
  cbn [snd cache set_cache]. split.
  - by rewrite map_get_set_eq.
  - intros other Hne Hmiss. rewrite map_get_set_ne by done.
    destruct (_ >=? _).
    + destruct (cache w) as [|[k0 v0] c]; [done|].
      destruct (decide (k0 = other)) as [->|Hne0].
      * cbn in Hmiss. by rewrite decide_True in Hmiss.
      * rewrite map_get_delete_ne by done. by rewrite Hmiss.
    + by rewrite Hmiss.
Qed.

Lemma keeps_cache_set key value : keeps_cache (Embeddings.cache_set key value).
Proof.
  intros w [Hnd Hlen].
  unfold Embeddings.cache_set, modify. cbn [snd cache set_cache].
  destruct (Z.geb_spec (Z.of_nat (length (cache w))) Embeddings.CACHE_MAX_SIZE)
    as [Hfull|Hroom].
  - destruct (cache w) as [|[k0 v0] c] eqn:Hc.
    + split; [apply NoDup_singleton|cbn; unfold Embeddings.CACHE_MAX_SIZE; lia].
    + split; [by apply map_set_NoDup, map_delete_NoDup|].
      pose proof (map_set_length key value
                    (Embeddings.map_delete k0 ((k0, v0) :: c))).
      pose proof (map_delete_length_present k0 ((k0, v0) :: c)
                    ltac:(left)). lia.
  - split; [by apply map_set_NoDup|].
    pose proof (map_set_length key value (cache w)). lia.
Qed.

Lemma keeps_cache_get key : keeps_cache (Embeddings.cache_get key).
Proof.
  intros w [Hnd Hlen]. unfold Embeddings.cache_get.
  destruct (Embeddings.map_get key (cache w)) as [v|] eqn:Hget;
    cbn [snd cache set_cache]; [|done].
  split; [by apply map_set_NoDup, map_delete_NoDup|].
  assert (Hin : key ∈ (cache w).*1).
  { destruct (decide (key ∈ (cache w).*1)) as [|Hout]; [done|].
    apply map_get_None in Hout. congruence. }
  pose proof (map_set_length key v (Embeddings.map_delete key (cache w))).
  pose proof (map_delete_length_present key (cache w) Hin). lia.
Qed.

Lemma keeps_cache_ret {A} (a : A) : keeps_cache (ret a).
Proof. by intros w. Qed.

Lemma keeps_cache_throw {A} (e : string) : keeps_cache (@throw A e).
Proof. by intros w. Qed.

Lemma keeps_cache_bind {A B} (c : M A) (k : A -> M B) :
  keeps_cache c -> (forall a, keeps_cache (k a)) -> keeps_cache (bind c k).
Proof.
  intros Hc Hk w Hw. unfold bind. specialize (Hc w Hw).
  destruct (c w) as [[a|e] w']; cbn [snd] in *; [|done]. by apply Hk.
Qed.

Lemma keeps_cache_try_catch {A} (c : M A) (h : string -> M A) :
  keeps_cache c -> (forall e, keeps_cache (h e)) -> keeps_cache (try_catch c h).
Proof.
  intros Hc Hh w Hw. unfold try_catch. specialize (Hc w Hw).
  destruct (c w) as [[a|e] w']; cbn [snd] in *; [done|]. by apply Hh.
Qed.

Lemma keeps_cache_sleep ms : keeps_cache (sleep ms).
Proof. by intros w. Qed.

Lemma keeps_cache_retry_loop {A} (fn : M A) (retries i remaining : nat) :
  keeps_cache fn -> keeps_cache (Embeddings.retry_loop fn retries i remaining).
Proof.
  intros Hfn. revert i.
  induction remaining as [|k IH]; intros i; cbn [Embeddings.retry_loop].
  - apply keeps_cache_ret.
  - apply keeps_cache_try_catch.
    + apply keeps_cache_bind; [exact Hfn|intros a; apply keeps_cache_ret].
    + intros e. destruct (decide (i = pred retries)); [apply keeps_cache_throw|].
      apply keeps_cache_bind; [apply keeps_cache_sleep|intros _; apply IH].
Qed.

Section CacheInvariant.

Context `{Collaborators}.

Lemma keeps_cache_embedWithGemini text key :
  keeps_cache (Embeddings.embedWithGemini text key).
Proof.
  intros w Hw. unfold Embeddings.embedWithGemini, bind, get_world, modify.
  by destruct (fetch_gemini _ _ _).
Qed.

Lemma keeps_cache_embedWithOpenAI text key :
  keeps_cache (Embeddings.embedWithOpenAI text key).
Proof.
  intros w Hw. unfold Embeddings.embedWithOpenAI, bind, get_world, modify.
  by destruct (fetch_openai _ _ _).
Qed.

Lemma keeps_cache_embed_fetch p text :
  keeps_cache (Embeddings.embed_fetch p text).
Proof.
  assert (Hg : forall key (a : option (list float) -> Embeddings.attempt),
             keeps_cache
               (do e <- Embeddings.retryWithBackoff
                          (Embeddings.embedWithGemini text key)
                          Embeddings.MAX_RETRIES;
                ret (a e))).
  { intros key a. apply keeps_cache_bind; [|intros ?; apply keeps_cache_ret].
    apply keeps_cache_retry_loop, keeps_cache_embedWithGemini. }
  assert (Ho : forall key (a : option (list float) -> Embeddings.attempt),
             keeps_cache
               (do e <- Embeddings.retryWithBackoff
                          (Embeddings.embedWithOpenAI text key)
                          Embeddings.MAX_RETRIES;
                ret (a e))).
  { intros key a. apply keeps_cache_bind; [|intros ?; apply keeps_cache_ret].
    apply keeps_cache_retry_loop, keeps_cache_embedWithOpenAI. }
  unfold Embeddings.embed_fetch.
  apply keeps_cache_bind.
  { destruct (Embeddings.key_of _); [|apply keeps_cache_ret].
    destruct (decide _); [|apply keeps_cache_ret].
    apply keeps_cache_try_catch; [|intros _; apply keeps_cache_ret].
    apply (Hg _ (fun e => {| Embeddings.a_embedding := e;
                             Embeddings.a_provider := _;
                             Embeddings.a_model := _ |})). }
  intros a1. apply keeps_cache_bind.
  { destruct (Embeddings.a_embedding a1); [apply keeps_cache_ret|].
    destruct (Embeddings.key_of _); [|apply keeps_cache_ret].
    apply (Ho _ (fun e => {| Embeddings.a_embedding := e;
                             Embeddings.a_provider := _;
                             Embeddings.a_model := _ |})). }
  intros a2. apply keeps_cache_bind.
  { destruct (Embeddings.a_embedding a2); [apply keeps_cache_ret|].
    destruct (Embeddings.key_of _); [|apply keeps_cache_ret].
    destruct (decide _); [|apply keeps_cache_ret].
    apply (Hg _ (fun e => {| Embeddings.a_embedding := e;
                             Embeddings.a_provider := _;
                             Embeddings.a_model := _ |})). }
  intros a3. destruct (Embeddings.a_embedding a3) as [[|x e]|];
    try apply keeps_cache_throw.
  apply keeps_cache_bind; [apply keeps_cache_set|intros ?; apply keeps_cache_ret].
Qed.

Lemma keeps_cache_embed p text : keeps_cache (Embeddings.embed p text).
Proof.
  unfold Embeddings.embed.
  apply keeps_cache_bind; [apply keeps_cache_get|].
  intros [r|]; [apply keeps_cache_ret|apply keeps_cache_embed_fetch].
Qed.

Lemma keeps_cache_lookup_all p batch :
  keeps_cache (Embeddings.lookup_all p batch).
Proof.
  induction batch as [|text rest IH]; cbn [Embeddings.lookup_all].
  - apply keeps_cache_ret.
  - apply keeps_cache_bind; [apply keeps_cache_get|intros ?].
    apply keeps_cache_bind; [exact IH|intros ?]. apply keeps_cache_ret.
Qed.

Lemma settle_all_keeps_cache p started w :
  cache_ok (cache w) -> cache_ok (cache (Embeddings.settle_all p started w).2).
Proof.
  revert w. induction started as [|[text cached] rest IH]; intros w Hw;
    cbn [Embeddings.settle_all]; [done|].
  pose proof (keeps_cache_embed_fetch p text w Hw) as Hf.
  destruct cached as [r|].
  - specialize (IH w Hw).
    destruct (Embeddings.settle_all p rest w) as [rs w2]. exact IH.
  - destruct (Embeddings.embed_fetch p text w) as [r w1]. cbn [snd] in Hf.
    specialize (IH w1 Hf).
    by destruct (Embeddings.settle_all p rest w1) as [rs w2].
Qed.

Lemma keeps_cache_promise_all_embed p batch :
  keeps_cache (Embeddings.promise_all_embed p batch).
Proof.
  unfold Embeddings.promise_all_embed.
  apply keeps_cache_bind; [apply keeps_cache_lookup_all|].
  intros started w Hw. pose proof (settle_all_keeps_cache p started w Hw) as Hs.
  by destruct (Embeddings.settle_all p started w).
Qed.

Lemma keeps_cache_embedBatch_loop fuel p texts results :
  keeps_cache (Embeddings.embedBatch_loop fuel p texts results).
Proof.
  revert texts results.
  induction fuel as [|fuel IH]; intros texts results;
    cbn [Embeddings.embedBatch_loop]; destruct texts as [|t texts];
    try apply keeps_cache_ret.
  apply keeps_cache_bind; [apply keeps_cache_promise_all_embed|intros ?].
  apply keeps_cache_bind; [|intros ?; apply IH].
  destruct (drop _ _); [apply keeps_cache_ret|apply keeps_cache_sleep].
Qed.

(** X2. The cache stays well formed: never two entries under one key, never
    more than 1000 entries, whatever is looked up, stored or embedded. *)
Theorem cache_stays_within_capacity (p : Embeddings.provider_state) :
  (forall key value, keeps_cache (Embeddings.cache_set key value))
  /\ (forall key, keeps_cache (Embeddings.cache_get key))
  /\ (forall text, keeps_cache (Embeddings.embed p text))
  /\ (forall texts, keeps_cache (Embeddings.embedBatch p texts)).
Proof.
  split; [apply keeps_cache_set|]. split; [apply keeps_cache_get|].
  split; [apply keeps_cache_embed|].
  intros texts. apply keeps_cache_embedBatch_loop.
Qed.

End CacheInvariant.

Lemma cache_stays_within_capacity_witness :
  cache_ok Sample.full_cache
  /\ cache_ok
       (cache (@Embeddings.embed Sample.all_up (Sample.both_keys "gemini")
                 "hello" (set_cache Sample.full_cache Sample.fresh)).2).
Proof.
  assert (Hok : cache_ok Sample.full_cache).
  { destruct full_cache_keys as [Hnd Hlen]. split; [done|].
    rewrite Hlen. unfold Embeddings.CACHE_MAX_SIZE. lia. }
  split; [exact Hok|].
  exact (proj1 (proj2 (proj2 (@cache_stays_within_capacity Sample.all_up
                                (Sample.both_keys "gemini"))))
           "hello" (set_cache Sample.full_cache Sample.fresh) Hok).
Defined.

(** X3. Storing under a new key appends the entry as the most recent one;
    when the cache is full (1000 entries) the oldest entry, the first, is
    removed before, and only that one. *)
Theorem cache_set_evicts_least_recent (key : string) (value : embed_result)
    (w : world) :
  NoDup (cache w).*1 ->
  key ∉ (cache w).*1 ->
  cache (Embeddings.cache_set key value w).2
  = (if Z.of_nat (length (cache w)) <? Embeddings.CACHE_MAX_SIZE
     then cache w
     else tail (cache w)) ++ [(key, value)].
Proof.
  intros Hnd Hnew. unfold Embeddings.cache_set, modify.
  cbn [snd cache set_cache]. rewrite Z.geb_leb, Z.ltb_antisym.
  destruct (Embeddings.CACHE_MAX_SIZE <=? Z.of_nat (length (cache w)));
    cbn [negb]; [|by apply map_set_absent].
  destruct (cache w) as [|[k0 v0] c]; [done|]. cbn [tail].
  rewrite fmap_cons in Hnd, Hnew. cbn [fst] in *.
  apply NoDup_cons in Hnd as [Hk0 Hnd].
  apply not_elem_of_cons in Hnew as [Hne Hnew].
  cbn [Embeddings.map_delete]. rewrite decide_True by done.
  rewrite map_delete_absent by done. by apply map_set_absent.
Qed.

Lemma cache_set_evicts_least_recent_witness :
  Embeddings.map_get "0" Sample.full_cache <> None
  /\ Embeddings.map_get "0"
       (cache (Embeddings.cache_set "new"
                 Sample.hello
                 (set_cache Sample.full_cache Sample.fresh)).2) = None
  /\ length (cache (Embeddings.cache_set "new"
                 Sample.hello
                 (set_cache Sample.full_cache Sample.fresh)).2) = 1000%nat.
Proof.
  destruct full_cache_keys as [Hnd Hlen].
  assert (Hnew : "new" ∉ Sample.full_cache.*1).
  { apply (bool_decide_eq_true_1 _). vm_compute. reflexivity. }
  pose proof (cache_set_evicts_least_recent "new"
                Sample.hello
                (set_cache Sample.full_cache Sample.fresh) Hnd Hnew) as Hev.
  split; [vm_compute; discriminate|].
  rewrite Hev. split; vm_compute; reflexivity.
Defined.

(** X4. A hit of [get] returns the stored value and moves its entry to the
    end, the place of the most recently used; the other entries keep their
    order. *)
Theorem cache_get_refreshes (key : string) (value : embed_result)
    (older newer : list (string * embed_result)) (w : world) :
  cache w = older ++ (key, value) :: newer ->
  NoDup (cache w).*1 ->
  Embeddings.cache_get key w
  = (Ok (Some value), set_cache (older ++ newer ++ [(key, value)]) w).
Proof.
  intros Hc Hnd. unfold Embeddings.cache_get. rewrite Hc in *.
  assert (Hget : Embeddings.map_get key (older ++ (key, value) :: newer)
                 = Some value).
  { apply map_get_present.
    rewrite fmap_app, fmap_cons in Hnd. cbn [fst] in Hnd.
    apply NoDup_app in Hnd as (_ & Hold & _).
    intros Hin. apply (Hold key Hin). left. }
  rewrite Hget, (map_delete_present key value older newer Hnd).
  rewrite map_set_absent; [by rewrite <- app_assoc|].
  rewrite fmap_app, fmap_cons in Hnd. cbn [fst] in Hnd.
  apply NoDup_app in Hnd as (_ & Hold & Hnd).
  apply NoDup_cons in Hnd as [Hnew _].
  rewrite fmap_app, elem_of_app. intros [Hin|Hin]; [|done].
  apply (Hold key Hin). left.
Qed.

Lemma cache_get_refreshes_witness :
  Embeddings.cache_get "a"
    (set_cache [("a", Sample.hello); ("b", Sample.hello)] Sample.fresh)
  = (Ok (Some Sample.hello),
     set_cache [("b", Sample.hello); ("a", Sample.hello)] Sample.fresh).
Proof.
  apply (cache_get_refreshes "a" Sample.hello [] [("b", Sample.hello)]
           (set_cache [("a", Sample.hello); ("b", Sample.hello)] Sample.fresh)).
  - reflexivity.
  - apply (bool_decide_eq_true_1 _). vm_compute. reflexivity.
Defined.

(** ** Embedding: cache, fallback and requests *)

Section EmbedFacts.

Context `{Collaborators}.

Lemma embed_fetch_caches p text w r w' :
  Embeddings.embed_fetch p text w = (Ok r, w') ->
  Embeddings.map_get
    (Embeddings.hash text (Embeddings.preferredProvider p)) (cache w')
  = Some r.
Proof.
  unfold Embeddings.embed_fetch. intros Hf.
  apply bind_Ok_inv in Hf as (a1 & w1 & _ & Hf).
  apply bind_Ok_inv in Hf as (a2 & w2 & _ & Hf).
  apply bind_Ok_inv in Hf as (a3 & w3 & _ & Hf).
  destruct (Embeddings.a_embedding a3) as [[|x e]|]; try done.
  unfold bind, Embeddings.cache_set, modify, ret in Hf.
  injection Hf as <- <-. cbn [cache set_cache]. apply map_get_set_eq.
Qed.

(** X5. A successful [embed] leaves its result in the cache, and asking again
    returns it without a request and without a pause. *)
Theorem embed_result_is_cached (p : Embeddings.provider_state)
    (text : string) (w w' : world) (r : embed_result) :
  Embeddings.embed p text w = (Ok r, w') ->
  Embeddings.map_get
    (Embeddings.hash text (Embeddings.preferredProvider p)) (cache w')
  = Some r
  /\ exists w'',
       Embeddings.embed p text w' = (Ok r, w'')
       /\ gemini_calls w'' = gemini_calls w'
       /\ openai_calls w'' = openai_calls w'
       /\ clock w'' = clock w'.
Proof.
  intros He.
  assert (Hhit : Embeddings.map_get
                   (Embeddings.hash text (Embeddings.preferredProvider p))
                   (cache w') = Some r).
  { revert He. unfold Embeddings.embed, Embeddings.embed_lookup,
      Embeddings.cache_get, bind.
    destruct (Embeddings.map_get _ (cache w)) as [v|] eqn:Hget.
    - unfold ret. intros [= <- <-]. cbn [cache set_cache].
      apply map_get_set_eq.
    - apply embed_fetch_caches. }
  split; [exact Hhit|].
  unfold Embeddings.embed, Embeddings.embed_lookup, Embeddings.cache_get,
    bind, ret.
  rewrite Hhit. eexists. split; [reflexivity|]. by repeat split.
Qed.

(** X6. Without any key [embed] sends nothing and fails. *)
Theorem embed_without_keys (p : Embeddings.provider_state) (text : string)
    (w : world) :
  Embeddings.key_of (Embeddings.geminiKey p) = None ->
  Embeddings.key_of (Embeddings.openaiKey p) = None ->
  Embeddings.map_get
    (Embeddings.hash text (Embeddings.preferredProvider p)) (cache w) = None ->
  Embeddings.embed p text w
  = (Throw "No embedding provider available or all providers failed", w).
Proof.
  intros Hg Ho Hmiss.
  unfold Embeddings.embed, Embeddings.embed_lookup, Embeddings.cache_get,
    Embeddings.embed_fetch, bind.
  by rewrite Hmiss, Hg, Ho.
Qed.

Lemma embedWithGemini_throws text key w n e :
  gemini_calls w = n ->
  failure "Gemini"
    (fetch_gemini n key (Js.slice0 Embeddings.MAX_INPUT_CHARS text))
  = Some e ->
  Embeddings.embedWithGemini text key w = (Throw e, set_gemini_calls (S n) w).
Proof.
  intros <-.
  unfold Embeddings.embedWithGemini, bind, get_world, modify, throw, ret.
  destruct (fetch_gemini _ _ _); cbn; intros [= <-]; reflexivity.
Qed.

Lemma retry_gemini_exhausted text key w e1 e2 e3 :
  let sent := Js.slice0 Embeddings.MAX_INPUT_CHARS text in
  failure "Gemini" (fetch_gemini (gemini_calls w) key sent) = Some e1 ->
  failure "Gemini" (fetch_gemini (S (gemini_calls w)) key sent) = Some e2 ->
  failure "Gemini" (fetch_gemini (S (S (gemini_calls w))) key sent) = Some e3 ->
  Embeddings.retryWithBackoff (Embeddings.embedWithGemini text key)
    Embeddings.MAX_RETRIES w
  = (Throw e3,
     set_gemini_calls (S (S (S (gemini_calls w))))
       (set_clock (clock w + 1000 + 2000) w)).
Proof.
  intros sent H1 H2 H3.
  unfold Embeddings.retryWithBackoff, Embeddings.MAX_RETRIES.
  cbn [Embeddings.retry_loop]. unfold try_catch at 1. unfold bind at 1.
  rewrite (embedWithGemini_throws text key w _ e1 eq_refl H1).
  rewrite (decide_False (P := 0%nat = Init.Nat.pred 3)) by done.
  change (Embeddings.retry_delay 0) with 1000.
  unfold bind at 1. unfold sleep at 1, modify at 1.
  unfold try_catch at 1. unfold bind at 1.
  erewrite (embedWithGemini_throws text key _ (S (gemini_calls w)) e2);
    [|reflexivity|exact H2].
  rewrite (decide_False (P := 1%nat = Init.Nat.pred 3)) by done.
  change (Embeddings.retry_delay 1) with 2000.
  unfold bind at 1. unfold sleep at 1, modify at 1.
  unfold try_catch at 1. unfold bind at 1.
  erewrite (embedWithGemini_throws text key _ (S (S (gemini_calls w))) e3);
    [|reflexivity|exact H3].
  rewrite (decide_True (P := 2%nat = Init.Nat.pred 3)) by done.
  unfold throw. by destruct w.
Qed.

(** X7. Gemini preferred and failing three times, OpenAI answering with a
    vector: the result is OpenAI's, under OpenAI's model, and it is cached
    under the key of the preferred provider. *)
Theorem embed_falls_back_to_openai (p : Embeddings.provider_state)
    (text : string) (w : world) (gkey okey e1 e2 e3 : string)
    (x : float) (v : list float) :
  Embeddings.preferredProvider p = "gemini" ->
  Embeddings.key_of (Embeddings.geminiKey p) = Some gkey ->
  Embeddings.key_of (Embeddings.openaiKey p) = Some okey ->
  Embeddings.map_get (Embeddings.hash text "gemini") (cache w) = None ->
  let sent := Js.slice0 Embeddings.MAX_INPUT_CHARS text in
  failure "Gemini" (fetch_gemini (gemini_calls w) gkey sent) = Some e1 ->
  failure "Gemini" (fetch_gemini (S (gemini_calls w)) gkey sent) = Some e2 ->
  failure "Gemini" (fetch_gemini (S (S (gemini_calls w))) gkey sent) = Some e3 ->
  fetch_openai (openai_calls w) okey sent = HttpOk (Some (x :: v)) ->
  let result := {| embedding := x :: v;
                   provider := Some "openai";
                   model := Some "text-embedding-3-small" |} in
  exists w',
    Embeddings.embed p text w = (Ok result, w')
    /\ gemini_calls w' = (gemini_calls w + 3)%nat
    /\ openai_calls w' = S (openai_calls w)
    /\ clock w' = clock w + 3000
    /\ Embeddings.map_get (Embeddings.hash text "gemini") (cache w')
       = Some result.
Proof.
  intros Hpref Hg Ho Hmiss sent H1 H2 H3 Hopen result.
  unfold Embeddings.embed, Embeddings.embed_lookup, Embeddings.cache_get.
  unfold bind at 1. rewrite Hpref, Hmiss.
  unfold Embeddings.embed_fetch. rewrite Hpref, Hg, Ho.
  rewrite (decide_True (P := "gemini" = "gemini")) by done.
  unfold bind at 1. unfold try_catch at 1. unfold bind at 1.
  rewrite (retry_gemini_exhausted text gkey w e1 e2 e3 H1 H2 H3).
  unfold ret at 1. cbn [Embeddings.a_embedding Embeddings.nothing_yet].
  unfold bind at 1, bind at 1.
  unfold Embeddings.retryWithBackoff, Embeddings.MAX_RETRIES.
  cbn [Embeddings.retry_loop]. unfold try_catch at 1. unfold bind at 1.
  unfold Embeddings.embedWithOpenAI at 1.
  unfold bind at 1, get_world at 1. unfold bind at 1, modify at 1.
  cbn [openai_calls set_gemini_calls set_clock].
  fold sent. rewrite Hopen. cbn [default].
  unfold ret at 1, ret at 1, ret at 1. cbn [Embeddings.a_embedding].
  unfold bind at 1, ret at 1. cbn [Embeddings.a_embedding].
  unfold bind, Embeddings.cache_set, modify, ret.
  eexists. split; [reflexivity|].
  cbn [gemini_calls openai_calls clock cache set_cache set_gemini_calls
         set_openai_calls set_clock].
  repeat split; [lia|lia|apply map_get_set_eq].
Qed.

(** X8. A reply of Gemini without a vector is taken as its answer: [embed]
    fails at once and OpenAI is not asked. *)
Theorem embed_empty_answer_is_final (p : Embeddings.provider_state)
    (text : string) (w : world) (key : string) (values : option (list float)) :
  Embeddings.preferredProvider p = "gemini" ->
  Embeddings.key_of (Embeddings.geminiKey p) = Some key ->
  Embeddings.map_get (Embeddings.hash text "gemini") (cache w) = None ->
  fetch_gemini (gemini_calls w) key (Js.slice0 Embeddings.MAX_INPUT_CHARS text)
  = HttpOk values ->
  default [] values = [] ->
  Embeddings.embed p text w
  = (Throw "No embedding provider available or all providers failed",
     set_gemini_calls (S (gemini_calls w)) w).
Proof.
  intros Hpref Hg Hmiss Hreply Hempty.
  unfold Embeddings.embed, Embeddings.embed_lookup, Embeddings.cache_get.
  unfold bind at 1. rewrite Hpref, Hmiss.
  unfold Embeddings.embed_fetch. rewrite Hpref, Hg.
  rewrite (decide_True (P := "gemini" = "gemini")) by done.
  unfold bind at 1. unfold try_catch at 1. unfold bind at 1.
  unfold Embeddings.retryWithBackoff, Embeddings.MAX_RETRIES.
  cbn [Embeddings.retry_loop]. unfold try_catch at 1. unfold bind at 1.
  unfold Embeddings.embedWithGemini at 1.
  unfold bind at 1, get_world at 1. unfold bind at 1, modify at 1.
  rewrite Hreply, Hempty.
  unfold ret at 1, ret at 1, ret at 1. cbn [Embeddings.a_embedding].
  unfold bind at 1.
  destruct (Embeddings.key_of (Embeddings.openaiKey p)); unfold ret at 1;
    unfold bind at 1; unfold ret at 1; cbn [Embeddings.a_embedding];
    reflexivity.
Qed.

End EmbedFacts.

Lemma embed_result_is_cached_witness :
  exists w',
    @Embeddings.embed Sample.all_up (Sample.both_keys "gemini") "hello"
      (@Embeddings.embed Sample.all_up (Sample.both_keys "gemini") "hello"
         Sample.fresh).2
    = (Ok Sample.hello, w')
    /\ gemini_calls w' = 1%nat.
Proof.
  destruct (@embed_result_is_cached Sample.all_up (Sample.both_keys "gemini")
              "hello" Sample.fresh _ Sample.hello eq_refl)
    as (_ & w'' & Hagain & Hg & _).
  exists w''. split; [exact Hagain|]. rewrite Hg. reflexivity.
Defined.

Lemma embed_without_keys_witness :
  @Embeddings.embed Sample.all_up
    {| Embeddings.geminiKey := None; Embeddings.openaiKey := Some "";
       Embeddings.preferredProvider := "gemini" |} "hello" Sample.fresh
  = (Throw "No embedding provider available or all providers failed",
     Sample.fresh).
Proof.
  apply (@embed_without_keys Sample.all_up); reflexivity.
Defined.

Lemma embed_falls_back_to_openai_witness :
  exists w',
    @Embeddings.embed Sample.gemini_down (Sample.both_keys "gemini") "hello"
      Sample.fresh
    = (Ok {| embedding := [104; 5]%float;
             provider := Some "openai";
             model := Some "text-embedding-3-small" |}, w')
    /\ gemini_calls w' = 3%nat
    /\ openai_calls w' = 1%nat
    /\ clock w' = 1700000003000.
Proof.
  destruct (@embed_falls_back_to_openai Sample.gemini_down
              (Sample.both_keys "gemini") "hello" Sample.fresh
              "gemini-key" "openai-key"
              "Gemini API error: 503 - Service Unavailable"
              "Gemini API error: 503 - Service Unavailable"
              "Gemini API error: 503 - Service Unavailable"
              104%float [5%float]
              eq_refl eq_refl eq_refl eq_refl eq_refl eq_refl eq_refl eq_refl)
    as (w' & He & Hg & Ho & Hc & _).
  exists w'. split; [exact He|]. rewrite Hg, Ho, Hc.
  repeat split; reflexivity.
Defined.

Lemma embed_empty_answer_is_final_witness :
  @Embeddings.embed Sample.gemini_blank (Sample.both_keys "gemini") "hello"
    Sample.fresh
  = (Throw "No embedding provider available or all providers failed",
     set_gemini_calls 1 Sample.fresh).
Proof.
  apply (@embed_empty_answer_is_final Sample.gemini_blank
           (Sample.both_keys "gemini") "hello" Sample.fresh "gemini-key" None);
    reflexivity.
Defined.

(** ** Counting requests *)

Lemma sends_weaken {A} (g o g' o' : nat) (c : M A) :
  (g <= g')%nat -> (o <= o')%nat -> sends g o c -> sends g' o' c.
Proof. intros Hg Ho Hc w. specialize (Hc w). lia. Qed.

Lemma sends_ret {A} (a : A) : sends 0 0 (ret a).
Proof. intros w. cbn. lia. Qed.

Lemma sends_throw {A} (e : string) : sends 0 0 (@throw A e).
Proof. intros w. cbn. lia. Qed.

Lemma sends_bind {A B} (g1 o1 g2 o2 : nat) (c : M A) (k : A -> M B) :
  sends g1 o1 c -> (forall a, sends g2 o2 (k a)) ->
  sends (g1 + g2) (o1 + o2) (bind c k).
Proof.
  intros Hc Hk w. unfold bind. specialize (Hc w).
  destruct (c w) as [[a|e] w']; cbn [snd] in *; [|lia].
  specialize (Hk a w'). lia.
Qed.

Lemma sends_try_catch {A} (g1 o1 g2 o2 : nat) (c : M A) (h : string -> M A) :
  sends g1 o1 c -> (forall e, sends g2 o2 (h e)) ->
  sends (g1 + g2) (o1 + o2) (try_catch c h).
Proof.
  intros Hc Hh w. unfold try_catch. specialize (Hc w).
  destruct (c w) as [[a|e] w']; cbn [snd] in *; [lia|].
  specialize (Hh e w'). lia.
Qed.

Lemma sends_sleep ms : sends 0 0 (sleep ms).
Proof. intros w. cbn. lia. Qed.

Lemma sends_cache_get key : sends 0 0 (Embeddings.cache_get key).
Proof.
  intros w. unfold Embeddings.cache_get.
  destruct (Embeddings.map_get key (cache w)); cbn; lia.
Qed.

Lemma sends_cache_set key value : sends 0 0 (Embeddings.cache_set key value).
Proof. intros w. cbn. lia. Qed.

Lemma sends_retry_loop {A} (g o : nat) (fn : M A) (retries i remaining : nat) :
  sends g o fn ->
  sends (remaining * g) (remaining * o)
    (Embeddings.retry_loop fn retries i remaining).
Proof.
  intros Hfn. revert i.
  induction remaining as [|k IH]; intros i; cbn [Embeddings.retry_loop].
  - apply sends_ret.
  - apply (sends_weaken (g + 0 + (0 + k * g)) (o + 0 + (0 + k * o)));
      [lia|lia|].
    apply sends_try_catch.
    + apply sends_bind; [exact Hfn|intros a; apply sends_ret].
    + intros e. destruct (decide (i = pred retries)).
      * apply (sends_weaken 0 0); [lia|lia|apply sends_throw].
      * apply sends_bind; [apply sends_sleep|intros _; apply IH].
Qed.

Ltac sends_nothing :=
  apply (sends_weaken 0 0); [lia..|first [apply sends_ret|apply sends_throw]].

Section Requests.

Context `{Collaborators}.

Lemma sends_embedWithGemini text key :
  sends 1 0 (Embeddings.embedWithGemini text key).
Proof.
  intros w. unfold Embeddings.embedWithGemini, bind, get_world, modify.
  destruct (fetch_gemini _ _ _); cbn; lia.
Qed.

Lemma sends_embedWithOpenAI text key :
  sends 0 1 (Embeddings.embedWithOpenAI text key).
Proof.
  intros w. unfold Embeddings.embedWithOpenAI, bind, get_world, modify.
  destruct (fetch_openai _ _ _); cbn; lia.
Qed.

Lemma sends_retry_gemini text key :
  sends 3 0 (Embeddings.retryWithBackoff (Embeddings.embedWithGemini text key)
               Embeddings.MAX_RETRIES).
Proof.
  apply (sends_retry_loop 1 0 _ 3 0 3), sends_embedWithGemini.
Qed.

Lemma sends_retry_openai text key :
  sends 0 3 (Embeddings.retryWithBackoff (Embeddings.embedWithOpenAI text key)
               Embeddings.MAX_RETRIES).
Proof.
  apply (sends_retry_loop 0 1 _ 3 0 3), sends_embedWithOpenAI.
Qed.

Lemma sends_embed_fetch p text : sends 3 3 (Embeddings.embed_fetch p text).
Proof.
  unfold Embeddings.embed_fetch.
  destruct (decide (Embeddings.preferredProvider p = "gemini")) as [Hg|Hg].
  - (* the last resort is not for this provider *)
    assert (Hno : Embeddings.preferredProvider p <> "openai") by congruence.
    apply (sends_bind 3 0 0 3).
    { destruct (Embeddings.key_of _); [|sends_nothing].
      apply (sends_try_catch 3 0 0 0).
      - apply (sends_bind 3 0 0 0); [apply sends_retry_gemini|intros ?; apply sends_ret].
      - intros _. apply sends_ret. }
    intros a1. apply (sends_bind 0 3 0 0).
    { destruct (Embeddings.a_embedding a1); [sends_nothing|].
      destruct (Embeddings.key_of _); [|sends_nothing].
      apply (sends_bind 0 3 0 0); [apply sends_retry_openai|intros ?; apply sends_ret]. }
    intros a2. apply (sends_bind 0 0 0 0).
    { destruct (Embeddings.a_embedding a2); [sends_nothing|].
      destruct (Embeddings.key_of _); [|sends_nothing].
      destruct (decide _) as [?|_]; [congruence|apply sends_ret]. }
    intros a3. destruct (Embeddings.a_embedding a3) as [[|x e]|];
      try apply sends_throw.
    apply (sends_bind 0 0 0 0); [apply sends_cache_set|intros ?; apply sends_ret].
  - apply (sends_bind 0 0 3 3).
    { destruct (Embeddings.key_of _); apply sends_ret. }
    intros a1. apply (sends_bind 0 3 3 0).
    { destruct (Embeddings.a_embedding a1); [sends_nothing|].
      destruct (Embeddings.key_of _); [|sends_nothing].
      apply (sends_bind 0 3 0 0); [apply sends_retry_openai|intros ?; apply sends_ret]. }
    intros a2. apply (sends_bind 3 0 0 0).
    { destruct (Embeddings.a_embedding a2); [sends_nothing|].
      destruct (Embeddings.key_of _); [|sends_nothing].
      destruct (decide _); [|sends_nothing].
      apply (sends_bind 3 0 0 0); [apply sends_retry_gemini|intros ?; apply sends_ret]. }
    intros a3. destruct (Embeddings.a_embedding a3) as [[|x e]|];
      try apply sends_throw.
    apply (sends_bind 0 0 0 0); [apply sends_cache_set|intros ?; apply sends_ret].
Qed.

Lemma sends_embed p text : sends 3 3 (Embeddings.embed p text).
Proof.
  unfold Embeddings.embed.
  apply (sends_bind 0 0 3 3); [apply sends_cache_get|].
  intros [r|]; [|apply sends_embed_fetch].
  apply (sends_weaken 0 0); [lia..|apply sends_ret].
Qed.

Lemma sends_lookup_all p batch : sends 0 0 (Embeddings.lookup_all p batch).
Proof.
  induction batch as [|text rest IH]; cbn [Embeddings.lookup_all].
  - apply sends_ret.
  - apply (sends_bind 0 0 0 0); [apply sends_cache_get|intros ?].
    apply (sends_bind 0 0 0 0); [exact IH|intros ?]. apply sends_ret.
Qed.

Lemma settle_all_sends p started w :
  (gemini_calls w <= gemini_calls (Embeddings.settle_all p started w).2
   <= gemini_calls w + 3 * length started)%nat
  /\ (openai_calls w <= openai_calls (Embeddings.settle_all p started w).2
      <= openai_calls w + 3 * length started)%nat.
Proof.
  revert w. induction started as [|[text cached] rest IH]; intros w;
    cbn [Embeddings.settle_all length]; [cbn; lia|].
  pose proof (sends_embed_fetch p text w) as Hf.
  destruct cached as [r|].
  - specialize (IH w).
    destruct (Embeddings.settle_all p rest w) as [rs w2]. cbn [snd] in *. lia.
  - destruct (Embeddings.embed_fetch p text w) as [r w1]. cbn [snd] in Hf.
    specialize (IH w1).
    destruct (Embeddings.settle_all p rest w1) as [rs w2]. cbn [snd] in *.
    lia.
Qed.

Lemma lookup_all_length p batch w started w' :
  Embeddings.lookup_all p batch w = (Ok started, w') ->
  length started = length batch.
Proof.
  revert w started w'.
  induction batch as [|text rest IH]; intros w started w';
    cbn [Embeddings.lookup_all].
  - by intros [= <- _].
  - intros Hb. apply bind_Ok_inv in Hb as (c & w1 & _ & Hb).
    apply bind_Ok_inv in Hb as (others & w2 & Hrest & Hb).
    injection Hb as <- _. cbn. f_equal. by eapply IH.
Qed.

Lemma sends_promise_all_embed p batch :
  sends (3 * length batch) (3 * length batch)
    (Embeddings.promise_all_embed p batch).
Proof.
  intros w. unfold Embeddings.promise_all_embed, bind.
  pose proof (sends_lookup_all p batch w) as Hl.
  destruct (Embeddings.lookup_all p batch w) as [[started|e] w1] eqn:Hb;
    cbn [snd] in *; [|lia].
  pose proof (lookup_all_length _ _ _ _ _ Hb) as Hlen.
  pose proof (settle_all_sends p started w1) as Hs.
  destruct (Embeddings.settle_all p started w1) as [rs w2]. cbn [snd] in *.
  lia.
Qed.

Lemma sends_embedBatch_loop fuel p texts results :
  sends (3 * length texts) (3 * length texts)
    (Embeddings.embedBatch_loop fuel p texts results).
Proof.
  revert texts results.
  induction fuel as [|fuel IH]; intros texts results;
    cbn [Embeddings.embedBatch_loop]; destruct texts as [|t texts];
    try (apply (sends_weaken 0 0); [lia..|apply sends_ret]).
  set (all := t :: texts).
  apply (sends_weaken
           (3 * length (take Embeddings.BATCH_SIZE all)
            + (0 + 3 * length (drop Embeddings.BATCH_SIZE all)))
           (3 * length (take Embeddings.BATCH_SIZE all)
            + (0 + 3 * length (drop Embeddings.BATCH_SIZE all)))).
  1,2: rewrite <- (take_drop Embeddings.BATCH_SIZE all) at 3;
       rewrite length_app; lia.
  apply sends_bind; [apply sends_promise_all_embed|intros ?].
  apply sends_bind; [|intros ?; apply IH].
  destruct (drop _ _); [apply sends_ret|apply sends_sleep].
Qed.

(** X9. One call of [embed] sends at most three requests to each endpoint,
    and [embedBatch] at most three per text. *)
Theorem embed_sends_at_most_three (p : Embeddings.provider_state) :
  (forall text, sends 3 3 (Embeddings.embed p text))
  /\ (forall texts,
        sends (3 * length texts) (3 * length texts)
          (Embeddings.embedBatch p texts)).
Proof.
  split; [apply sends_embed|]. intros texts. apply sends_embedBatch_loop.
Qed.

End Requests.

(** ** Ingestion is all or nothing *)

Lemma map_get_delete_None {V} key k (m : list (string * V)) :
  Embeddings.map_get key m = None ->
  Embeddings.map_get key (Embeddings.map_delete k m) = None.
Proof.
  induction m as [|[k0 v0] m IH]; cbn; [done|].
  destruct (decide (k0 = key)); [done|]. intros Hm.
  destruct (decide (k0 = k)); cbn; [by apply IH|].
  rewrite decide_False by done. by apply IH.
Qed.

Lemma map_get_set_None {V} key k (v : V) (m : list (string * V)) :
  k <> key ->
  Embeddings.map_get key m = None ->
  Embeddings.map_get key (Embeddings.map_set k v m) = None.
Proof.
  intros Hne. induction m as [|[k0 v0] m IH]; cbn.
  - by rewrite decide_False.
  - destruct (decide (k0 = key)); [done|]. intros Hm.
    destruct (decide (k0 = k)); cbn; rewrite decide_False by congruence;
      [done|by apply IH].
Qed.

Lemma Forall_fst {A B} (P : A -> Prop) (l : list (A * B)) :
  Forall P l.*1 -> Forall (fun '(a, _) => P a) l.
Proof.
  induction l as [|[a b] l IH]; cbn; intros Hl; [constructor|].
  apply Forall_cons in Hl as [Ha Hl]. constructor; [done|by apply IH].
Qed.

Lemma no_fewer_requests_refl w : no_fewer_requests w w.
Proof. split; lia. Qed.

Lemma no_fewer_requests_after {A} (g o : nat) (c : M A) w u :
  sends g o c -> no_fewer_requests w u -> no_fewer_requests w (c u).2.
Proof. intros Hc [Hg Ho]. specialize (Hc u). split; lia. Qed.

(** *** What is put into the cache *)

Lemma keeps_absent_ret key {A} (a : A) : keeps_absent key (ret a).
Proof. by intros u. Qed.

Lemma keeps_absent_throw key {A} (e : string) : keeps_absent key (@throw A e).
Proof. by intros u. Qed.

Lemma keeps_absent_bind key {A B} (c : M A) (k : A -> M B) :
  keeps_absent key c -> (forall a, keeps_absent key (k a)) ->
  keeps_absent key (bind c k).
Proof.
  intros Hc Hk u Hu. unfold bind. specialize (Hc u Hu).
  destruct (c u) as [[a|e] u1]; [by apply Hk|done].
Qed.

Lemma keeps_absent_try_catch key {A} (c : M A) (h : string -> M A) :
  keeps_absent key c -> (forall e, keeps_absent key (h e)) ->
  keeps_absent key (try_catch c h).
Proof.
  intros Hc Hh u Hu. unfold try_catch. specialize (Hc u Hu).
  destruct (c u) as [[a|e] u1]; [done|by apply Hh].
Qed.

Lemma keeps_absent_sleep key ms : keeps_absent key (sleep ms).
Proof. by intros u. Qed.

Lemma keeps_absent_cache_get key k : keeps_absent key (Embeddings.cache_get k).
Proof.
  intros u Hu. unfold Embeddings.cache_get.
  destruct (Embeddings.map_get k (cache u)) as [v|] eqn:Hk; [|done].
  cbn [snd cache set_cache].
  apply map_get_set_None.
  - intros ->. rewrite Hu in Hk. discriminate.
  - by apply map_get_delete_None.
Qed.

Lemma keeps_absent_cache_set key k v :
  k <> key -> keeps_absent key (Embeddings.cache_set k v).
Proof.
  intros Hne u Hu. unfold Embeddings.cache_set, modify.
  cbn [snd cache set_cache]. apply map_get_set_None; [done|].
  destruct (_ >=? _); [|done].
  destruct (cache u) as [|[firstKey v0] m]; [done|].
  by apply map_get_delete_None.
Qed.

Lemma keeps_absent_retry_loop key {A} (fn : M A) retries i remaining :
  keeps_absent key fn ->
  keeps_absent key (Embeddings.retry_loop fn retries i remaining).
Proof.
  intros Hfn. revert i.
  induction remaining as [|remaining IH]; intros i;
    cbn [Embeddings.retry_loop]; [apply keeps_absent_ret|].
  apply keeps_absent_try_catch.
  - apply keeps_absent_bind; [done|intros ?; apply keeps_absent_ret].
  - intros e. destruct (decide (i = pred retries));
      [apply keeps_absent_throw|].
    apply keeps_absent_bind; [apply keeps_absent_sleep|intros ?; apply IH].
Qed.

(** *** What does not look into the cache *)

Lemma cache_apart_refl w : cache_apart w w.
Proof. by destruct w. Qed.

Lemma cache_deaf_ret {A} (a : A) : cache_deaf (ret a).
Proof. by intros w1 w2 Hw. Qed.

Lemma cache_deaf_throw {A} (e : string) : cache_deaf (@throw A e).
Proof. by intros w1 w2 Hw. Qed.

Lemma cache_deaf_bind {A B} (c : M A) (k : A -> M B) :
  cache_deaf c -> (forall a, cache_deaf (k a)) -> cache_deaf (bind c k).
Proof.
  intros Hc Hk w1 w2 Hw. unfold bind. destruct (Hc w1 w2 Hw) as [H1 H2].
  destruct (c w1) as [[a1|e1] u1], (c w2) as [[a2|e2] u2];
    cbn [fst snd] in *; try done.
  - injection H1 as ->. by apply Hk.
  - by injection H1 as ->.
Qed.

Lemma cache_deaf_try_catch {A} (c : M A) (h : string -> M A) :
  cache_deaf c -> (forall e, cache_deaf (h e)) -> cache_deaf (try_catch c h).
Proof.
  intros Hc Hh w1 w2 Hw. unfold try_catch. destruct (Hc w1 w2 Hw) as [H1 H2].
  destruct (c w1) as [[a1|e1] u1], (c w2) as [[a2|e2] u2];
    cbn [fst snd] in *; try done.
  injection H1 as ->. by apply Hh.
Qed.

Lemma cache_deaf_sleep ms : cache_deaf (sleep ms).
Proof.
  intros w1 w2 Hw. split; [done|]. unfold sleep, modify, cache_apart in *.
  cbn [snd]. rewrite Hw. reflexivity.
Qed.

Lemma cache_deaf_cache_set k v : cache_deaf (Embeddings.cache_set k v).
Proof.
  intros w1 w2 Hw. split; [done|].
  unfold Embeddings.cache_set, modify, cache_apart in *.
  cbn [snd]. rewrite Hw. reflexivity.
Qed.

Lemma cache_deaf_retry_loop {A} (fn : M A) retries i remaining :
  cache_deaf fn -> cache_deaf (Embeddings.retry_loop fn retries i remaining).
Proof.
  intros Hfn. revert i.
  induction remaining as [|remaining IH]; intros i;
    cbn [Embeddings.retry_loop]; [apply cache_deaf_ret|].
  apply cache_deaf_try_catch.
  - apply cache_deaf_bind; [done|intros ?; apply cache_deaf_ret].
  - intros e. destruct (decide (i = pred retries)); [apply cache_deaf_throw|].
    apply cache_deaf_bind; [apply cache_deaf_sleep|intros ?; apply IH].
Qed.

Section AllOrNothing.

Context `{Collaborators}.

Variable p : Embeddings.provider_state.

(** The cache key of a text. *)
#[local] Abbreviation key_of_text text :=
  (Embeddings.hash text (Embeddings.preferredProvider p)).

Lemma keeps_absent_embedWithGemini key text apiKey :
  keeps_absent key (Embeddings.embedWithGemini text apiKey).
Proof.
  intros u Hu. unfold Embeddings.embedWithGemini, bind, get_world, modify.
  by destruct (fetch_gemini _ _ _).
Qed.

Lemma keeps_absent_embedWithOpenAI key text apiKey :
  keeps_absent key (Embeddings.embedWithOpenAI text apiKey).
Proof.
  intros u Hu. unfold Embeddings.embedWithOpenAI, bind, get_world, modify.
  by destruct (fetch_openai _ _ _).
Qed.

Lemma keeps_absent_embed_fetch key text :
  key_of_text text <> key ->
  keeps_absent key (Embeddings.embed_fetch p text).
Proof.
  intros Hne. unfold Embeddings.embed_fetch.
  apply keeps_absent_bind.
  { destruct (Embeddings.key_of (Embeddings.geminiKey p));
      [|apply keeps_absent_ret].
    destruct (decide _); [|apply keeps_absent_ret].
    apply keeps_absent_try_catch; [|intros ?; apply keeps_absent_ret].
    apply keeps_absent_bind; [|intros ?; apply keeps_absent_ret].
    apply keeps_absent_retry_loop, keeps_absent_embedWithGemini. }
  intros a1. apply keeps_absent_bind.
  { destruct (Embeddings.a_embedding a1); [apply keeps_absent_ret|].
    destruct (Embeddings.key_of (Embeddings.openaiKey p));
      [|apply keeps_absent_ret].
    apply keeps_absent_bind; [|intros ?; apply keeps_absent_ret].
    apply keeps_absent_retry_loop, keeps_absent_embedWithOpenAI. }
  intros a2. apply keeps_absent_bind.
  { destruct (Embeddings.a_embedding a2); [apply keeps_absent_ret|].
    destruct (Embeddings.key_of (Embeddings.geminiKey p));
      [|apply keeps_absent_ret].
    destruct (decide _); [|apply keeps_absent_ret].
    apply keeps_absent_bind; [|intros ?; apply keeps_absent_ret].
    apply keeps_absent_retry_loop, keeps_absent_embedWithGemini. }
  intros a3. destruct (Embeddings.a_embedding a3) as [[|x v]|];
    try apply keeps_absent_throw.
  apply keeps_absent_bind; [by apply keeps_absent_cache_set|].
  intros ?; apply keeps_absent_ret.
Qed.

Lemma keeps_absent_lookup_all key batch :
  keeps_absent key (Embeddings.lookup_all p batch).
Proof.
  induction batch as [|text rest IH]; cbn [Embeddings.lookup_all];
    [apply keeps_absent_ret|].
  apply keeps_absent_bind; [apply keeps_absent_cache_get|intros ?].
  apply keeps_absent_bind; [apply IH|intros ?; apply keeps_absent_ret].
Qed.

Lemma cache_deaf_embedWithGemini text apiKey :
  cache_deaf (Embeddings.embedWithGemini text apiKey).
Proof.
  intros w1 w2 Hw. unfold Embeddings.embedWithGemini, bind, get_world, modify,
    cache_apart in *.
  rewrite Hw. cbn [gemini_calls set_cache].
  destruct (fetch_gemini _ _ _); by split.
Qed.

Lemma cache_deaf_embedWithOpenAI text apiKey :
  cache_deaf (Embeddings.embedWithOpenAI text apiKey).
Proof.
  intros w1 w2 Hw. unfold Embeddings.embedWithOpenAI, bind, get_world, modify,
    cache_apart in *.
  rewrite Hw. cbn [openai_calls set_cache].
  destruct (fetch_openai _ _ _); by split.
Qed.

Lemma cache_deaf_embed_fetch text :
  cache_deaf (Embeddings.embed_fetch p text).
Proof.
  unfold Embeddings.embed_fetch.
  apply cache_deaf_bind.
  { destruct (Embeddings.key_of (Embeddings.geminiKey p));
      [|apply cache_deaf_ret].
    destruct (decide _); [|apply cache_deaf_ret].
    apply cache_deaf_try_catch; [|intros ?; apply cache_deaf_ret].
    apply cache_deaf_bind; [|intros ?; apply cache_deaf_ret].
    apply cache_deaf_retry_loop, cache_deaf_embedWithGemini. }
  intros a1. apply cache_deaf_bind.
  { destruct (Embeddings.a_embedding a1); [apply cache_deaf_ret|].
    destruct (Embeddings.key_of (Embeddings.openaiKey p));
      [|apply cache_deaf_ret].
    apply cache_deaf_bind; [|intros ?; apply cache_deaf_ret].
    apply cache_deaf_retry_loop, cache_deaf_embedWithOpenAI. }
  intros a2. apply cache_deaf_bind.
  { destruct (Embeddings.a_embedding a2); [apply cache_deaf_ret|].
    destruct (Embeddings.key_of (Embeddings.geminiKey p));
      [|apply cache_deaf_ret].
    destruct (decide _); [|apply cache_deaf_ret].
    apply cache_deaf_bind; [|intros ?; apply cache_deaf_ret].
    apply cache_deaf_retry_loop, cache_deaf_embedWithGemini. }
  intros a3. destruct (Embeddings.a_embedding a3) as [[|x v]|];
    try apply cache_deaf_throw.
  apply cache_deaf_bind; [apply cache_deaf_cache_set|].
  intros ?; apply cache_deaf_ret.
Qed.

(** *** One call of [embed] in a batch *)

(** After a miss [embed] is the rest of [embed]. *)
Lemma embed_miss text u :
  Embeddings.map_get (key_of_text text) (cache u) = None ->
  Embeddings.embed p text u = Embeddings.embed_fetch p text u.
Proof.
  intros Hmiss. unfold Embeddings.embed, Embeddings.embed_lookup,
    Embeddings.cache_get, bind.
  by rewrite Hmiss.
Qed.

(** What the rest of [embed] gives, [embed] gives from an empty cache. *)
Lemma embed_of_fetch text u (o : outcome embed_result) u' :
  Embeddings.embed_fetch p text u = (o, u') ->
  exists v v', Embeddings.embed p text v = (o, v').
Proof.
  intros Hf. exists (set_cache [] u).
  rewrite embed_miss by done.
  destruct (cache_deaf_embed_fetch text u (set_cache [] u)) as [Ho _];
    [reflexivity|].
  rewrite Hf in Ho. cbn [fst] in Ho.
  destruct (Embeddings.embed_fetch p text (set_cache [] u)) as [o' v'].
  cbn [fst] in Ho. subst o'. by exists v'.
Qed.

Lemma embed_of_lookup text u r u' :
  Embeddings.embed_lookup p text u = (Ok (Some r), u') ->
  Embeddings.embed p text u = (Ok r, u').
Proof.
  intros Hl. unfold Embeddings.embed, bind. by rewrite Hl.
Qed.

(** The start of the calls of a batch: one entry for each text, in
    order; an entry holds what the cache held for its text. *)
Lemma lookup_all_started batch u :
  exists started u',
    Embeddings.lookup_all p batch u = (Ok started, u')
    /\ started.*1 = batch
    /\ Forall (fun '(text, cached) =>
                 forall r, cached = Some r ->
                   exists v v', Embeddings.embed p text v = (Ok r, v'))
              started
    /\ forall key,
         Embeddings.map_get key (cache u) = None ->
         Forall (fun '(text, cached) =>
                   key_of_text text = key -> cached = None) started.
Proof.
  revert u. induction batch as [|text rest IH]; intros u;
    cbn [Embeddings.lookup_all].
  - exists [], u. repeat split; by constructor.
  - unfold bind.
    destruct (Embeddings.embed_lookup p text u) as [[cached|e] u1] eqn:Hl.
    2: { unfold Embeddings.embed_lookup, Embeddings.cache_get in Hl.
         by destruct (Embeddings.map_get _ _). }
    destruct (IH u1) as (started & u' & -> & Hfst & Hprov & Hmiss).
    exists ((text, cached) :: started), u'.
    split; [done|]. split; [cbn; by rewrite Hfst|]. split.
    + constructor; [|done]. intros r ->. exists u, u1.
      by apply embed_of_lookup.
    + intros key Hkey. constructor.
      * intros Heq. unfold Embeddings.embed_lookup, Embeddings.cache_get in Hl.
        rewrite Heq, Hkey in Hl. by injection Hl as <- _.
      * apply Hmiss.
        pose proof (keeps_absent_cache_get key (key_of_text text) u Hkey)
          as Hk.
        unfold Embeddings.embed_lookup in Hl. by rewrite Hl in Hk.
Qed.

(** Every settled call is a call of [embed]. *)
Lemma settle_all_calls started u :
  Forall (fun '(text, cached) =>
            forall r, cached = Some r ->
              exists v v', Embeddings.embed p text v = (Ok r, v'))
         started ->
  Forall2 (fun text o => exists v v', Embeddings.embed p text v = (o, v'))
          started.*1 (Embeddings.settle_all p started u).1.
Proof.
  revert u. induction started as [|[text cached] rest IH]; intros u Hprov;
    cbn [Embeddings.settle_all]; [constructor|].
  apply Forall_cons in Hprov as [Hhead Hrest].
  destruct cached as [r|].
  - specialize (IH u Hrest).
    destruct (Embeddings.settle_all p rest u) as [rs u2]. cbn [fst] in *.
    constructor; [by apply Hhead|done].
  - destruct (Embeddings.embed_fetch p text u) as [o u1] eqn:Hf.
    specialize (IH u1 Hrest).
    destruct (Embeddings.settle_all p rest u1) as [rs u2]. cbn [fst] in *.
    constructor; [by eapply embed_of_fetch|done].
Qed.

Lemma all_settled_Ok {A} (rs : list (outcome A)) (l : list A) :
  Embeddings.all_settled rs = Ok l -> rs = Ok <$> l.
Proof.
  revert l. induction rs as [|[a|e] rs IH]; intros l; cbn.
  - by intros [= <-].
  - destruct (Embeddings.all_settled rs) as [l'|]; [|done].
    intros [= <-]. cbn. f_equal. by apply IH.
  - done.
Qed.

Lemma all_settled_Throw {A} (rs : list (outcome A)) (e : string) :
  Embeddings.all_settled rs = Throw e -> Throw e ∈ rs.
Proof.
  induction rs as [|[a|e0] rs IH]; cbn; [done| |].
  - destruct (Embeddings.all_settled rs) as [l'|e']; [done|].
    intros [= ->]. right. by apply IH.
  - intros [= ->]. left.
Qed.

(** What a batch answers, or the error it rejects with, is what [embed]
    gave for its texts. *)
Lemma promise_all_embed_calls batch u :
  match (Embeddings.promise_all_embed p batch u).1 with
  | Ok results =>
      Forall2 (fun text r => exists v v',
                 Embeddings.embed p text v = (Ok r, v')) batch results
  | Throw e =>
      exists text v v',
        text ∈ batch /\ Embeddings.embed p text v = (Throw e, v')
  end.
Proof.
  unfold Embeddings.promise_all_embed, bind.
  destruct (lookup_all_started batch u)
    as (started & u1 & -> & Hfst & Hprov & _).
  pose proof (settle_all_calls started u1 Hprov) as Hcalls.
  destruct (Embeddings.settle_all p started u1) as [rs u2].
  cbn [fst] in *. rewrite Hfst in Hcalls.
  destruct (Embeddings.all_settled rs) as [results|e] eqn:Hall.
  - apply all_settled_Ok in Hall as ->.
    by apply Forall2_fmap_r in Hcalls.
  - apply all_settled_Throw in Hall.
    apply list_elem_of_lookup in Hall as (i & Hi).
    destruct (Forall2_lookup_r _ _ _ _ _ Hcalls Hi) as (text & Ht & Hcall).
    destruct Hcall as (v & v' & Hcall).
    exists text, v, v'. split; [|done]. by eapply list_elem_of_lookup_2.
Qed.

Lemma embedBatch_loop_calls fuel texts done results u :
  (length texts <= fuel)%nat ->
  Forall2 (fun text r => exists v v',
             Embeddings.embed p text v = (Ok r, v')) done results ->
  match (Embeddings.embedBatch_loop fuel p texts results u).1 with
  | Ok all =>
      Forall2 (fun text r => exists v v',
                 Embeddings.embed p text v = (Ok r, v')) (done ++ texts) all
  | Throw e =>
      exists text v v',
        text ∈ texts /\ Embeddings.embed p text v = (Throw e, v')
  end.
Proof.
  revert texts done results u.
  induction fuel as [|fuel IH]; intros texts done results u Hfuel Hdone;
    cbn [Embeddings.embedBatch_loop]; destruct texts as [|t texts];
    cbn [length] in Hfuel; try lia.
  - cbn. by rewrite app_nil_r.
  - cbn. by rewrite app_nil_r.
  - unfold bind.
    pose proof (promise_all_embed_calls
                  (take Embeddings.BATCH_SIZE (t :: texts)) u) as Hbatch.
    destruct (Embeddings.promise_all_embed p _ u) as [[batchResults|e] u1];
      cbn [fst] in *.
    2: { destruct Hbatch as (text & v & v' & Hin & Hcall).
         exists text, v, v'. split; [|done].
         apply (elem_of_sublist _ _ _ Hin), sublist_take. }
    set (rest := drop Embeddings.BATCH_SIZE (t :: texts)) in *.
    assert (Hrest : (length rest <= fuel)%nat).
    { subst rest. rewrite length_drop. unfold Embeddings.BATCH_SIZE.
      cbn [length]. lia. }
    assert (Hpause : exists u2,
              (match rest with
               | [] => ret tt
               | _ :: _ => sleep Embeddings.BATCH_DELAY
               end) u1 = (Ok tt, u2)).
    { destruct rest; by eexists. }
    destruct Hpause as (u2 & ->).
    specialize (IH rest (done ++ take Embeddings.BATCH_SIZE (t :: texts))
                  (results ++ batchResults) u2 Hrest
                  (Forall2_app Hdone Hbatch)).
    destruct (Embeddings.embedBatch_loop fuel p rest _ u2) as [[all|e] u3];
      cbn [fst] in *.
    + subst rest. by rewrite <- app_assoc, take_drop in IH.
    + destruct IH as (text & v & v' & Hin & Hcall).
      exists text, v, v'. split; [|done]. subst rest.
      apply (elem_of_sublist _ _ _ Hin), sublist_drop.
Qed.

(** [embedBatch] answers with what [embed] gave for each text, in
    order, and rejects with what [embed] threw for one of them. *)
Lemma embedBatch_calls texts u :
  match (Embeddings.embedBatch p texts u).1 with
  | Ok results =>
      Forall2 (fun text r => exists v v',
                 Embeddings.embed p text v = (Ok r, v')) texts results
  | Throw e =>
      exists text v v',
        text ∈ texts /\ Embeddings.embed p text v = (Throw e, v')
  end.
Proof.
  apply (embedBatch_loop_calls (length texts) texts [] [] u); [lia|constructor].
Qed.


(** *** A chunk that cannot be embedded *)

Section Doomed.

Variables (w : world) (text : string).

(** [embed] throws for [text] whenever it is asked while the result is
    not cached, in every state with no fewer requests sent than in [w]. *)
Hypothesis doomed :
  forall u,
    no_fewer_requests w u ->
    Embeddings.map_get (key_of_text text) (cache u) = None ->
    exists e u', Embeddings.embed p text u = (Throw e, u').

Lemma settle_all_fails before after u :
  Forall (fun '(t, _) => key_of_text t <> key_of_text text) before ->
  no_fewer_requests w u ->
  Embeddings.map_get (key_of_text text) (cache u) = None ->
  exists e,
    Throw e ∈ (Embeddings.settle_all p (before ++ (text, None) :: after) u).1.
Proof.
  revert u. induction before as [|[t cached] before IH]; intros u Hb Hu Hmiss;
    cbn [app Embeddings.settle_all].
  - destruct (doomed u Hu Hmiss) as (e & u' & Hthrow).
    rewrite embed_miss in Hthrow by done. rewrite Hthrow.
    destruct (Embeddings.settle_all p after u') as [rs u2].
    exists e. left.
  - apply Forall_cons in Hb as [Hne Hb].
    destruct cached as [r|].
    + destruct (IH u Hb Hu Hmiss) as (e & He).
      destruct (Embeddings.settle_all p _ u) as [rs u2].
      exists e. by right.
    + pose proof (keeps_absent_embed_fetch _ t Hne u Hmiss) as Hmiss1.
      pose proof (no_fewer_requests_after 3 3 _ w u
                    (sends_embed_fetch p t) Hu) as Hu1.
      destruct (Embeddings.embed_fetch p t u) as [o u1]. cbn [snd] in *.
      destruct (IH u1 Hb Hu1 Hmiss1) as (e & He).
      destruct (Embeddings.settle_all p _ u1) as [rs u2].
      exists e. by right.
Qed.

Lemma settle_all_keeps_absent key started u :
  Forall (fun '(t, _) => key_of_text t <> key) started ->
  Embeddings.map_get key (cache u) = None ->
  Embeddings.map_get key (cache (Embeddings.settle_all p started u).2) = None.
Proof.
  revert u. induction started as [|[t cached] rest IH]; intros u Hs Hmiss;
    cbn [Embeddings.settle_all]; [done|].
  apply Forall_cons in Hs as [Hne Hs].
  destruct cached as [r|].
  - specialize (IH u Hs Hmiss).
    by destruct (Embeddings.settle_all p rest u).
  - pose proof (keeps_absent_embed_fetch _ t Hne u Hmiss) as Hmiss1.
    destruct (Embeddings.embed_fetch p t u) as [o u1]. cbn [snd] in *.
    specialize (IH u1 Hs Hmiss1).
    by destruct (Embeddings.settle_all p rest u1).
Qed.

(** A batch that holds [text], with no text of the same cache key before
    it, rejects. *)
Lemma promise_all_embed_fails before after u :
  Forall (fun t => key_of_text t <> key_of_text text) before ->
  no_fewer_requests w u ->
  Embeddings.map_get (key_of_text text) (cache u) = None ->
  exists e u',
    Embeddings.promise_all_embed p (before ++ text :: after) u = (Throw e, u').
Proof.
  intros Hb Hu Hmiss. unfold Embeddings.promise_all_embed, bind.
  pose proof (keeps_absent_lookup_all (key_of_text text)
                (before ++ text :: after) u Hmiss) as Hmiss1.
  pose proof (no_fewer_requests_after 0 0 _ w u
                (sends_lookup_all p (before ++ text :: after)) Hu) as Hu1.
  destruct (lookup_all_started (before ++ text :: after) u)
    as (started & u1 & Hl & Hfst & _ & Hnone).
  rewrite Hl in *. cbn [snd] in *.
  specialize (Hnone _ Hmiss).
  apply fmap_app_inv in Hfst as (sb & srest & Hsb & Hsrest & ->).
  destruct srest as [|[t cached] sa]; [done|].
  cbn in Hsrest. injection Hsrest as Ht Hsa. subst t.
  assert (cached = None) as ->.
  { apply Forall_app in Hnone as [_ Hnone].
    apply Forall_cons in Hnone as [Hnone _]. by apply Hnone. }
  assert (Hsb' : Forall (fun '(t, _) => key_of_text t <> key_of_text text) sb).
  { subst before. by apply Forall_fst. }
  destruct (settle_all_fails sb sa u1 Hsb' Hu1 Hmiss1) as (e & He).
  destruct (Embeddings.settle_all p _ u1) as [rs u2]. cbn [fst] in He.
  destruct (all_settled_throws rs e He) as (e' & ->).
  by exists e', u2.
Qed.

(** A batch without a text of that cache key leaves the key out of the
    cache. *)
Lemma promise_all_embed_keeps_absent batch u :
  Forall (fun t => key_of_text t <> key_of_text text) batch ->
  Embeddings.map_get (key_of_text text) (cache u) = None ->
  Embeddings.map_get (key_of_text text)
    (cache (Embeddings.promise_all_embed p batch u).2) = None.
Proof.
  intros Hb Hmiss. unfold Embeddings.promise_all_embed, bind.
  pose proof (keeps_absent_lookup_all (key_of_text text) batch u Hmiss)
    as Hmiss1.
  destruct (lookup_all_started batch u)
    as (started & u1 & Hl & Hfst & _ & _).
  rewrite Hl in *. cbn [snd] in *.
  assert (Hs : Forall (fun '(t, _) => key_of_text t <> key_of_text text)
                 started).
  { subst batch. by apply Forall_fst. }
  pose proof (settle_all_keeps_absent _ started u1 Hs Hmiss1) as Hmiss2.
  destruct (Embeddings.settle_all p started u1) as [rs u2].
  by destruct (Embeddings.all_settled rs).
Qed.

Lemma embedBatch_loop_fails fuel before after results u :
  (length (before ++ text :: after) <= fuel)%nat ->
  Forall (fun t => key_of_text t <> key_of_text text) before ->
  no_fewer_requests w u ->
  Embeddings.map_get (key_of_text text) (cache u) = None ->
  exists e u',
    Embeddings.embedBatch_loop fuel p (before ++ text :: after) results u
    = (Throw e, u').
Proof.
  revert before results u.
  induction fuel as [|fuel IH]; intros before results u Hfuel Hb Hu Hmiss.
  { rewrite length_app in Hfuel. cbn in Hfuel. lia. }
  cbn [Embeddings.embedBatch_loop].
  destruct (before ++ text :: after) as [|t0 texts0] eqn:Htexts.
  { by destruct before. }
  rewrite <- Htexts in *. clear t0 texts0 Htexts. unfold bind.
  destruct (decide (length before < Embeddings.BATCH_SIZE)%nat) as [Hin|Hout].
  - rewrite firstn_app.
    replace (Embeddings.BATCH_SIZE - length before)%nat
      with (S (pred (Embeddings.BATCH_SIZE - length before))) by lia.
    rewrite (take_ge before) by lia. cbn [take].
    destruct (promise_all_embed_fails before
                (take (pred (Embeddings.BATCH_SIZE - length before)) after)
                u Hb Hu Hmiss) as (e & u' & ->).
    by exists e, u'.
  - assert (Htake : take Embeddings.BATCH_SIZE (before ++ text :: after)
                    = take Embeddings.BATCH_SIZE before).
    { rewrite firstn_app.
      replace (Embeddings.BATCH_SIZE - length before)%nat with 0%nat by lia.
      cbn. by rewrite app_nil_r. }
    assert (Hdrop : drop Embeddings.BATCH_SIZE (before ++ text :: after)
                    = drop Embeddings.BATCH_SIZE before ++ text :: after).
    { rewrite skipn_app.
      by replace (Embeddings.BATCH_SIZE - length before)%nat
        with 0%nat by lia. }
    rewrite Htake, Hdrop.
    assert (Hbatch : Forall (fun t => key_of_text t <> key_of_text text)
                       (take Embeddings.BATCH_SIZE before))
      by (by apply Forall_take).
    pose proof (promise_all_embed_keeps_absent _ u Hbatch Hmiss) as Hmiss1.
    pose proof (no_fewer_requests_after _ _ _ w u
                  (sends_promise_all_embed p
                     (take Embeddings.BATCH_SIZE before)) Hu) as Hu1.
    destruct (Embeddings.promise_all_embed p _ u) as [[batchResults|e] u1];
      cbn [snd] in *; [|by exists e, u1].
    destruct (drop Embeddings.BATCH_SIZE before ++ text :: after)
      as [|t1 texts1] eqn:Hrest.
    { by destruct (drop Embeddings.BATCH_SIZE before). }
    rewrite <- Hrest. cbn [sleep modify].
    apply IH.
    + rewrite length_app in *. rewrite length_drop. cbn [length] in *.
      unfold Embeddings.BATCH_SIZE in *. lia.
    + by apply Forall_drop.
    + exact Hu1.
    + exact Hmiss1.
Qed.

(** [embedBatch] rejects when one of its texts cannot be embedded and no
    text before it has the same cache key. *)
Lemma embedBatch_fails before after u :
  Forall (fun t => key_of_text t <> key_of_text text) before ->
  no_fewer_requests w u ->
  Embeddings.map_get (key_of_text text) (cache u) = None ->
  exists e u',
    Embeddings.embedBatch p (before ++ text :: after) u = (Throw e, u').
Proof. intros. by apply embedBatch_loop_fails. Qed.

End Doomed.

End AllOrNothing.

Section BothDown.

Context `{Collaborators}.

(** Gemini preferred, both keys set, and both endpoints failing for a
    text whatever the number of the request: after a miss [embed] throws
    the error of the third request to OpenAI. *)
Lemma embed_both_exhausted (p : Embeddings.provider_state) (text : string)
    (gkey okey : string) (eg eo : nat -> string) (u : world) :
  Embeddings.preferredProvider p = "gemini" ->
  Embeddings.key_of (Embeddings.geminiKey p) = Some gkey ->
  Embeddings.key_of (Embeddings.openaiKey p) = Some okey ->
  let sent := Js.slice0 Embeddings.MAX_INPUT_CHARS text in
  (forall n, failure "Gemini" (fetch_gemini n gkey sent) = Some (eg n)) ->
  (forall n, failure "OpenAI" (fetch_openai n okey sent) = Some (eo n)) ->
  Embeddings.map_get (Embeddings.hash text "gemini") (cache u) = None ->
  exists u',
    Embeddings.embed p text u = (Throw (eo (S (S (openai_calls u)))), u').
Proof.
  intros Hpref Hg Ho sent Hgem Hopen Hmiss.
  unfold Embeddings.embed, Embeddings.embed_lookup, Embeddings.cache_get.
  unfold bind at 1. rewrite Hpref, Hmiss.
  unfold Embeddings.embed_fetch. rewrite Hpref, Hg, Ho.
  rewrite (decide_True (P := "gemini" = "gemini")) by done.
  unfold bind at 1. unfold try_catch at 1. unfold bind at 1.
  rewrite (retry_gemini_exhausted text gkey u _ _ _
             (Hgem _) (Hgem _) (Hgem _)).
  unfold ret at 1. cbn [Embeddings.a_embedding Embeddings.nothing_yet].
  unfold bind at 1, bind at 1.
  rewrite (retry_openai_exhausted text okey _ _ _ _
             (Hopen _) (Hopen _) (Hopen _)).
  eexists. reflexivity.
Qed.

End BothDown.

(** C2. On an ingest that has taken the lock, extracted a content and
    found no duplicate, all chunks go through [embedBatch] first, and when
    that is over both tables are still as they were.

    A single chunk that cannot be embedded aborts the whole ingest: if
    [embed] throws for the text of a chunk whenever it is asked without
    a cached result (in every state with no fewer requests sent), and the
    cache holds nothing under the key of that text, neither at the start
    nor by an earlier chunk with the same key, then [ingest] throws and
    both tables stay as they were.

    In any case: if the batch rejects, the error is one that [embed]
    threw for the text of a chunk, [ingest] throws it, and both tables
    stay as they were; if it returns, each result is what [embed] gave
    for the text of its chunk, and only then the one source row and the
    chunk rows are stored, each chunk with its embedding. *)
Theorem ingest_embeds_before_persisting `{Collaborators} (r : Rag.t)
    (input : string) (o : Rag.ingest_options) (w w1 : world)
    (x : extracted) :
  Rag.acquireLock r w = (Ok tt, w1) ->
  extract (extract_calls w) input (Rag.o_sourceType o) = Ok x ->
  (Db.sourceExists (x_url x) (x_content x) w).1 = Ok None ->
  let pieces := Chunker.createChunks (x_content x) (Rag.chunkOptions r) in
  let texts := map Chunker.content pieces in
  let key text :=
    Embeddings.hash text (Embeddings.preferredProvider (Rag.embedder r)) in
  (forall before text after,
     texts = before ++ text :: after ->
     Forall (fun t => key t <> key text) before ->
     Embeddings.map_get (key text) (cache w) = None ->
     (forall u,
        no_fewer_requests w u ->
        Embeddings.map_get (key text) (cache u) = None ->
        exists e u', Embeddings.embed (Rag.embedder r) text u = (Throw e, u')) ->
     exists e w3 w',
       Embeddings.embedBatch (Rag.embedder r) texts
         (set_extract_calls (S (extract_calls w)) w1) = (Throw e, w3)
       /\ Rag.ingest r input o w = (Throw e, w')
       /\ sources w' = sources w
       /\ chunks w' = chunks w)
  /\ exists embedded w3,
       Embeddings.embedBatch (Rag.embedder r) texts
         (set_extract_calls (S (extract_calls w)) w1) = (embedded, w3)
       /\ sources w3 = sources w
       /\ chunks w3 = chunks w
       /\ match embedded with
          | Throw e =>
              (exists text v v',
                 text ∈ texts
                 /\ Embeddings.embed (Rag.embedder r) text v = (Throw e, v'))
              /\ exists w',
                   Rag.ingest r input o w = (Throw e, w')
                   /\ sources w' = sources w
                   /\ chunks w' = chunks w
          | Ok embedResults =>
              Forall2 (fun text result =>
                         exists v v',
                           Embeddings.embed (Rag.embedder r) text v
                           = (Ok result, v'))
                      texts embedResults
              /\ exists w',
                   Rag.ingest r input o w
                   = (Ok (Rag.success (next_source_id w) (x_title x)
                            (x_sourceType x) (Z.of_nat (length pieces))
                            (Rag.backend r)), w')
                   /\ sources w'
                      = sources w
                        ++ [Db.source_row_of (next_source_id w)
                              (source_of_extracted x o)]
                   /\ chunks w'
                      = chunks w
                        ++ imap (Db.chunk_row_of (next_source_id w)
                                   (next_chunk_id w))
                             (merged pieces embedResults)
          end.
Proof.
  intros Hacq Hext Hnew pieces texts key.
  pose proof (acquireLock_only_lock r w w1 _ Hacq) as Hw1.
  assert (Hcalls : extract_calls w1 = extract_calls w) by (by rewrite Hw1).
  destruct (sourceExists_pure (x_url x) (x_content x) w)
    as (found & Hat_w & Hany).
  rewrite Hat_w in Hnew. cbn [fst] in Hnew. injection Hnew as ->.
  set (w2 := set_extract_calls (S (extract_calls w)) w1).
  assert (Hs2 : sources w2 = sources w) by (subst w2; by rewrite Hw1).
  specialize (Hany _ Hs2).
  assert (Hingest : Rag.ingest r input o w
            = (let '(res, w') :=
                 (do embedResults <-
                    Embeddings.embedBatch (Rag.embedder r) texts;
                  do chunksWithEmbeddings <-
                    (fun u => (Rag.merge pieces embedResults, u));
                  do sourceId <- Db.insertSource (source_of_extracted x o);
                  Db.insertChunks sourceId chunksWithEmbeddings ;;
                  ret (Rag.success sourceId (x_title x) (x_sourceType x)
                         (Z.of_nat (length pieces)) (Rag.backend r))) w2 in
               (res, Rag.releaseLock r w'))).
  { rewrite (ingest_after_lock r input o w w1 Hacq).
    unfold Rag.ingest_body, bind at 1, Rag.call_extract.
    rewrite Hcalls, Hext. fold w2. unfold bind at 1. rewrite Hany.
    reflexivity. }
  pose proof (quiet_embedBatch (Rag.embedder r) texts w2) as Hquiet.
  pose proof (embedBatch_calls (Rag.embedder r) texts w2) as Hcallsmade.
  assert (Hthrow : forall e w3,
            Embeddings.embedBatch (Rag.embedder r) texts w2 = (Throw e, w3) ->
            exists w',
              Rag.ingest r input o w = (Throw e, w')
              /\ sources w' = sources w /\ chunks w' = chunks w).
  { intros e w3 Hb. rewrite Hingest. unfold bind at 1. rewrite Hb.
    rewrite Hb in Hquiet. cbn [snd] in Hquiet.
    destruct Hquiet as (Hs & Hc & _).
    eexists. split; [reflexivity|].
    rewrite releaseLock_only_lock. cbn [sources chunks set_lock].
    subst w2. by rewrite Hs, Hc, Hw1. }
  split.
  - intros before text after Htexts Hfirst Hmiss Hdoomed.
    assert (Hmiss2 : Embeddings.map_get (key text) (cache w2) = None)
      by (subst w2; by rewrite Hw1).
    assert (Hreq : no_fewer_requests w w2).
    { subst w2. rewrite Hw1. split; cbn; lia. }
    destruct (embedBatch_fails (Rag.embedder r) w text Hdoomed before after
                w2 Hfirst Hreq Hmiss2) as (e & w3 & Hb).
    rewrite <- Htexts in Hb. destruct (Hthrow e w3 Hb) as (w' & Hw').
    by exists e, w3, w'.
  - destruct (Embeddings.embedBatch (Rag.embedder r) texts w2)
      as [embedded w3] eqn:Hb.
    cbn [snd fst] in Hquiet, Hcallsmade.
    destruct Hquiet as (Hs & Hc & Hns & Hnc & _).
    assert (Hs3 : sources w3 = sources w) by (subst w2; by rewrite Hs, Hw1).
    assert (Hc3 : chunks w3 = chunks w) by (subst w2; by rewrite Hc, Hw1).
    assert (Hns3 : next_source_id w3 = next_source_id w)
      by (subst w2; by rewrite Hns, Hw1).
    assert (Hnc3 : next_chunk_id w3 = next_chunk_id w)
      by (subst w2; by rewrite Hnc, Hw1).
    exists embedded, w3. split; [done|]. split; [done|]. split; [done|].
    destruct embedded as [embedResults|e].
    + split; [done|].
      pose proof (embedBatch_length _ _ _ _ _ Hb) as Hlen.
      unfold texts in Hlen. rewrite length_map in Hlen.
      rewrite Hingest. unfold bind at 1. rewrite Hb.
      unfold bind at 1. rewrite (merge_ok pieces embedResults Hlen).
      unfold Db.insertSource, Db.insertChunks, bind, get_world, modify, ret.
      eexists. split; [by rewrite Hns3|].
      rewrite releaseLock_only_lock. cbn [sources chunks set_lock set_sources
        set_chunks set_next_source_id set_next_chunk_id next_chunk_id
        next_source_id].
      by rewrite ?Hs3, ?Hc3, ?Hns3, ?Hnc3.
    + split; [done|]. by apply (Hthrow e w3).
Qed.

Lemma ingest_embeds_before_persisting_witness :
  (exists e w3 w',
     @Embeddings.embedBatch Sample.picky (Rag.embedder Sample.local)
       [Sample.sentence "a" 399; Sample.second_chunk]
       (set_extract_calls 1 (Rag.acquireLock Sample.local Sample.fresh).2)
     = (Throw e, w3)
     /\ @Rag.ingest Sample.picky Sample.local Sample.long_note Sample.plain
          Sample.fresh = (Throw e, w')
     /\ sources w' = sources Sample.fresh
     /\ chunks w' = chunks Sample.fresh)
  /\ (exists w',
        @Rag.ingest Sample.all_up Sample.local Sample.a_note Sample.plain
          Sample.fresh
        = (Ok (Rag.success 1 Sample.a_note "text" 1 "sqlite"), w')
        /\ sources w' = [Sample.note_row]
        /\ Store.embedding <$> chunks w' = [Some [82; 39]%float]).
Proof.
  split.
  - destruct (@ingest_embeds_before_persisting Sample.picky Sample.local
                Sample.long_note Sample.plain Sample.fresh
                (Rag.acquireLock Sample.local Sample.fresh).2
                (Sample.as_note Sample.long_note)
                eq_refl eq_refl eq_refl) as [Hone _].
    assert (Htexts : map Chunker.content
                       (Chunker.createChunks
                          (x_content (Sample.as_note Sample.long_note))
                          (Rag.chunkOptions Sample.local))
                     = [Sample.sentence "a" 399; Sample.second_chunk])
      by (vm_compute; reflexivity).
    cbv zeta in Hone. rewrite Htexts in Hone.
    apply (Hone [Sample.sentence "a" 399] Sample.second_chunk []).
    + reflexivity.
    + constructor; [|constructor]. vm_compute. discriminate.
    + reflexivity.
    + intros u _ Hmiss.
      destruct (@embed_both_exhausted Sample.picky
                  (Rag.embedder Sample.local) Sample.second_chunk
                  "gemini-key" "openai-key"
                  (fun _ => "Gemini API error: 503 - Service Unavailable")
                  (fun _ => "OpenAI API error: 503 - Service Unavailable")
                  u eq_refl eq_refl eq_refl) as (u' & Hu').
      * intros n. vm_compute. reflexivity.
      * intros n. vm_compute. reflexivity.
      * exact Hmiss.
      * eexists _, u'. exact Hu'.
  - destruct (@ingest_embeds_before_persisting Sample.all_up Sample.local
                Sample.a_note Sample.plain Sample.fresh
                (Rag.acquireLock Sample.local Sample.fresh).2
                (Sample.as_note Sample.a_note)
                eq_refl eq_refl eq_refl)
      as (_ & embedded & w3 & Hb & _ & _ & Hrest).
    assert (Hb' : exists u,
              @Embeddings.embedBatch Sample.all_up (Rag.embedder Sample.local)
                (map Chunker.content
                   (Chunker.createChunks (x_content (Sample.as_note Sample.a_note))
                      (Rag.chunkOptions Sample.local)))
                (set_extract_calls 1
                   (Rag.acquireLock Sample.local Sample.fresh).2)
              = (Ok [{| embedding := [82; 39]%float;
                        provider := Some "gemini";
                        model := Some "text-embedding-004" |}], u))
      by (vm_compute; eexists; reflexivity).
    destruct Hb' as (u & Hb').
    cbv zeta in Hb. change (S (extract_calls Sample.fresh)) with 1%nat in Hb.
    rewrite Hb' in Hb. injection Hb as <- <-.
    destruct Hrest as (_ & w' & Hok & Hsources & Hchunks).
    exists w'. split; [exact Hok|]. split; [exact Hsources|].
    rewrite Hchunks. vm_compute. reflexivity.
Defined.

(** ** The tables *)

Lemma find_none_iff {A} (f : A -> bool) (l : list A) :
  find f l = None <-> forall x, x ∈ l -> f x = false.
Proof.
  induction l as [|a l IH]; cbn [find].
  - split; [by intros _ x ?%elem_of_nil|done].
  - destruct (f a) eqn:Ha.
    + split; [done|]. intros Hall. specialize (Hall a ltac:(left)). congruence.
    + rewrite IH. split.
      * intros Hall x [->|Hx]%elem_of_cons; [done|by apply Hall].
      * intros Hall x Hx. apply Hall. by right.
Qed.

Lemma find_app_found {A} (f : A -> bool) (l1 l2 : list A) (x : A) :
  find f l1 = Some x -> find f (l1 ++ l2) = Some x.
Proof.
  induction l1 as [|a l1 IH]; cbn [find app]; [done|].
  by destruct (f a).
Qed.

Section Tables.

Context `{Collaborators}.

(** What [ingest] does to the tables: nothing, unless it succeeds, and
    then one source row and the rows of its chunks are appended. *)
Lemma ingest_effect r input o w :
  let res := (Rag.ingest r input o w).1 in
  let w' := (Rag.ingest r input o w).2 in
  (sources w' = sources w /\ chunks w' = chunks w
   /\ next_source_id w' = next_source_id w
   /\ next_chunk_id w' = next_chunk_id w
   /\ forall sid title st n b, res <> Ok (Rag.success sid title st n b))
  \/ exists x embedResults,
       let pieces := Chunker.createChunks (x_content x) (Rag.chunkOptions r) in
       extract (extract_calls w) input (Rag.o_sourceType o) = Ok x
       /\ Db.sourceExists (x_url x) (x_content x) w = (Ok None, w)
       /\ length embedResults = length pieces
       /\ res = Ok (Rag.success (next_source_id w) (x_title x)
                      (x_sourceType x) (Z.of_nat (length pieces))
                      (Rag.backend r))
       /\ sources w'
          = sources w
            ++ [Db.source_row_of (next_source_id w) (source_of_extracted x o)]
       /\ chunks w'
          = chunks w
            ++ imap (Db.chunk_row_of (next_source_id w) (next_chunk_id w))
                 (merged pieces embedResults)
       /\ next_source_id w' = next_source_id w + 1
       /\ next_chunk_id w' = next_chunk_id w + Z.of_nat (length pieces).
Proof.
  cbn zeta.
  destruct (Rag.acquireLock r w) as [[[]|e] w1] eqn:Hacq.
  2: { left. unfold Rag.ingest, bind. rewrite Hacq. cbn [fst snd].
       pose proof (acquireLock_only_lock r w w1 _ Hacq) as ->.
       by repeat split. }
  rewrite (ingest_after_lock r input o w w1 Hacq).
  pose proof (acquireLock_only_lock r w w1 _ Hacq) as Hw1.
  assert (Hcalls : extract_calls w1 = extract_calls w) by (by rewrite Hw1).
  unfold Rag.ingest_body, bind, Rag.call_extract. rewrite Hcalls.
  destruct (extract (extract_calls w) input (Rag.o_sourceType o)) as [x|e]
    eqn:Hext.
  2: { left. cbn [fst snd]. rewrite releaseLock_only_lock. cbn.
       rewrite Hw1. by repeat split. }
  destruct (sourceExists_pure (x_url x) (x_content x) w)
    as (found & Hat_w & Hany).
  assert (Hs2 : sources (set_extract_calls (S (extract_calls w)) w1)
                = sources w) by (by rewrite Hw1).
  rewrite (Hany _ Hs2). destruct found as [existing|].
  { left. unfold ret. cbn [fst snd]. rewrite releaseLock_only_lock. cbn.
    rewrite Hw1. by repeat split. }
  pose proof (quiet_embedBatch (Rag.embedder r)
                (map Chunker.content
                   (Chunker.createChunks (x_content x) (Rag.chunkOptions r)))
                (set_extract_calls (S (extract_calls w)) w1)) as Hquiet.
  destruct (Embeddings.embedBatch _ _ _) as [[results|e] w3] eqn:Hbatch.
  2: { left. cbn [fst snd] in *. rewrite releaseLock_only_lock.
       destruct Hquiet as (Hs & Hc & Hns & Hnc & _). cbn.
       rewrite Hs, Hc, Hns, Hnc, Hw1. by repeat split. }
  cbn [snd] in Hquiet. destruct Hquiet as (Hs & Hc & Hns & Hnc & _).
  pose proof (embedBatch_length _ _ _ _ _ Hbatch) as Hlen.
  rewrite length_map in Hlen.
  rewrite (merge_ok _ results Hlen).
  right. exists x, results. cbn zeta.
  split; [done|]. split; [done|]. split; [done|].
  unfold Db.insertSource, Db.insertChunks, bind, get_world, modify, ret.
  cbn [fst snd]. rewrite releaseLock_only_lock.
  cbn [sources chunks set_lock set_sources set_chunks set_next_source_id
         set_next_chunk_id next_chunk_id next_source_id].
  rewrite Hs, Hc, Hns, Hnc, Hw1. cbn [sources chunks next_source_id
    next_chunk_id set_lock set_extract_calls].
  assert (Hm : length (merged (Chunker.createChunks (x_content x)
                                 (Rag.chunkOptions r)) results)
               = length (Chunker.createChunks (x_content x)
                           (Rag.chunkOptions r))).
  { unfold merged. by rewrite length_zip_with_l_eq. }
  rewrite Hm. repeat split.
Qed.

End Tables.

Lemma omap_snoc {A B} (f : A -> option B) (l : list A) (x : A) :
  omap f (l ++ [x]) = omap f l ++ match f x with Some y => [y] | None => [] end.
Proof.
  induction l as [|a l IH]; cbn.
  - by destruct (f x).
  - destruct (f a); cbn; by rewrite IH.
Qed.

Section TableFacts.

Context `{Collaborators}.

Lemma chunk_ids_imap sid base (cs : list Db.embedded_chunk) :
  Store.chunk_id <$> imap (Db.chunk_row_of sid base) cs
  = (fun i : nat => base + Z.of_nat i) <$> seq 0 (length cs).
Proof.
  apply list_eq. intros i.
  rewrite !list_lookup_fmap, list_lookup_imap.
  destruct (cs !! i) as [c|] eqn:Hc; cbn.
  - rewrite lookup_seq_lt by (by eapply lookup_lt_Some). done.
  - rewrite lookup_seq_ge by (by apply lookup_ge_None). done.
Qed.

Lemma sourceExists_none_inv url content w :
  (Db.sourceExists url content w).1 = Ok None ->
  forall r, r ∈ sources w -> ~ same_source url content r.
Proof.
  unfold Db.sourceExists, bind, get_world, ret, Db.select_by_url,
    Db.select_by_hash. cbn [fst].
  intros Hnone r Hr [(n & Hn & Hurl)|Hhash].
  - rewrite Hn, (normalizeUrl_truthy _ _ Hn) in Hnone.
    destruct (find _ (sources w)) as [y|] eqn:Hfind in Hnone; [done|].
    apply find_none_iff with (x := r) in Hfind; [|done].
    by apply bool_decide_eq_false in Hfind.
  - assert (Hfind : find (fun r0 => bool_decide
                       (Store.content_hash r0 = Db.hashContent content))
                      (sources w) = None).
    { destruct (match Db.normalizeUrl url with
                | Some n => _ | None => _ end) in Hnone; [done|].
      by destruct (find _ (sources w)). }
    apply find_none_iff with (x := r) in Hfind; [|done].
    by apply bool_decide_eq_false in Hfind.
Qed.

Lemma sourceExists_none_intro url content w :
  (forall r, r ∈ sources w -> ~ same_source url content r) ->
  Db.sourceExists url content w = (Ok None, w).
Proof.
  intros Hall.
  destruct (sourceExists_pure url content w) as (found & Hat & _).
  destruct found as [r|]; [|done]. exfalso.
  assert (Hr : r ∈ sources w /\ same_source url content r).
  { revert Hat. unfold Db.sourceExists, bind, get_world, ret,
      Db.select_by_url, Db.select_by_hash.
    intros [= Hat].
    destruct (Db.normalizeUrl url) as [n|] eqn:Hn.
    - destruct (Js.truthy n).
      + destruct (find _ (sources w)) as [y|] eqn:Hfind in Hat.
        * injection Hat as ->. apply find_found in Hfind as [Hin Hy].
          apply bool_decide_eq_true in Hy. split; [done|].
          left. by exists n.
        * apply find_found in Hat as [Hin Hy].
          apply bool_decide_eq_true in Hy. split; [done|by right].
      + apply find_found in Hat as [Hin Hy].
        apply bool_decide_eq_true in Hy. split; [done|by right].
    - apply find_found in Hat as [Hin Hy].
      apply bool_decide_eq_true in Hy. split; [done|by right]. }
  destruct Hr as [Hin Hsame]. by apply (Hall r).
Qed.

(** X10. [sourceExists] answers [null] exactly when no stored source has the
    normalized URL or the content hash asked for. *)
Theorem sourceExists_none_iff (url : option string) (content : string)
    (w : world) :
  Db.sourceExists url content w = (Ok None, w)
  <-> (forall r, r ∈ sources w -> ~ same_source url content r).
Proof.
  split.
  - intros Hnone. apply sourceExists_none_inv. by rewrite Hnone.
  - apply sourceExists_none_intro.
Qed.

Lemma well_formed_same w w' :
  sources w' = sources w -> chunks w' = chunks w ->
  next_source_id w' = next_source_id w ->
  next_chunk_id w' = next_chunk_id w ->
  well_formed w -> well_formed w'.
Proof.
  intros Hs Hc Hns Hnc [? ? ? ? ? ? ? ?].
  split; rewrite ?Hs, ?Hc, ?Hns, ?Hnc; done.
Qed.

Lemma well_formed_extended w w' (n : Db.new_source)
    (cs : list Db.embedded_chunk) :
  well_formed w ->
  (forall r, r ∈ sources w ->
     ~ same_source (Db.n_url n) (Db.n_rawContent n) r) ->
  sources w' = sources w ++ [Db.source_row_of (next_source_id w) n] ->
  chunks w'
  = chunks w ++ imap (Db.chunk_row_of (next_source_id w) (next_chunk_id w)) cs ->
  next_source_id w' = next_source_id w + 1 ->
  next_chunk_id w' = next_chunk_id w + Z.of_nat (length cs) ->
  well_formed w'.
Proof.
  intros [Hids Honce Hcids Hconce Hrefs Hhash Hurl Hkeys] Hnew Hs Hc Hns Hnc.
  split; rewrite ?Hs, ?Hc, ?Hns, ?Hnc.
  - apply Forall_app. split.
    + eapply Forall_impl; [exact Hids|]. cbn. intros; lia.
    + apply Forall_singleton. cbn. lia.
  - rewrite fmap_app. apply NoDup_app. split; [done|]. split.
    + intros x Hx ->%list_elem_of_singleton.
      apply list_elem_of_fmap in Hx as (r & Hr & Hin).
      pose proof (proj1 (Forall_forall _ _) Hids r Hin) as Hlt.
      cbn in Hr, Hlt. lia.
    + apply NoDup_singleton.
  - apply Forall_app. split.
    + eapply Forall_impl; [exact Hcids|]. cbn. intros; lia.
    + apply (proj1 (Forall_fmap Store.chunk_id
                      (fun z => z < next_chunk_id w + Z.of_nat (length cs)) _)).
      rewrite chunk_ids_imap. apply (proj2 (Forall_fmap _ _ _)).
      apply Forall_forall. intros i Hi%elem_of_seq. cbn. lia.
  - rewrite fmap_app. apply NoDup_app. split; [done|]. split.
    + intros x Hx. rewrite chunk_ids_imap.
      intros (i & -> & Hi%elem_of_seq)%list_elem_of_fmap.
      apply list_elem_of_fmap in Hx as (c & Hc' & Hin).
      pose proof (proj1 (Forall_forall _ _) Hcids c Hin) as Hlt.
      cbn in Hlt. lia.
    + rewrite chunk_ids_imap. apply NoDup_fmap_2; [|apply NoDup_seq].
      intros i j Hij. lia.
  - rewrite fmap_app. apply Forall_app. split.
    + eapply Forall_impl; [exact Hrefs|]. cbn. intros c Hin.
      apply elem_of_app. by left.
    + apply Forall_forall. intros c Hin.
      apply list_elem_of_lookup in Hin as (i & Hi).
      rewrite list_lookup_imap in Hi.
      destruct (cs !! i); [|done]. injection Hi as <-. cbn.
      apply elem_of_app. right. left.
  - rewrite fmap_app. apply NoDup_app. split; [done|]. split.
    + intros x Hx ->%list_elem_of_singleton.
      apply list_elem_of_fmap in Hx as (r & Hr & Hin).
      apply (Hnew r Hin). right. by rewrite <- Hr.
    + apply NoDup_singleton.
  - rewrite omap_snoc. apply NoDup_app. split; [done|]. cbn.
    destruct (Db.normalizeUrl (Db.n_url n)) as [u|] eqn:Hu.
    + split; [|apply NoDup_singleton].
      intros x Hx ->%list_elem_of_singleton.
      apply list_elem_of_omap in Hx as (r & Hin & Hr).
      apply (Hnew r Hin). left. by exists u.
    + split; [|constructor]. by intros x _ ?%elem_of_nil.
  - apply Forall_app. split; [done|]. by apply Forall_singleton.
Qed.

Lemma ingest_well_formed (r : Rag.t) (input : string)
    (o : Rag.ingest_options) (w : world) :
  well_formed w -> well_formed (Rag.ingest r input o w).2.
Proof.
  intros Hw.
  destruct (ingest_effect r input o w)
    as [(Hs & Hc & Hns & Hnc & _)
       |(x & results & Hx & Hnone & Hlen & _ & Hs & Hc & Hns & Hnc)].
  - by apply (well_formed_same w).
  - cbn zeta in *.
    apply (well_formed_extended w _ (source_of_extracted x o)
             (merged (Chunker.createChunks (x_content x) (Rag.chunkOptions r))
                results)); try done.
    + intros r0 Hr0.
      apply (sourceExists_none_inv (x_url x) (x_content x) w);
        [by rewrite Hnone|done].
    + rewrite Hnc. unfold merged. by rewrite length_zip_with_l_eq.
Qed.

(** X11. Whatever [ingest] does, and however it ends, it leaves the tables in
    order. *)
Theorem ingest_keeps_well_formed (r : Rag.t) (input : string)
    (o : Rag.ingest_options) (w : world) :
  well_formed w -> well_formed (Rag.ingest r input o w).2.
Proof. apply ingest_well_formed. Qed.

End TableFacts.

Lemma omap_agree {A B} (f g : A -> option B) (l : list A) :
  Forall (fun x => f x = g x) l -> omap f l = omap g l.
Proof.
  induction 1 as [|x l Hx _ IH]; [done|]. cbn. by rewrite Hx, IH.
Qed.

Lemma omap_all_some {A B} (f : A -> option B) (g : A -> B) (l : list A) :
  Forall (fun x => f x = Some (g x)) l -> omap f l = g <$> l.
Proof.
  induction 1 as [|x l Hx _ IH]; [done|]. cbn. by rewrite Hx, IH.
Qed.

Lemma contents_of_createChunks text o :
  Chunker.content <$> Chunker.createChunks text o = Chunker.chunkText text o.
Proof.
  unfold Chunker.createChunks. apply list_eq. intros i.
  rewrite list_lookup_fmap, list_lookup_imap.
  by destruct (Chunker.chunkText text o !! i).
Qed.

Lemma chunks_of_merged (pieces : list Chunker.chunk)
    (embedResults : list embed_result) :
  length embedResults = length pieces ->
  Db.e_chunk <$> merged pieces embedResults = pieces.
Proof.
  revert embedResults.
  induction pieces as [|c pieces IH]; intros [|e rs] Hlen; try done.
  cbn. f_equal. apply IH. by injection Hlen.
Qed.

Section Stored.

Context `{Collaborators}.

Lemma find_by_id_new (rows : list Store.source_row) (row : Store.source_row) :
  Forall (fun r => Store.id r < Store.id row) rows ->
  find (fun r => bool_decide (Store.id r = Store.id row)) (rows ++ [row])
  = Some row.
Proof.
  intros Hlt. apply find_app_last; [|by apply bool_decide_eq_true_2].
  apply find_none_iff. intros x Hx. apply bool_decide_eq_false_2.
  pose proof (proj1 (Forall_forall _ _) Hlt x Hx) as Hx'. cbn in Hx'. lia.
Qed.

(** X12. The source of a successful [ingest] is found under the id
    returned, with the title, type, URL and content extracted. *)
Theorem ingested_source_is_found (r : Rag.t) (input : string)
    (o : Rag.ingest_options) (w w' : world) (sid : Z) (title st : string)
    (n : Z) (b : string) :
  well_formed w ->
  Rag.ingest r input o w = (Ok (Rag.success sid title st n b), w') ->
  exists row x,
    Db.getSource sid w' = (Ok (Some row), w')
    /\ extract (extract_calls w) input (Rag.o_sourceType o) = Ok x
    /\ Store.id row = sid
    /\ Store.title row = title
    /\ Store.source_type row = st
    /\ Store.url row = x_url x
    /\ Store.raw_content row = x_content x.
Proof.
  intros Hw Hingest.
  destruct (ingest_effect r input o w)
    as [(_ & _ & _ & _ & Hno)
       |(x & results & Hx & _ & _ & Hres & Hs & _)];
    rewrite Hingest in *; cbn [fst snd] in *.
  { by destruct (Hno sid title st n b). }
  injection Hres as -> -> -> _ _.
  exists (Db.source_row_of (next_source_id w) (source_of_extracted x o)), x.
  split; [|by repeat split].
  unfold Db.getSource, bind, get_world, ret. rewrite Hs.
  rewrite (find_by_id_new (sources w)
             (Db.source_row_of (next_source_id w) (source_of_extracted x o)));
    [done|].
  apply Hw.
Qed.

(** X13. After a successful [ingest] the search pool is the pool of before
    followed by one entry per chunk of the new source, in order, each with
    its embedding. *)
Theorem ingested_chunks_join_the_pool (r : Rag.t) (input : string)
    (o : Rag.ingest_options) (w w' : world) (sid : Z) (title st : string)
    (n : Z) (b : string) :
  well_formed w ->
  Rag.ingest r input o w = (Ok (Rag.success sid title st n b), w') ->
  exists before added x,
    Db.getAllChunksWithEmbeddings w = (Ok before, w)
    /\ Db.getAllChunksWithEmbeddings w' = (Ok (before ++ added), w')
    /\ extract (extract_calls w) input (Rag.o_sourceType o) = Ok x
    /\ Z.of_nat (length added) = n
    /\ v_content <$> added
       = Chunker.chunkText (x_content x) (Rag.chunkOptions r)
    /\ Forall (fun v => v_source_id v = sid
                        /\ v_title v = title
                        /\ v_source_type v = st
                        /\ v_url v = x_url x
                        /\ is_Some (v_embedding v)) added.
Proof.
  intros Hw Hingest.
  destruct (ingest_effect r input o w)
    as [(_ & _ & _ & _ & Hno)
       |(x & results & Hx & _ & Hlen & Hres & Hs & Hc & _)];
    rewrite Hingest in *; cbn [fst snd] in *.
  { by destruct (Hno sid title st n b). }
  injection Hres as -> -> -> -> _.
  set (pieces := Chunker.createChunks (x_content x) (Rag.chunkOptions r)) in *.
  set (row := Db.source_row_of (next_source_id w) (source_of_extracted x o)) in *.
  set (rows := imap (Db.chunk_row_of (next_source_id w) (next_chunk_id w))
                 (merged pieces results)) in *.
  eexists _, (view_of row <$> rows), x.
  split; [reflexivity|].
  split.
  { unfold Db.getAllChunksWithEmbeddings, bind, get_world, ret.
    rewrite Hs, Hc, omap_app. f_equal. f_equal. f_equal.
    - apply omap_agree.
      eapply Forall_impl; [exact (wf_chunk_source w Hw)|].
      cbn beta. intros c Hin. destruct (Store.embedding c); [|done].
      apply list_elem_of_fmap in Hin as (s & Hid & Hs').
      destruct (find_first (fun s0 => bool_decide (Store.id s0 = Store.source_id c))
                  (sources w) s Hs' (bool_decide_eq_true_2 _ (eq_sym Hid)))
        as (y & Hy & _).
      by rewrite (find_app_found _ _ _ _ Hy), Hy.
    - apply omap_all_some. apply Forall_forall. intros c Hin.
      apply list_elem_of_lookup in Hin as (i & Hi).
      unfold rows in Hi. rewrite list_lookup_imap in Hi.
      destruct (merged pieces results !! i) as [ec|]; [|done].
      injection Hi as <-. cbn [Store.embedding Db.chunk_row_of Store.source_id].
      assert (Hf : find (fun s => bool_decide (Store.id s = next_source_id w))
                     (sources w ++ [row]) = Some row)
        by apply (find_by_id_new (sources w) row), Hw.
      by rewrite Hf. }
  split; [done|].
  assert (Hrows : length rows = length pieces).
  { unfold rows. rewrite length_imap. unfold merged.
    by rewrite length_zip_with_l_eq. }
  split; [by rewrite length_fmap, Hrows|].
  split.
  { rewrite <- contents_of_createChunks. fold pieces.
    transitivity (Chunker.content <$> (Db.e_chunk <$> merged pieces results));
      [|by rewrite chunks_of_merged].
    rewrite <- !list_fmap_compose. unfold rows.
    apply list_eq. intros i.
    rewrite !list_lookup_fmap, list_lookup_imap.
    by destruct (merged pieces results !! i). }
  apply Forall_fmap. apply Forall_forall. intros c Hin.
  apply list_elem_of_lookup in Hin as (i & Hi).
  unfold rows in Hi. rewrite list_lookup_imap in Hi.
  destruct (merged pieces results !! i) as [ec|]; [|done].
  injection Hi as <-. cbn. by repeat split.
Qed.

End Stored.

Lemma fresh_is_well_formed `{Collaborators} : well_formed Sample.fresh.
Proof. split; cbn; constructor. Qed.

Lemma ingest_keeps_well_formed_witness :
  @well_formed Sample.all_up Sample.fresh
  /\ @well_formed Sample.all_up Sample.after_note.
Proof.
  split; [apply fresh_is_well_formed|].
  exact (@ingest_keeps_well_formed Sample.all_up Sample.local Sample.a_note
           Sample.plain Sample.fresh (@fresh_is_well_formed Sample.all_up)).
Defined.

Lemma ingested_source_is_found_witness :
  exists row,
    Db.getSource 1 Sample.after_note = (Ok (Some row), Sample.after_note)
    /\ Store.raw_content row = Sample.a_note.
Proof.
  destruct (@ingested_source_is_found Sample.all_up Sample.local Sample.a_note
              Sample.plain Sample.fresh Sample.after_note 1 Sample.a_note
              "text" 1 "sqlite" (@fresh_is_well_formed Sample.all_up) eq_refl)
    as (row & x & Hget & Hx & _ & _ & _ & _ & Hraw).
  exists row. split; [exact Hget|].
  injection Hx as <-. exact Hraw.
Defined.

Lemma ingested_chunks_join_the_pool_witness :
  exists added,
    Db.getAllChunksWithEmbeddings Sample.after_note
    = (Ok added, Sample.after_note)
    /\ v_content <$> added = [Sample.a_note].
Proof.
  destruct (@ingested_chunks_join_the_pool Sample.all_up Sample.local
              Sample.a_note Sample.plain Sample.fresh Sample.after_note 1
              Sample.a_note "text" 1 "sqlite"
              (@fresh_is_well_formed Sample.all_up) eq_refl)
    as (before & added & x & Hbefore & Hafter & Hx & _ & Hcontent & _).
  injection Hbefore as <-. injection Hx as <-.
  exists added. split; [exact Hafter|]. exact Hcontent.
Defined.

(** ** Statistics *)

Lemma num_or_zero (x : option Z) : Js.num_or x 0 = default 0 x.
Proof. destruct x as [v|]; [|done]. cbn. by destruct (Z.eqb_spec v 0). Qed.

Lemma count_loop_lookup (rows : list Store.source_row) (counts : gmap string Z)
    (t : string) :
  let k := Z.of_nat (length (filter (fun r => Store.source_type r = t) rows)) in
  fold_left (fun counts r =>
               <[Store.source_type r :=
                   Js.num_or (counts !! Store.source_type r) 0 + 1]> counts)
            rows counts !! t
  = if decide (k = 0) then counts !! t else Some (default 0 (counts !! t) + k).
Proof.
  revert counts. induction rows as [|r rows IH]; intros counts; [done|].
  cbn [fold_left]. rewrite IH. rewrite filter_cons.
  destruct (decide (Store.source_type r = t)) as [->|Hne].
  - rewrite lookup_insert_eq, num_or_zero. cbn [default length].
    generalize (length (filter (fun r0 => Store.source_type r0 = t) rows)).
    intros k. unfold id.
    rewrite (decide_False (P := Z.of_nat (S k) = 0)) by lia.
    destruct (decide (Z.of_nat k = 0)); f_equal; lia.
  - by rewrite lookup_insert_ne.
Qed.

Lemma count_by_type_lookup (rows : list Store.source_row) (t : string) :
  let k := Z.of_nat (length (filter (fun r => Store.source_type r = t) rows)) in
  Db.count_by_type rows !! t = if decide (k = 0) then None else Some k.
Proof.
  cbn zeta. unfold Db.count_by_type. rewrite count_loop_lookup.
  rewrite lookup_empty. cbn [default].
  destruct (decide _); [done|]. f_equal.
Qed.

(** X14. [getStats] counts the rows of both tables, and [byType] gives each
    source type that occurs the number of sources of that type, and no
    entry to a type that does not occur. *)
Theorem getStats_counts (w : world) :
  exists s,
    Db.getStats w = (Ok s, w)
    /\ Db.totalSources s = Z.of_nat (length (sources w))
    /\ Db.totalChunks s = Z.of_nat (length (chunks w))
    /\ forall t,
         Db.byType s !! t
         = if decide (sources_of_type t w = 0) then None
           else Some (sources_of_type t w).
Proof.
  eexists. split; [reflexivity|]. split; [done|]. split; [done|].
  intros t. apply count_by_type_lookup.
Qed.

(** X15. A successful [ingest] shows in the statistics: one more source, one
    more of its type, and as many more chunks as it reports. *)
Theorem ingest_shows_in_stats `{Collaborators} (r : Rag.t) (input : string)
    (o : Rag.ingest_options) (w w' : world) (sid : Z) (title st : string)
    (n : Z) (b : string) (s : Db.stats) :
  Rag.ingest r input o w = (Ok (Rag.success sid title st n b), w') ->
  (Db.getStats w).1 = Ok s ->
  exists s',
    Db.getStats w' = (Ok s', w')
    /\ Db.totalSources s' = Db.totalSources s + 1
    /\ Db.totalChunks s' = Db.totalChunks s + n
    /\ Db.byType s' !! st = Some (default 0 (Db.byType s !! st) + 1)
    /\ forall t, t <> st -> Db.byType s' !! t = Db.byType s !! t.
Proof.
  intros Hingest [= <-].
  destruct (ingest_effect r input o w)
    as [(_ & _ & _ & _ & Hno)
       |(x & results & Hx & _ & Hlen & Hres & Hs & Hc & _)];
    rewrite Hingest in *; cbn [fst snd] in *.
  { by destruct (Hno sid title st n b). }
  injection Hres as -> -> -> -> _.
  eexists. split; [reflexivity|].
  cbn [Db.totalSources Db.totalChunks Db.byType].
  rewrite Hs, Hc, !length_app, length_imap. cbn [length].
  split; [lia|]. split.
  { unfold merged. rewrite length_zip_with_l_eq by done. lia. }
  split.
  - rewrite !count_by_type_lookup, filter_app, length_app.
    rewrite filter_cons_True by done. rewrite filter_nil. cbn [length].
    destruct (decide (Z.of_nat (length (filter _ (sources w))) = 0)) as [Hz|Hz].
    + rewrite decide_False by lia. cbn [default]. f_equal. lia.
    + rewrite decide_False by lia. cbn [default]. unfold id. f_equal. lia.
  - intros t Ht. rewrite !count_by_type_lookup, filter_app, length_app.
    rewrite filter_cons_False by (cbn; congruence).
    rewrite filter_nil. cbn [length]. by rewrite Nat.add_0_r.
Qed.

Lemma ingest_shows_in_stats_witness :
  exists s',
    Db.getStats Sample.after_note = (Ok s', Sample.after_note)
    /\ Db.totalSources s' = 1
    /\ Db.totalChunks s' = 1
    /\ Db.byType s' !! "text" = Some 1.
Proof.
  destruct (@ingest_shows_in_stats Sample.all_up Sample.local Sample.a_note
              Sample.plain Sample.fresh Sample.after_note 1 Sample.a_note
              "text" 1 "sqlite" _ eq_refl eq_refl)
    as (s' & Hget & Hs & Hc & Ht & _).
  exists s'. split; [exact Hget|]. rewrite Hs, Hc, Ht. by repeat split.
Defined.

(** ** Deleting a source *)

Section ByKey.

Context {A : Type} (f : A -> Z).

Lemma count_key_once (l : list A) (i : Z) :
  NoDup (f <$> l) ->
  length (filter (fun r => f r = i) l)
  = if decide (i ∈ f <$> l) then 1%nat else 0%nat.
Proof.
  induction l as [|a l IH]; [done|].
  rewrite fmap_cons, NoDup_cons. intros [Ha Hl].
  rewrite filter_cons. destruct (decide (f a = i)) as [<-|Hne].
  - rewrite decide_True by left. cbn [length]. rewrite (IH Hl).
    by rewrite decide_False.
  - rewrite (IH Hl). destruct (decide (i ∈ f <$> l)) as [Hin|Hout].
    + rewrite decide_True; [done|by right].
    + rewrite decide_False; [done|].
      rewrite not_elem_of_cons. split; [congruence|done].
Qed.

Lemma find_key_deleted (l : list A) (i : Z) :
  find (fun r => bool_decide (f r = i)) (filter (fun r => f r <> i) l) = None.
Proof.
  apply find_none_iff. intros x [Hne _]%list_elem_of_filter.
  by apply bool_decide_eq_false_2.
Qed.

Lemma find_key_kept (l : list A) (i j : Z) :
  j <> i ->
  find (fun r => bool_decide (f r = j)) (filter (fun r => f r <> i) l)
  = find (fun r => bool_decide (f r = j)) l.
Proof.
  intros Hne. induction l as [|a l IH]; [done|].
  rewrite filter_cons. destruct (decide (f a <> i)) as [Ha|Ha]; cbn [find].
  - by rewrite IH.
  - rewrite IH. rewrite bool_decide_eq_false_2; [done|].
    intros Hj. apply Ha. congruence.
Qed.

End ByKey.

Lemma omap_filter_sublist {A B} (f : A -> option B) (P : A -> Prop)
    `{!forall x, Decision (P x)} (l : list A) :
  omap f (filter P l) `sublist_of` omap f l.
Proof.
  induction l as [|a l IH]; [done|].
  rewrite filter_cons. destruct (decide (P a)); cbn.
  - destruct (f a); [by apply sublist_skip|done].
  - destruct (f a); [by apply sublist_cons|done].
Qed.

Lemma NoDup_fmap_same {A B} (f : A -> B) (l : list A) (x y : A) :
  NoDup (f <$> l) -> x ∈ l -> y ∈ l -> f x = f y -> x = y.
Proof.
  induction l as [|a l IH]; [by intros _ ?%elem_of_nil|].
  rewrite fmap_cons, NoDup_cons. intros [Ha Hl] Hx Hy Hxy.
  apply elem_of_cons in Hx as [->|Hx]; apply elem_of_cons in Hy as [->|Hy];
    [done| | |by apply IH].
  - destruct Ha. rewrite Hxy. by apply list_elem_of_fmap_2.
  - destruct Ha. rewrite <- Hxy. by apply list_elem_of_fmap_2.
Qed.

Lemma NoDup_omap_same {A B} (f : A -> option B) (l : list A) (x y : A) (b : B) :
  NoDup (omap f l) -> x ∈ l -> y ∈ l -> f x = Some b -> f y = Some b -> x = y.
Proof.
  induction l as [|a l IH]; [by intros _ ?%elem_of_nil|].
  cbn. intros Hnd Hx Hy Hfx Hfy.
  assert (Hin : forall z, z ∈ l -> f z = Some b -> b ∈ omap f l).
  { intros z Hz Hfz. apply list_elem_of_omap. by exists z. }
  apply elem_of_cons in Hx as [->|Hx]; apply elem_of_cons in Hy as [->|Hy];
    [done| | |].
  - rewrite Hfx in Hnd. apply NoDup_cons in Hnd as [Hb _].
    destruct Hb. by apply (Hin y).
  - rewrite Hfy in Hnd. apply NoDup_cons in Hnd as [Hb _].
    destruct Hb. by apply (Hin x).
  - apply IH; try done. destruct (f a); [|done].
    by apply NoDup_cons in Hnd as [_ ?].
Qed.

Section Delete.

Context `{Collaborators}.

Lemma deleteSource_world (i : Z) (w : world) :
  Db.deleteSource i w
  = (Ok (Z.of_nat (length (filter (fun r => Store.id r = i) (sources w)))),
     set_chunks (filter (fun c => Store.source_id c <> i))
       (set_sources (filter (fun r => Store.id r <> i)) w)).
Proof. reflexivity. Qed.

Lemma deleteSource_well_formed (i : Z) (w : world) :
  well_formed w -> well_formed (Db.deleteSource i w).2.
Proof.
  intros [Hids Honce Hcids Hconce Hrefs Hhash Hurl Hkeys].
  rewrite deleteSource_world. cbn [snd].
  split; cbn [sources chunks next_source_id next_chunk_id set_chunks
                set_sources].
  - apply Forall_forall. intros r [_ Hr]%list_elem_of_filter.
    by apply (proj1 (Forall_forall _ _) Hids).
  - eapply sublist_NoDup; [exact Honce|]. apply fmap_sublist, sublist_filter.
  - apply Forall_forall. intros c [_ Hc]%list_elem_of_filter.
    by apply (proj1 (Forall_forall _ _) Hcids).
  - eapply sublist_NoDup; [exact Hconce|]. apply fmap_sublist, sublist_filter.
  - apply Forall_forall. intros c [Hne Hc]%list_elem_of_filter.
    pose proof (proj1 (Forall_forall _ _) Hrefs c Hc) as Hin. cbn beta in Hin.
    apply list_elem_of_fmap in Hin as (s & Hid & Hs).
    apply list_elem_of_fmap. exists s. split; [done|].
    apply list_elem_of_filter. split; [congruence|done].
  - eapply sublist_NoDup; [exact Hhash|]. apply fmap_sublist, sublist_filter.
  - eapply sublist_NoDup; [exact Hurl|]. apply omap_filter_sublist.
  - apply Forall_forall. intros r [_ Hr]%list_elem_of_filter.
    by apply (proj1 (Forall_forall _ _) Hkeys).
Qed.

Lemma pool_after_delete (i : Z) (w : world) (pool : list chunk_view) :
  Db.getAllChunksWithEmbeddings w = (Ok pool, w) ->
  Db.getAllChunksWithEmbeddings (Db.deleteSource i w).2
  = (Ok (filter (fun v => v_source_id v <> i) pool), (Db.deleteSource i w).2).
Proof.
  rewrite deleteSource_world.
  unfold Db.getAllChunksWithEmbeddings, bind, get_world, ret.
  intros [= <-]. cbn [snd sources chunks set_chunks set_sources].
  f_equal. f_equal.
  induction (chunks w) as [|c cs IH]; [done|].
  rewrite filter_cons. destruct (decide (Store.source_id c <> i)) as [Hne|Heq].
  - cbn [omap list_omap]. rewrite (find_key_kept Store.id) by done.
    destruct (Store.embedding c) as [e|]; [|exact IH].
    destruct (find _ (sources w)) as [s|]; [|exact IH].
    rewrite filter_cons_True by done. by rewrite <- IH.
  - cbn [omap list_omap].
    destruct (Store.embedding c) as [e|]; [|exact IH].
    destruct (find _ (sources w)) as [s|]; [|exact IH].
    rewrite filter_cons_False by done. exact IH.
Qed.

(** X16. [deleteSource] removes the source and all its chunks and nothing
    else: the answer counts the source, the tables stay in order, the source
    is not found any more, every other source is, and the search pool loses
    exactly the chunks of the source. *)
Theorem deleteSource_removes_source_and_chunks (w : world) (i : Z) :
  well_formed w ->
  exists w' pool,
    Db.deleteSource i w
    = (Ok (if decide (i ∈ Store.id <$> sources w) then 1 else 0), w')
    /\ well_formed w'
    /\ Db.getSource i w' = (Ok None, w')
    /\ (forall j, j <> i -> (Db.getSource j w').1 = (Db.getSource j w).1)
    /\ Db.getAllChunksWithEmbeddings w = (Ok pool, w)
    /\ Db.getAllChunksWithEmbeddings w'
       = (Ok (filter (fun v => v_source_id v <> i) pool), w').
Proof.
  intros Hw. eexists _, _. split.
  { rewrite deleteSource_world.
    rewrite (count_key_once Store.id) by apply Hw.
    by destruct (decide _). }
  split; [exact (deleteSource_well_formed i w Hw)|].
  split.
  { unfold Db.getSource, bind, get_world, ret.
    cbn [sources set_chunks set_sources].
    by rewrite (find_key_deleted Store.id). }
  split.
  { intros j Hj. unfold Db.getSource, bind, get_world, ret.
    cbn [fst sources set_chunks set_sources].
    by rewrite (find_key_kept Store.id). }
  split; [reflexivity|].
  exact (pool_after_delete i w _ eq_refl).
Qed.

(** X17. Once a source is deleted, its URL and its content are no duplicate
    any more, and its id is not given again. *)
Theorem deleted_source_is_no_duplicate (w : world) (s : Store.source_row) :
  well_formed w ->
  s ∈ sources w ->
  let w' := (Db.deleteSource (Store.id s) w).2 in
  Db.sourceExists (Store.url s) (Store.raw_content s) w' = (Ok None, w')
  /\ Store.id s < next_source_id w'.
Proof.
  intros Hw Hs. cbn zeta. split.
  - apply sourceExists_none_intro. rewrite deleteSource_world.
    cbn [snd sources set_chunks set_sources].
    intros r [Hne Hr]%list_elem_of_filter Hsame. apply Hne. f_equal.
    destruct (proj1 (Forall_forall _ _) (wf_keys w Hw) s Hs) as [Hu Hh].
    destruct Hsame as [(n & Hn & Hrn)|Hhash].
    + apply (NoDup_omap_same Store.url_normalized (sources w) r s n);
        [apply Hw|done|done|done|congruence].
    + apply (NoDup_fmap_same Store.content_hash (sources w) r s);
        [apply Hw|done|done|congruence].
  - rewrite deleteSource_world.
    cbn [snd next_source_id set_chunks set_sources].
    exact (proj1 (Forall_forall _ _) (wf_source_ids w Hw) s Hs).
Qed.

End Delete.

Lemma after_note_is_well_formed : @well_formed Sample.all_up Sample.after_note.
Proof.
  apply (@ingest_well_formed Sample.all_up Sample.local Sample.a_note
           Sample.plain Sample.fresh), fresh_is_well_formed.
Qed.

Lemma deleteSource_removes_source_and_chunks_witness :
  exists w',
    Db.deleteSource 1 Sample.after_note = (Ok 1, w')
    /\ Db.getSource 1 w' = (Ok None, w')
    /\ @well_formed Sample.all_up w'.
Proof.
  destruct (@deleteSource_removes_source_and_chunks Sample.all_up
              Sample.after_note 1 after_note_is_well_formed)
    as (w' & pool & Hdel & Hw' & Hget & _).
  exists w'. split; [|split; [exact Hget|exact Hw']].
  rewrite Hdel.
  assert (Hin : bool_decide (1 ∈ Store.id <$> sources Sample.after_note) = true)
    by (vm_compute; reflexivity).
  apply bool_decide_eq_true in Hin. by rewrite decide_True by exact Hin.
Defined.

Lemma deleted_source_is_no_duplicate_witness :
  @Db.sourceExists Sample.all_up None Sample.a_note
    (Db.deleteSource 1 Sample.after_note).2
  = (Ok None, (Db.deleteSource 1 Sample.after_note).2).
Proof.
  assert (Hs : sources Sample.after_note = [Sample.note_row])
    by (vm_compute; reflexivity).
  assert (Hin : Sample.note_row ∈ sources Sample.after_note)
    by (rewrite Hs; left).
  exact (proj1 (@deleted_source_is_no_duplicate Sample.all_up
                  Sample.after_note Sample.note_row
                  after_note_is_well_formed Hin)).
Defined.

(** ** Search, end to end *)

Lemma take0_sublist {A} (n : Z) (l : list A) : Js.take0 n l `sublist_of` l.
Proof. unfold Js.take0. destruct (n <? 0); apply sublist_take. Qed.

Lemma take0_length {A} (n : Z) (l : list A) :
  0 <= n -> Z.of_nat (length (Js.take0 n l)) <= n.
Proof.
  intros Hn. unfold Js.take0. destruct (Z.ltb_spec n 0); [lia|].
  rewrite length_take. lia.
Qed.

Lemma length_substring0 (n : nat) (s : string) :
  (String.length (String.substring 0 n s) <= n)%nat.
Proof.
  revert s. induction n as [|n IH]; intros [|c s]; cbn; try lia.
  specialize (IH s). lia.
Qed.

Lemma slice0_len (n : Z) (s : string) : 0 <= n -> Js.len (Js.slice0 n s) <= n.
Proof.
  intros Hn. unfold Js.slice0, Js.len. destruct (Z.ltb_spec n 0); [lia|].
  pose proof (length_substring0 (Z.to_nat n) s). lia.
Qed.

Lemma StronglySorted_sublist {A} (R : A -> A -> Prop) (l1 l2 : list A) :
  l1 `sublist_of` l2 -> StronglySorted R l2 -> StronglySorted R l1.
Proof.
  induction 1 as [|x l1 l2 Hsub IH|x l1 l2 Hsub IH]; intros Hs; [done| |].
  - apply StronglySorted_inv in Hs as [Hs Hx]. constructor; [by apply IH|].
    apply Forall_forall. intros y Hy.
    apply (proj1 (Forall_forall _ _) Hx). by eapply elem_of_sublist.
  - apply StronglySorted_inv in Hs as [Hs _]. by apply IH.
Qed.

Lemma dedupe_first (results : list scored_row) :
  Rag.dedupe ∅ results = first_per_source results.
Proof.
  rewrite dedupe_filter_first.
  induction (first_per_source results) as [|x l IH]; [done|].
  rewrite filter_cons_True by set_solver. by rewrite IH.
Qed.

(** What [finish_search] keeps is a sublist of what it is given. *)
Lemma finish_search_sublist (o : Rag.search_options) (results : list scored_row) :
  exists kept,
    kept `sublist_of` results
    /\ Rag.finish_search o results
       = map (Rag.project (Js.num_or (Rag.maxCharsPerResult o) 2500)) kept
    /\ (0 <= Js.num_or (Rag.topK o) 10 ->
        Z.of_nat (length kept) <= Js.num_or (Rag.topK o) 10)
    /\ (Rag.dedupeBySource o <> Some false -> NoDup (source_of <$> kept)).
Proof.
  unfold Rag.finish_search.
  set (filtered := if match Rag.dedupeBySource o with
                      | Some false => false | _ => true end
                   then Rag.dedupe ∅ results else results).
  assert (Hf : filtered `sublist_of` results).
  { unfold filtered. destruct (Rag.dedupeBySource o) as [[]|];
      rewrite ?dedupe_first; try done; apply first_per_source_sublist. }
  exists (Js.take0 (Js.num_or (Rag.topK o) 10) filtered).
  split; [etrans; [apply take0_sublist|exact Hf]|].
  split; [done|]. split; [apply take0_length|].
  intros Hon.
  apply (sublist_NoDup _ (source_of <$> first_per_source results));
    [apply first_per_source_sources|].
  apply fmap_sublist. etrans; [apply take0_sublist|].
  unfold filtered. destruct (Rag.dedupeBySource o) as [[]|];
    rewrite ?dedupe_first; done.
Qed.

Section Search.

Context `{Collaborators}.

(** [search] embeds the query, asks the backend, and finishes. *)
Lemma search_inv (r : Rag.t) (query : string) (o : Rag.search_options)
    (w w' : world) (hits : list Rag.hit) :
  Rag.search r query o w = (Ok hits, w') ->
  exists q w1 results,
    Embeddings.embed (Rag.embedder r) query w = (Ok q, w1)
    /\ hits = Rag.finish_search o results
    /\ (Rag.db r <> Rag.SupabaseDatabase ->
        exists pool,
          Db.getAllChunksWithEmbeddings w1 = (Ok pool, w1)
          /\ results
             `sublist_of` Rag.rank (Rag.score_all (embedding q) pool)).
Proof.
  unfold Rag.search. intros Hs.
  apply bind_Ok_inv in Hs as (q & w1 & Hq & Hs).
  apply bind_Ok_inv in Hs as (results & w2 & Hr & Hs).
  injection Hs as <- <-.
  exists q, w1, results. split; [done|]. split; [done|].
  intros Hlocal. eexists. split; [reflexivity|].
  destruct (Rag.db r); cbn [Rag.has_vectorSearch Rag.vectorSearch] in Hr;
    try done.
  - injection Hr as <- _. done.
  - injection Hr as <- _. apply take0_sublist.
Qed.

Lemma search_tables (r : Rag.t) (query : string) (o : Rag.search_options)
    (w : world) :
  let w' := (Rag.search r query o w).2 in
  sources w' = sources w /\ chunks w' = chunks w
  /\ next_source_id w' = next_source_id w
  /\ next_chunk_id w' = next_chunk_id w
  /\ lock w' = lock w
  /\ extract_calls w' = extract_calls w.
Proof.
  cbn zeta. unfold Rag.search, bind.
  pose proof (quiet_embed (Rag.embedder r) query w)
    as (Hs & Hc & Hns & Hnc & Hl & Hx & _).
  destruct (Embeddings.embed (Rag.embedder r) query w) as [[q|e] w1];
    cbn [snd] in *; [|done].
  destruct (Rag.db r); cbn [Rag.has_vectorSearch Rag.vectorSearch]; try done.
  unfold bind, get_world, modify.
  destruct (match_rag_chunks _ _ _); done.
Qed.

(** X18. [search] reads: it changes neither table, no counter of ids, not the
    lock, and extracts nothing. *)
Theorem search_only_reads (r : Rag.t) (query : string)
    (o : Rag.search_options) (w : world) :
  let w' := (Rag.search r query o w).2 in
  sources w' = sources w /\ chunks w' = chunks w
  /\ next_source_id w' = next_source_id w
  /\ next_chunk_id w' = next_chunk_id w
  /\ lock w' = lock w
  /\ extract_calls w' = extract_calls w.
Proof. apply search_tables. Qed.

(** X19. [search] answers with at most [topK] hits (10 when no number or 0 is
    given), each text cut to [maxCharsPerResult] characters (2500 by
    default), and with no two hits of one source unless [dedupeBySource]
    is [false]. *)
Theorem search_answer_is_bounded (r : Rag.t) (query : string)
    (o : Rag.search_options) (w w' : world) (hits : list Rag.hit) :
  Rag.search r query o w = (Ok hits, w') ->
  (0 <= Js.num_or (Rag.topK o) 10 ->
   Z.of_nat (length hits) <= Js.num_or (Rag.topK o) 10)
  /\ (0 <= Js.num_or (Rag.maxCharsPerResult o) 2500 ->
      Forall (fun h => Js.len (Rag.h_content h)
                       <= Js.num_or (Rag.maxCharsPerResult o) 2500) hits)
  /\ (Rag.dedupeBySource o <> Some false ->
      NoDup (Rag.h_sourceId <$> hits)).
Proof.
  intros Hs. apply search_inv in Hs as (q & w1 & results & _ & -> & _).
  destruct (finish_search_sublist o results)
    as (kept & _ & -> & Hlen & Hnd).
  split; [by rewrite length_map|]. split.
  - intros Hm. apply Forall_forall. intros h Hh.
    apply list_elem_of_fmap in Hh as (x & -> & _). cbn. by apply slice0_len.
  - intros Hon. specialize (Hnd Hon).
    change (map ?f ?l) with (f <$> l). by rewrite <- list_fmap_compose.
Qed.

(** X20. On a database that ranks in memory, the hits come in descending order
    of similarity: no hit is more similar to the query than one before
    it. The comparator is to be consistent on the scored pool, as
    [Array.prototype.sort] asks. *)
Theorem search_hits_descend (r : Rag.t) (query : string)
    (o : Rag.search_options) (w w' : world) (hits : list Rag.hit) :
  Rag.db r <> Rag.SupabaseDatabase ->
  Rag.search r query o w = (Ok hits, w') ->
  (forall q w1 pool,
     Embeddings.embed (Rag.embedder r) query w = (Ok q, w1) ->
     Db.getAllChunksWithEmbeddings w1 = (Ok pool, w1) ->
     consistent_comparator Rag.by_similarity
       (Rag.score_all (embedding q) pool)) ->
  forall (i j : nat) (a b : Rag.hit),
    hits !! i = Some a -> hits !! j = Some b -> (i < j)%nat ->
    (0 <? Rag.h_similarity b - Rag.h_similarity a)%float = false.
Proof.
  intros Hlocal Hs Hcons i j a b Hi Hj Hij.
  apply search_inv in Hs as (q & w1 & results & Hq & -> & Hpool).
  destruct (Hpool Hlocal) as (pool & Hp & Hsub).
  specialize (Hcons q w1 pool Hq Hp).
  destruct (finish_search_sublist o results) as (kept & Hkept & Hfin & _).
  rewrite Hfin in Hi, Hj.
  change (map ?f ?l) with (f <$> l) in Hi, Hj.
  rewrite list_lookup_fmap in Hi, Hj.
  destruct (kept !! i) as [x|] eqn:Hx; [|done].
  destruct (kept !! j) as [y|] eqn:Hy; [|done].
  injection Hi as <-. injection Hj as <-. cbn [Rag.h_similarity Rag.project].
  apply not_after_by_similarity.
  apply (StronglySorted_lookup
           (fun a b => Rag.sort_compare Rag.by_similarity a b <> Gt)
           kept i j x y); [|done..].
  apply (StronglySorted_sublist _ kept
           (Rag.rank (Rag.score_all (embedding q) pool)));
    [by etrans|].
  by apply (sort_sorted Rag.by_similarity
              (Rag.score_all (embedding q) pool)).
Qed.

Lemma pool_sources (w : world) (pool : list chunk_view) (v : chunk_view) :
  Db.getAllChunksWithEmbeddings w = (Ok pool, w) ->
  v ∈ pool ->
  exists c, c ∈ chunks w /\ v_source_id v = Store.source_id c.
Proof.
  unfold Db.getAllChunksWithEmbeddings, bind, get_world, ret.
  intros [= <-] Hv. apply list_elem_of_omap in Hv as (c & Hc & Hv).
  exists c. split; [done|].
  destruct (Store.embedding c); [|done].
  destruct (find _ (sources w)); [|done]. by injection Hv as <-.
Qed.

(** X21. No hit of a deleted source: on a database that ranks in memory, a
    search after [deleteSource] returns nothing of the source deleted. *)
Theorem deleted_source_is_not_found (r : Rag.t) (query : string)
    (o : Rag.search_options) (w w' : world) (i : Z) (hits : list Rag.hit) :
  Rag.db r <> Rag.SupabaseDatabase ->
  Rag.search r query o (Db.deleteSource i w).2 = (Ok hits, w') ->
  forall h, h ∈ hits -> Rag.h_sourceId h <> i.
Proof.
  intros Hlocal Hs h Hh.
  apply search_inv in Hs as (q & w1 & results & Hq & -> & Hpool).
  destruct (Hpool Hlocal) as (pool & Hp & Hsub).
  destruct (finish_search_sublist o results) as (kept & Hkept & Hfin & _).
  rewrite Hfin in Hh. apply list_elem_of_fmap in Hh as (x & -> & Hx).
  cbn [Rag.h_sourceId Rag.project].
  assert (Hin : x ∈ Rag.score_all (embedding q) pool).
  { eapply (sort_subseteq Rag.by_similarity); [done|].
    eapply elem_of_sublist; [|exact Hsub].
    by eapply elem_of_sublist. }
  apply list_elem_of_fmap in Hin as (v & -> & Hv). cbn [row].
  destruct (pool_sources _ _ _ Hp Hv) as (c & Hc & ->).
  pose proof (quiet_embed (Rag.embedder r) query (Db.deleteSource i w).2)
    as (_ & Hchunks & _).
  rewrite Hq in Hchunks. cbn [snd] in Hchunks.
  rewrite Hchunks, deleteSource_world in Hc.
  cbn [snd chunks set_chunks set_sources] in Hc.
  by apply list_elem_of_filter in Hc as [Hne _].
Qed.

End Search.

Lemma search_answer_is_bounded_witness :
  exists hits w',
    @Rag.search Sample.all_up Sample.local "plants" Rag.default_search
      Sample.after_two = (Ok hits, w')
    /\ Z.of_nat (length hits) <= 10
    /\ NoDup (Rag.h_sourceId <$> hits).
Proof.
  assert (Hs : exists hits w',
             @Rag.search Sample.all_up Sample.local "plants"
               Rag.default_search Sample.after_two = (Ok hits, w'))
    by (vm_compute; eexists _, _; reflexivity).
  destruct Hs as (hits & w' & Hs). exists hits, w'. split; [exact Hs|].
  destruct (@search_answer_is_bounded Sample.all_up Sample.local "plants"
              Rag.default_search Sample.after_two w' hits Hs)
    as (Hlen & _ & Hnd).
  split; [apply Hlen; vm_compute; discriminate|apply Hnd; discriminate].
Defined.

Lemma search_hits_descend_witness :
  exists a b w',
    @Rag.search Sample.all_up Sample.local "plants" Rag.default_search
      Sample.after_two = (Ok [a; b], w')
    /\ (0 <? Rag.h_similarity b - Rag.h_similarity a)%float = false.
Proof.
  assert (Hs : exists a b w',
             @Rag.search Sample.all_up Sample.local "plants"
               Rag.default_search Sample.after_two = (Ok [a; b], w'))
    by (vm_compute; eexists _, _, _; reflexivity).
  destruct Hs as (a & b & w' & Hs). exists a, b, w'. split; [exact Hs|].
  apply (@search_hits_descend Sample.all_up Sample.local "plants"
           Rag.default_search Sample.after_two w' [a; b]
           ltac:(discriminate) Hs) with (i := 0%nat) (j := 1%nat);
    [|reflexivity|reflexivity|lia].
  intros q w1 pool Hq Hp. apply consistent_on_sound.
  vm_compute in Hq. injection Hq as <- <-.
  vm_compute in Hp. injection Hp as <-.
  vm_compute. reflexivity.
Defined.

Lemma deleted_source_is_not_found_witness :
  exists hits w',
    @Rag.search Sample.all_up Sample.local "plants" Rag.default_search
      (Db.deleteSource 1 Sample.after_two).2 = (Ok hits, w')
    /\ Forall (fun h => Rag.h_sourceId h <> 1) hits.
Proof.
  assert (Hs : exists hits w',
             @Rag.search Sample.all_up Sample.local "plants"
               Rag.default_search (Db.deleteSource 1 Sample.after_two).2
             = (Ok hits, w'))
    by (vm_compute; eexists _, _; reflexivity).
  destruct Hs as (hits & w' & Hs). exists hits, w'. split; [exact Hs|].
  apply Forall_forall.
  exact (@deleted_source_is_not_found Sample.all_up Sample.local "plants"
           Rag.default_search Sample.after_two w' 1 hits
           ltac:(discriminate) Hs).
Defined.

(** ** The lock, the constructor and failures of [ingest] *)

Lemma releaseLock_local (r : Rag.t) (w : world) :
  Rag.isAsync r = false -> lock (Rag.releaseLock r w) = None.
Proof.
  intros Hlocal. unfold Rag.releaseLock. rewrite Hlocal.
  by destruct (lock w) eqn:Hl.
Qed.

(** X22. On the local backend an [ingest] that has taken the lock gives it
    back, whether it stores the source, finds a duplicate, or throws. *)
Theorem ingest_releases_lock `{Collaborators} (r : Rag.t) (input : string)
    (o : Rag.ingest_options) (w w1 : world) :
  Rag.isAsync r = false ->
  Rag.acquireLock r w = (Ok tt, w1) ->
  lock (Rag.ingest r input o w).2 = None.
Proof.
  intros Hlocal Hacq. rewrite (ingest_after_lock r input o w w1 Hacq).
  destruct (Rag.ingest_body r input o w1) as [res w']. cbn [snd].
  by apply releaseLock_local.
Qed.

Lemma ingest_releases_lock_witness :
  lock (@Rag.ingest Sample.all_down Sample.local Sample.a_note Sample.plain
          (set_lock (Some Sample.old_marker) Sample.fresh)).2 = None.
Proof.
  apply (@ingest_releases_lock Sample.all_down Sample.local Sample.a_note
           Sample.plain (set_lock (Some Sample.old_marker) Sample.fresh)
           (Rag.acquireLock Sample.local
              (set_lock (Some Sample.old_marker) Sample.fresh)).2);
    [reflexivity|vm_compute; reflexivity].
Defined.

(** X23. When extraction throws, [ingest] throws the same error: nothing is
    embedded, nothing stored, and the lock is given back. *)
Theorem ingest_fails_with_extraction `{Collaborators} (r : Rag.t)
    (input : string) (o : Rag.ingest_options) (w w1 : world) (e : string) :
  Rag.acquireLock r w = (Ok tt, w1) ->
  extract (extract_calls w) input (Rag.o_sourceType o) = Throw e ->
  exists w',
    Rag.ingest r input o w = (Throw e, w')
    /\ nothing_stored_or_embedded w w'
    /\ (Rag.isAsync r = false -> lock w' = None).
Proof.
  intros Hacq Hext.
  pose proof (acquireLock_only_lock r w w1 _ Hacq) as Hw1.
  assert (Hcalls : extract_calls w1 = extract_calls w) by (by rewrite Hw1).
  rewrite (ingest_after_lock r input o w w1 Hacq).
  unfold Rag.ingest_body, bind, Rag.call_extract. rewrite Hcalls, Hext.
  eexists. split; [reflexivity|]. split.
  - rewrite releaseLock_only_lock, Hw1. by repeat split.
  - apply releaseLock_local.
Qed.

(** X24. What [new RAG(config)] throws and builds. It throws only what
    [createClient] throws (on the Supabase backend), what the opening of
    the local database throws (on any other backend), or the complaint
    about the two settings of Supabase, and this one only when the
    configuration itself names the backend: a detected backend never
    lacks them. The coordinator built is asynchronous exactly when its
    database is the Supabase one, and so takes the lock exactly on the
    local database; its database has a [vectorSearch] and was opened by
    its driver. *)
Theorem new_coordinator `{Rag.Drivers} (c : Rag.config) (e : Rag.env)
    (p : Z) :
  let dbPath := Js.str_or (Rag.c_dbPath c) "./rag.db" in
  let backend := Js.str_or (Rag.c_backend c) (Rag.detectBackend e) in
  let settings url key :=
    Embeddings.key_of (Rag.SUPABASE_URL e) = Some url
    /\ Embeddings.key_of
         (Rag.or_else (Rag.SUPABASE_KEY e) (Rag.SUPABASE_ANON_KEY e))
       = Some key in
  (forall error,
     Rag.new c e p = Throw error ->
     (backend = "supabase"
      /\ ((Rag.c_backend c <> None
           /\ error
              = "SUPABASE_URL and SUPABASE_KEY required for Supabase backend")
          \/ exists url key,
               settings url key /\ Rag.createClient url key = Throw error))
     \/ (backend <> "supabase" /\ Rag.openDatabase dbPath = Throw error))
  /\ (forall r,
       Rag.new c e p = Ok r ->
       Rag.has_vectorSearch (Rag.db r) = true
       /\ (Rag.isAsync r = true <-> Rag.db r = Rag.SupabaseDatabase)
       /\ (Rag.isAsync r = false <-> Rag.db r = Rag.SQLiteDatabase)
       /\ Rag.backend r = backend
       /\ (Rag.db r = Rag.SupabaseDatabase ->
           exists url key,
             settings url key /\ Rag.createClient url key = Ok tt)
       /\ (Rag.db r = Rag.SQLiteDatabase ->
           Rag.openDatabase dbPath = Ok tt)).
Proof.
  cbv zeta. unfold Rag.new, Rag.createDatabase. split.
  - intros error.
    destruct (decide (Js.str_or (Rag.c_backend c) (Rag.detectBackend e)
                      = "supabase")) as [Hs|Hs].
    + intros Hthrow. left. split; [done|].
      destruct (Embeddings.key_of (Rag.SUPABASE_URL e)) as [url|] eqn:Hurl.
      * destruct (Embeddings.key_of (Rag.or_else _ _)) as [key|] eqn:Hkey.
        -- right. exists url, key. split; [done|].
           destruct (Rag.createClient url key) as [[]|err]; [done|].
           by injection Hthrow as ->.
        -- left. injection Hthrow as <-. split; [|done].
           intros Hnone. rewrite Hnone in Hs. cbn [Js.str_or] in Hs.
           unfold Rag.detectBackend in Hs. by rewrite Hurl, Hkey in Hs.
      * left. injection Hthrow as <-. split; [|done].
        intros Hnone. rewrite Hnone in Hs. cbn [Js.str_or] in Hs.
        unfold Rag.detectBackend in Hs. by rewrite Hurl in Hs.
    + intros Hthrow. right. split; [done|].
      destruct (Rag.openDatabase _) as [[]|err]; [done|].
      by injection Hthrow as ->.
  - intros r.
    destruct (decide (Js.str_or (Rag.c_backend c) (Rag.detectBackend e)
                      = "supabase")) as [Hs|Hs].
    + destruct (Embeddings.key_of (Rag.SUPABASE_URL e)) as [url|]; [|done].
      destruct (Embeddings.key_of (Rag.or_else _ _)) as [key|]; [|done].
      destruct (Rag.createClient url key) as [[]|err] eqn:Hclient; [|done].
      intros [= <-]. cbn. rewrite bool_decide_eq_true_2 by done.
      repeat split; try done. intros _. by exists url, key.
    + destruct (Rag.openDatabase _) as [[]|err] eqn:Hopen; [|done].
      intros [= <-]. cbn. rewrite bool_decide_eq_false_2 by done.
      by repeat split.
Qed.


Lemma ingest_fails_with_extraction_witness :
  exists w',
    @Rag.ingest
      {| fetch_gemini := fun _ _ text => Sample.answer text;
         fetch_openai := fun _ _ text => Sample.answer text;
         extract := fun _ _ _ => Throw "HTTP 404: Not Found";
         sha256_hex := fun content => content;
         fround := fun x => x;
         match_rag_chunks := fun _ _ _ => None |}
      Sample.local "https://example.com/gone" Sample.plain Sample.fresh
    = (Throw "HTTP 404: Not Found", w')
    /\ nothing_stored_or_embedded Sample.fresh w'.
Proof.
  edestruct (@ingest_fails_with_extraction
               {| fetch_gemini := fun _ _ text => Sample.answer text;
                  fetch_openai := fun _ _ text => Sample.answer text;
                  extract := fun _ _ _ => Throw "HTTP 404: Not Found";
                  sha256_hex := fun content => content;
                  fround := fun x => x;
                  match_rag_chunks := fun _ _ _ => None |}
               Sample.local "https://example.com/gone" Sample.plain
               Sample.fresh)
    as (w' & Hthrow & Hsame & _).
  - vm_compute. reflexivity.
  - reflexivity.
  - exists w'. split; [exact Hthrow|exact Hsame].
Defined.

(** ** Extraction *)

Lemma lower_char_idem (c : Ascii.ascii) :
  Js.lower_char (Js.lower_char c) = Js.lower_char c.
Proof. destruct c as [[] [] [] [] [] [] [] []]; reflexivity. Qed.

Lemma toLowerCase_idem (s : string) :
  Js.toLowerCase (Js.toLowerCase s) = Js.toLowerCase s.
Proof.
  induction s as [|c s IH]; [done|]. cbn. by rewrite lower_char_idem, IH.
Qed.

Lemma substring0_all (n : nat) (s : string) :
  (String.length s <= n)%nat -> String.substring 0 n s = s.
Proof.
  revert s. induction n as [|n IH]; intros [|c s]; cbn; try done; try lia.
  intros Hn. f_equal. apply IH. lia.
Qed.

Lemma slice0_all (n : Z) (s : string) : Js.len s <= n -> Js.slice0 n s = s.
Proof.
  unfold Js.slice0, Js.len. intros Hn. destruct (Z.ltb_spec n 0); [lia|].
  apply substring0_all. lia.
Qed.

(** X26. [detectSourceType] does not look at the case of the input; it
    answers with one of five types, and with "article" only for an input
    that starts with http:// or https://, whatever the case. *)
Theorem detectSourceType_cases (input : string) :
  Extractors.detectSourceType (Js.toLowerCase input)
  = Extractors.detectSourceType input
  /\ Extractors.detectSourceType input
     ∈ ["video"; "tweet"; "pdf"; "text"; "article"]
  /\ (Extractors.detectSourceType input = "article" ->
      Js.startsWith "http://" (Js.toLowerCase input) = true
      \/ Js.startsWith "https://" (Js.toLowerCase input) = true).
Proof.
  unfold Extractors.detectSourceType. rewrite toLowerCase_idem.
  split; [done|].
  destruct (_ || _); [split; [set_solver|done]|].
  destruct (_ || _); [split; [set_solver|done]|].
  destruct (Js.endsWith ".pdf" _); [split; [set_solver|done]|].
  destruct (_ || _); [split; [set_solver|done]|].
  destruct (Js.startsWith "http://" _) eqn:H1; cbn [orb].
  - split; [set_solver|]. intros _. by left.
  - destruct (Js.startsWith "https://" _) eqn:H2.
    + split; [set_solver|]. intros _. by right.
    + split; [set_solver|done].
Qed.

Section ExtractFacts.

Context `{Extractors.Platform}.

Lemma validateContent_ok (content sourceType : string) :
  Extractors.validateContent content sourceType = Ok tt ->
  Extractors.MIN_CONTENT_LENGTH <= Js.len content
  /\ Extractors.errorCount content < 2
  /\ (sourceType = "article" ->
      Extractors.MIN_ARTICLE_LENGTH <= Js.len content).
Proof.
  unfold Extractors.validateContent.
  destruct (Js.truthy content); cbn [negb orb]; [|done].
  destruct (Z.ltb_spec (Js.len content) Extractors.MIN_CONTENT_LENGTH);
    [done|].
  destruct (Z.geb_spec (Extractors.errorCount content) 2); [done|].
  destruct (bool_decide_reflect (sourceType = "article")) as [->|Hne];
    cbn [andb].
  - destruct (Z.ltb_spec (Js.len content) Extractors.MIN_ARTICLE_LENGTH);
      [done|].
    intros _. by repeat split.
  - intros _. by repeat split.
Qed.

(** X27. Whatever [extract] returns has passed [validateContent]: at least 20
    characters, at least 500 for an article, fewer than two of the
    error signals. The type is the one given, or else the one detected;
    the URL is the input unless the type is "text"; and what
    [extractText] read is cut to 200000 characters. *)
Theorem extract_returns_validated_content (input : string)
    (sourceType : option string) (x : extracted) :
  Extractors.extract input sourceType = Ok x ->
  x_sourceType x = Js.str_or sourceType (Extractors.detectSourceType input)
  /\ Extractors.MIN_CONTENT_LENGTH <= Js.len (x_content x)
  /\ Extractors.errorCount (x_content x) < 2
  /\ (x_sourceType x = "article" ->
      Extractors.MIN_ARTICLE_LENGTH <= Js.len (x_content x))
  /\ x_url x = (if decide (x_sourceType x = "text") then None else Some input)
  /\ (x_sourceType x ∉ ["article"; "video"; "tweet"; "pdf"] ->
      Js.len (x_content x) <= Extractors.MAX_CONTENT_LENGTH).
Proof.
  unfold Extractors.extract.
  set (type := Js.str_or sourceType (Extractors.detectSourceType input)).
  set (result := if decide (type = "article") then _ else _).
  assert (Hresult : forall r, result = Ok r ->
            type ∉ ["article"; "video"; "tweet"; "pdf"] ->
            r = Extractors.extractText input).
  { intros r. unfold result.
    destruct (decide (type = "article")); [set_solver|].
    destruct (decide (type = "video")); [set_solver|].
    destruct (decide (type = "tweet")); [set_solver|].
    destruct (decide (type = "pdf")); [set_solver|].
    by intros [= <-]. }
  destruct result as [r|e]; [|done].
  destruct (Extractors.validateContent (Extractors.content r) type)
    as [[]|e] eqn:Hvalid; [|done].
  intros [= <-]. cbn.
  destruct (validateContent_ok _ _ Hvalid) as (Hmin & Herr & Hart).
  repeat split; try done.
  intros Htext. rewrite (Hresult r eq_refl Htext).
  unfold Extractors.extractText.
  destruct (Extractors.readFile input); cbn [Extractors.content];
    apply slice0_len; unfold Extractors.MAX_CONTENT_LENGTH; lia.
Qed.

(** X28. A plain note (no file of that name, type "text"): what [extract]
    does with it. Shorter than 20 characters, it is refused with its
    length in the message; with two error signals, it is refused as an
    error page; otherwise it is returned, without URL, under its first 50
    characters as title. *)
Theorem extract_plain_note (input : string) (sourceType : option string) :
  Extractors.readFile input = None ->
  Js.str_or sourceType (Extractors.detectSourceType input) = "text" ->
  Js.len input <= Extractors.MAX_CONTENT_LENGTH ->
  Extractors.extract input sourceType
  = if Js.len input <? 20
    then Throw ("Content too short (" +:+ pretty (Js.len input) +:+ " chars)")
    else if Extractors.errorCount input >=? 2
    then Throw "Content appears to be an error page"
    else Ok {| x_title := Js.slice0 50 input
                          +:+ (if 50 <? Js.len input then "..." else "");
               x_content := input;
               x_excerpt := Js.slice0 200 input;
               x_sourceType := "text";
               x_url := None |}.
Proof.
  intros Hfile Htype Hlen. unfold Extractors.extract. rewrite Htype.
  cbn [decide]. unfold Extractors.extractText. rewrite Hfile.
  repeat (rewrite decide_False by done). rewrite decide_True by done.
  cbn [Extractors.content Extractors.title Extractors.excerpt].
  rewrite (slice0_all _ _ Hlen).
  unfold Extractors.validateContent, Extractors.MIN_CONTENT_LENGTH.
  destruct (Z.ltb_spec (Js.len input) 20) as [Hshort|Hlong].
  - by rewrite orb_true_r.
  - assert (Ht : Js.truthy input = true).
    { destruct input; [|done]. unfold Js.len in Hlong. cbn in Hlong. lia. }
    rewrite Ht. cbn [negb orb].
    destruct (Extractors.errorCount input >=? 2); [done|].
    by rewrite (bool_decide_eq_false_2 ("text" = "article")).
Qed.

End ExtractFacts.

Lemma extract_returns_validated_content_witness :
  exists x,
    @Extractors.extract Sample.offline Sample.a_note None = Ok x
    /\ 20 <= Js.len (x_content x)
    /\ x_url x = None.
Proof.
  assert (He : exists x,
             @Extractors.extract Sample.offline Sample.a_note None = Ok x)
    by (vm_compute; eexists; reflexivity).
  destruct He as (x & He). exists x. split; [exact He|].
  destruct (@extract_returns_validated_content Sample.offline Sample.a_note
              None x He) as (Ht & Hmin & _ & _ & Hurl & _).
  split; [exact Hmin|]. rewrite Hurl, Ht. reflexivity.
Defined.

Lemma extract_plain_note_witness :
  @Extractors.extract Sample.offline "water plants" None
  = Throw "Content too short (12 chars)".
Proof.
  rewrite (@extract_plain_note Sample.offline "water plants" None eq_refl
             eq_refl ltac:(vm_compute; discriminate)).
  reflexivity.
Defined.

(** ** Strings: reversal, trimming, occurrence *)

Lemma sapp_cons c a b : String c a +:+ b = String c (a +:+ b).
Proof. reflexivity. Qed.

Lemma sapp_nil_l s : "" +:+ s = s.
Proof. reflexivity. Qed.

Lemma sapp_nil_r s : s +:+ "" = s.
Proof. induction s as [|c s IH]; [done|]. by rewrite sapp_cons, IH. Qed.

Lemma sapp_assoc a b c : (a +:+ b) +:+ c = a +:+ b +:+ c.
Proof. induction a as [|x a IH]; [done|]. by rewrite !sapp_cons, IH. Qed.

Lemma rev_app_sapp s1 s2 : String.rev_app s1 s2 = String.rev s1 +:+ s2.
Proof.
  unfold String.rev. revert s2.
  induction s1 as [|c s1 IH]; intros s2; cbn [String.rev_app]; [done|].
  by rewrite IH, (IH (String c "")), sapp_assoc.
Qed.

Lemma rev_cons c s : String.rev (String c s) = String.rev s +:+ String c "".
Proof. unfold String.rev at 1. cbn [String.rev_app]. apply rev_app_sapp. Qed.

Lemma rev_sapp a b : String.rev (a +:+ b) = String.rev b +:+ String.rev a.
Proof.
  induction a as [|c a IH]; [by rewrite sapp_nil_l, sapp_nil_r|].
  by rewrite sapp_cons, !rev_cons, IH, sapp_assoc.
Qed.

Lemma rev_rev s : String.rev (String.rev s) = s.
Proof.
  induction s as [|c s IH]; [done|]. by rewrite rev_cons, rev_sapp, IH.
Qed.

Lemma occurs_refl x : occurs_in x x.
Proof. exists "", "". by rewrite sapp_nil_l, sapp_nil_r. Qed.

Lemma occurs_app x pre c post : occurs_in x c -> occurs_in x (pre +:+ c +:+ post).
Proof.
  intros (p & q & ->). exists (pre +:+ p), (q +:+ post).
  by rewrite !sapp_assoc.
Qed.

Lemma occurs_app_l x pre c : occurs_in x c -> occurs_in x (pre +:+ c).
Proof.
  intros Hx. rewrite <- (sapp_nil_r c). by apply occurs_app.
Qed.

Lemma occurs_app_r x c post : occurs_in x c -> occurs_in x (c +:+ post).
Proof. intros Hx. by apply (occurs_app x "" c post). Qed.

Lemma occurs_trans x y z : occurs_in x y -> occurs_in y z -> occurs_in x z.
Proof. intros Hxy (p & q & ->). by apply occurs_app. Qed.

Lemma drop_space_split s : exists pre, s = pre +:+ Js.drop_space s.
Proof.
  induction s as [|c s (pre & IH)]; [by exists ""|]. cbn [Js.drop_space].
  destruct (Ascii.is_space c); [|by exists ""].
  exists (String c pre). by rewrite sapp_cons, <- IH.
Qed.

Lemma drop_space_starts s c s' :
  Js.drop_space s = String c s' -> Ascii.is_space c = false.
Proof.
  induction s as [|a s IH]; [done|]. cbn [Js.drop_space].
  destruct (Ascii.is_space a) eqn:Ha; [done|]. by intros [= <- _].
Qed.

Lemma drop_space_keeps pre c x post :
  Ascii.is_space c = false ->
  exists pre',
    Js.drop_space (pre +:+ String c x +:+ post) = pre' +:+ String c x +:+ post.
Proof.
  intros Hc. induction pre as [|a pre (pre' & IH)].
  - exists "". rewrite !sapp_nil_l, sapp_cons. cbn [Js.drop_space].
    by rewrite Hc.
  - rewrite sapp_cons. cbn [Js.drop_space].
    destruct (Ascii.is_space a); [by exists pre'|].
    exists (String a pre). by rewrite sapp_cons.
Qed.

Lemma trim_occurs s : occurs_in (Js.trim s) s.
Proof.
  unfold Js.trim.
  destruct (drop_space_split s) as (pre & Hs).
  destruct (drop_space_split (String.rev (Js.drop_space s))) as (q & Hq).
  exists pre, (String.rev q). rewrite Hs at 1. f_equal.
  rewrite <- (rev_rev (Js.drop_space s)) at 1. rewrite Hq at 1.
  by rewrite rev_sapp.
Qed.

Lemma trim_keeps x c : inked x -> occurs_in x c -> occurs_in x (Js.trim c).
Proof.
  intros [(a & x' & -> & Ha) (b & y & Hrev & Hb)] (pre & post & ->).
  unfold Js.trim.
  destruct (drop_space_keeps pre a x' post Ha) as (pre' & ->).
  rewrite !rev_sapp, Hrev, sapp_assoc.
  destruct (drop_space_keeps (String.rev post) b y (String.rev pre') Hb)
    as (post' & ->).
  rewrite <- Hrev, !rev_sapp, !rev_rev.
  exists pre', (String.rev post'). by rewrite sapp_assoc.
Qed.

Lemma trim_inked s : Js.truthy (Js.trim s) = true -> inked (Js.trim s).
Proof.
  unfold Js.trim. intros Ht.
  set (u := Js.drop_space s) in *.
  set (v := Js.drop_space (String.rev u)) in *.
  assert (Hv : exists b y, v = String b y /\ Ascii.is_space b = false).
  { destruct v as [|b y] eqn:Hv; [done|]. exists b, y. split; [done|].
    by apply (drop_space_starts (String.rev u) b y). }
  split; [|by rewrite rev_rev].
  destruct u as [|a u'] eqn:Hu; [done|].
  assert (Ha : Ascii.is_space a = false)
    by (by apply (drop_space_starts s a u')).
  destruct Hv as (b & y & Hv' & Hb).
  pose proof (drop_space_keeps (String.rev u') a "" "" Ha) as (pre' & Hk).
  assert (Hrev : String.rev (String a u') = String.rev u' +:+ String a "" +:+ "")
    by (by rewrite rev_cons, sapp_nil_r).
  unfold v. rewrite Hrev, Hk, rev_sapp. rewrite sapp_nil_r.
  change (String.rev (String a "")) with (String a "").
  rewrite sapp_cons. exists a, ("" +:+ String.rev pre'). done.
Qed.

Lemma truthy_len s : Js.truthy s = true <-> 0 < Js.len s.
Proof. destruct s; unfold Js.len; cbn; split; (done || lia). Qed.

Lemma trim_truthy s : Js.truthy (Js.trim s) = true -> 0 < Js.len s.
Proof.
  intros Ht%truthy_len. pose proof (len_trim s). lia.
Qed.

(** ** The chunker keeps the text *)

Lemma split_go_occurs cur after_terminal in_sep s p :
  (in_sep = true -> cur = "") ->
  p ∈ Chunker.split_go cur after_terminal in_sep s ->
  occurs_in p (String.rev cur +:+ s).
Proof.
  revert cur after_terminal in_sep.
  induction s as [|c s IH]; intros cur a ins Hsep; cbn [Chunker.split_go].
  - intros ->%list_elem_of_singleton. rewrite sapp_nil_r. apply occurs_refl.
  - assert (Hpush : forall a', p ∈ Chunker.split_go (String c cur) a' false s ->
                      occurs_in p (String.rev cur +:+ String c s)).
    { intros a' Hp. apply IH in Hp; [|done].
      by rewrite rev_cons, sapp_assoc in Hp. }
    assert (Hskip : p ∈ Chunker.split_go "" false true s ->
                    occurs_in p (String.rev cur +:+ String c s)).
    { intros Hp. apply IH in Hp; [|done]. rewrite sapp_nil_l in Hp.
      apply occurs_app_l. by apply (occurs_app_l p (String c "") s). }
    destruct (Ascii.is_space c); [|apply Hpush].
    destruct ins.
    + pose proof (Hsep eq_refl) as ->. apply Hskip.
    + destruct a; [|apply Hpush].
      intros [->|Hp]%elem_of_cons; [|by apply Hskip].
      apply occurs_app_r, occurs_refl.
Qed.

Lemma splitSentences_occur text s :
  s ∈ Chunker.splitSentences text ->
  Js.truthy (Js.trim s) = true /\ occurs_in s text.
Proof.
  unfold Chunker.splitSentences. intros [Ht Hs]%list_elem_of_filter.
  split; [done|]. by apply split_go_occurs in Hs.
Qed.

Lemma weight_cons s l : weight (s :: l) = Js.len s + 1 + weight l.
Proof. reflexivity. Qed.

Lemma weight_nil : weight [] = 0.
Proof. reflexivity. Qed.

Lemma weight_nonneg l : 0 <= weight l.
Proof.
  induction l as [|s l IH]; [done|].
  rewrite weight_cons. pose proof (len_nonneg s). lia.
Qed.

Lemma weight_app l1 l2 : weight (l1 ++ l2) = weight l1 + weight l2.
Proof.
  induction l1 as [|s l1 IH]; [done|].
  cbn [app]. rewrite !weight_cons, IH. lia.
Qed.

Lemma weight_rev l : weight (rev l) = weight l.
Proof.
  induction l as [|s l IH]; [done|]. cbn [rev].
  rewrite weight_app, IH, !weight_cons, weight_nil. lia.
Qed.

Lemma weight_small l :
  Forall (fun s => 0 < Js.len s) l -> weight l <= 1 -> l = [].
Proof.
  intros Hl Hw. destruct l as [|s l]; [done|].
  apply Forall_cons in Hl as [Hs _]. rewrite weight_cons in Hw.
  pose proof (weight_nonneg l). lia.
Qed.

(** The overlap is made of whole sentences from the end of the chunk,
    and of all of them when they fit. *)
Lemma overlap_loop_spec overlap rev_sentences overlapText overlapSentences :
  (forall s, s ∈ overlapSentences -> occurs_in s overlapText) ->
  Js.len overlapText = weight overlapSentences ->
  let '(text, sentences) :=
    Chunker.overlap_loop overlap rev_sentences overlapText overlapSentences in
  (forall s, s ∈ sentences -> s ∈ overlapSentences \/ s ∈ rev_sentences)
  /\ (forall s, s ∈ sentences -> occurs_in s text)
  /\ Js.len text = weight sentences
  /\ (weight rev_sentences + Js.len overlapText <= overlap ->
      sentences = rev rev_sentences ++ overlapSentences).
Proof.
  revert overlapText overlapSentences.
  induction rev_sentences as [|s rest IH]; intros ot os Hocc Hlen;
    cbn [Chunker.overlap_loop].
  - split; [by left|]. by repeat split.
  - assert (Htest : Js.len (s +:+ " " +:+ ot) = Js.len s + 1 + Js.len ot).
    { rewrite !len_app. change (Js.len " ") with 1. lia. }
    destruct (Z.leb_spec (Js.len (s +:+ " " +:+ ot)) overlap) as [Hfit|Hno].
    + specialize (IH (s +:+ " " +:+ ot) (s :: os)).
      destruct (Chunker.overlap_loop overlap rest _ _) as [text sentences].
      destruct IH as (Hfrom & Hin & Hw & Hall).
      * intros x [->|Hx]%elem_of_cons.
        -- apply occurs_app_r, occurs_refl.
        -- apply (occurs_app_l x (s +:+ " ")) in Hocc; [|done].
           by rewrite sapp_assoc in Hocc.
      * rewrite Htest, weight_cons. lia.
      * split.
        { intros x Hx. destruct (Hfrom x Hx) as [[->|Hos]%elem_of_cons|Hr].
          - right. left.
          - by left.
          - right. by right. }
        split; [done|]. split; [done|].
        intros Hroom. cbn [rev]. rewrite <- app_assoc. cbn [app].
        apply Hall. rewrite weight_cons in Hroom. lia.
    + split; [by left|]. split; [done|]. split; [done|].
      intros Hroom. rewrite weight_cons in Hroom.
      pose proof (weight_nonneg rest). lia.
Qed.

Section Coverage.

Variables (chunkSize overlap minChunkSize : Z).

Hypothesis Hmin : minChunkSize <= overlap.

Lemma push_covers (seen : list string) (st : Chunker.loop_state) s :
  accounts_for seen st ->
  Forall (fun x => Js.truthy (Js.trim x) = true) seen ->
  s ∈ seen ->
  exists c,
    c ∈ Chunker.chunks st ++ [Js.trim (Chunker.currentChunk st)]
    /\ occurs_in (Js.trim s) c.
Proof.
  intros (Hseen & Hcur & _) Hink Hs.
  destruct (Hseen s Hs) as [(c & Hc & Hocc)|Hin].
  - exists c. split; [|done]. apply elem_of_app. by left.
  - exists (Js.trim (Chunker.currentChunk st)).
    split; [apply elem_of_app; right; left|].
    apply trim_keeps.
    + apply trim_inked. by apply (proj1 (Forall_forall _ _) Hink).
    + eapply occurs_trans; [apply trim_occurs|]. by apply Hcur.
Qed.

Lemma step_accounts (seen : list string) (st : Chunker.loop_state)
    (sentence : string) :
  accounts_for seen st ->
  Forall (fun x => Js.truthy (Js.trim x) = true) (seen ++ [sentence]) ->
  accounts_for (seen ++ [sentence])
    (Chunker.step chunkSize overlap minChunkSize st sentence).
Proof.
  intros Hacc Hink. pose proof Hacc as (Hseen & Hcur & Hw).
  apply Forall_app in Hink as [Hink Hnew]. apply Forall_singleton in Hnew.
  assert (Hlens : Forall (fun s => 0 < Js.len s) (Chunker.currentSentences st)).
  { apply Forall_forall. intros x Hx. apply trim_truthy.
    apply (proj1 (Forall_forall _ _) Hink). by apply Hcur. }
  unfold Chunker.step.
  destruct (Z.gtb_spec
              (Js.len (Chunker.currentChunk st) + Js.len sentence + 1)
              chunkSize) as [Hover|Hfits].
  - pose proof (overlap_loop_spec overlap (rev (Chunker.currentSentences st))
                  "" []) as Hloop.
    destruct (Chunker.overlap_loop overlap _ _ _) as [ot os].
    destruct Hloop as (Hfrom & Hocc & Hlen & Hall);
      [by intros x ?%elem_of_nil|done|].
    split; [|split]; cbn [Chunker.chunks Chunker.currentChunk
                            Chunker.currentSentences].
    + intros x [Hx | ->%list_elem_of_singleton]%elem_of_app;
        [|right; apply elem_of_app; right; left].
      destruct (Z.geb_spec (Js.len (Chunker.currentChunk st)) minChunkSize)
        as [Hbig|Hsmall].
      * left. by apply (push_covers seen st).
      * destruct (Hseen x Hx) as [Hc|Hin]; [by left|].
        right. apply elem_of_app. left.
        rewrite Hall, rev_involutive, app_nil_r; [done|].
        rewrite weight_rev. change (Js.len "") with 0. lia.
    + intros x [Hx | ->%list_elem_of_singleton]%elem_of_app.
      * split; [|by apply occurs_app_r, Hocc].
        apply elem_of_app. left.
        destruct (Hfrom x Hx) as [?%elem_of_nil|Hr]; [done|].
        apply list_elem_of_In, in_rev, list_elem_of_In in Hr.
        by apply Hcur.
      * split; [apply elem_of_app; right; left|].
        apply occurs_app_l, occurs_refl.
    + rewrite weight_app, len_app, Hlen, weight_cons, weight_nil. lia.
  - split; [|split]; cbn [Chunker.chunks Chunker.currentChunk
                            Chunker.currentSentences].
    + intros x [Hx | ->%list_elem_of_singleton]%elem_of_app;
        [|right; apply elem_of_app; right; left].
      destruct (Hseen x Hx) as [Hc|Hin]; [by left|].
      right. apply elem_of_app. by left.
    + intros x [Hx | ->%list_elem_of_singleton]%elem_of_app.
      * split; [apply elem_of_app; left; by apply Hcur|].
        apply occurs_app_r. by apply Hcur.
      * split; [apply elem_of_app; right; left|].
        apply occurs_app_l, occurs_app_l, occurs_refl.
    + rewrite weight_app, !len_app, weight_cons, weight_nil.
      destruct (Chunker.currentChunk st) as [|a cur'] eqn:Hcc.
      * assert (Hempty : Chunker.currentSentences st = []).
        { apply weight_small; [done|].
          change (Js.len "") with 0 in Hw. lia. }
        rewrite Hempty, weight_nil. cbn [Js.truthy].
        change (Js.len "") with 0. lia.
      * cbn [Js.truthy]. change (Js.len " ") with 1. lia.
Qed.

Lemma loop_accounts (sentences seen : list string) (st : Chunker.loop_state) :
  accounts_for seen st ->
  Forall (fun x => Js.truthy (Js.trim x) = true) (seen ++ sentences) ->
  accounts_for (seen ++ sentences)
    (fold_left (Chunker.step chunkSize overlap minChunkSize) sentences st).
Proof.
  revert seen st.
  induction sentences as [|s rest IH]; intros seen st Hacc Hink.
  - by rewrite app_nil_r.
  - cbn [fold_left]. rewrite (cons_middle s seen rest), app_assoc.
    apply IH.
    + apply step_accounts; [done|].
      rewrite (cons_middle s seen rest), app_assoc in Hink.
      by apply Forall_app in Hink as [? _].
    + by rewrite <- app_assoc.
Qed.

Lemma append_to_last_covers (l : list string) (suffix : string) :
  (forall c, c ∈ l ->
     exists c', c' ∈ Chunker.append_to_last l suffix /\ occurs_in c c')
  /\ (l <> [] ->
      exists c', c' ∈ Chunker.append_to_last l suffix /\ occurs_in suffix c').
Proof.
  unfold Chunker.append_to_last.
  destruct (last l) as [c0|] eqn:Hlast.
  - rewrite last_lookup in Hlast.
    assert (Hlt : (pred (length l) < length l)%nat)
      by (by eapply lookup_lt_Some).
    split.
    + intros c Hc. apply list_elem_of_lookup in Hc as (i & Hi).
      destruct (decide (i = pred (length l))) as [->|Hne].
      * exists (c0 +:+ suffix). split.
        -- apply list_elem_of_lookup. exists (pred (length l)).
           by apply list_lookup_insert_eq.
        -- assert (c = c0) as -> by congruence.
           apply occurs_app_r, occurs_refl.
      * exists c. split; [|apply occurs_refl].
        apply list_elem_of_lookup. exists i.
        by rewrite list_lookup_insert_ne.
    + intros _. exists (c0 +:+ suffix). split.
      * apply list_elem_of_lookup. exists (pred (length l)).
        by apply list_lookup_insert_eq.
      * apply occurs_app_l, occurs_refl.
  - apply last_None in Hlast as ->. split; [by intros c ?%elem_of_nil|done].
Qed.

Lemma finish_covers (seen : list string) (st : Chunker.loop_state) s :
  accounts_for seen st ->
  Forall (fun x => Js.truthy (Js.trim x) = true) seen ->
  s ∈ seen ->
  exists c, c ∈ Chunker.finish minChunkSize st /\ occurs_in (Js.trim s) c.
Proof.
  intros Hacc Hink Hs. pose proof Hacc as (Hseen & Hcur & Hw).
  unfold Chunker.finish.
  destruct (Js.len (Chunker.currentChunk st) >=? minChunkSize);
    [by apply (push_covers seen st)|].
  destruct (Z.ltb_spec 0 (Js.len (Chunker.currentChunk st))) as [Hsome|Hnone].
  - destruct (Z.ltb_spec 0 (Z.of_nat (length (Chunker.chunks st))))
      as [Hchunks|Hnochunks]; cbn [andb]; [|by apply (push_covers seen st)].
    destruct (append_to_last_covers (Chunker.chunks st)
                (" " +:+ Js.trim (Chunker.currentChunk st))) as [Hold Hlast].
    destruct (push_covers seen st s Hacc Hink Hs) as (c & Hc & Hocc).
    apply elem_of_app in Hc as [Hc | ->%list_elem_of_singleton].
    + destruct (Hold c Hc) as (c' & Hc' & Hcc'). exists c'.
      split; [done|]. by eapply occurs_trans.
    + destruct Hlast as (c' & Hc' & Hcc').
      { intros Hnil. rewrite Hnil in Hchunks. cbn in Hchunks. lia. }
      exists c'. split; [done|].
      eapply occurs_trans; [exact Hocc|].
      eapply occurs_trans; [|exact Hcc']. apply occurs_app_l, occurs_refl.
  - rewrite andb_false_r.
    assert (Hempty : Chunker.currentSentences st = []).
    { apply weight_small; [|lia].
      apply Forall_forall. intros x Hx. apply trim_truthy.
      apply (proj1 (Forall_forall _ _) Hink). by apply Hcur. }
    destruct (Hseen s Hs) as [Hc|Hin]; [done|].
    rewrite Hempty in Hin. by apply elem_of_nil in Hin.
Qed.

End Coverage.

(** X29. [chunkText] loses no text when the smallest chunk it keeps is no
    larger than the overlap (as with the sizes by default, 100 and 200):
    every sentence of the cleaned text occurs, without the white space
    around it, in at least one chunk. *)
Theorem chunkText_keeps_every_sentence (text : string) (o : Chunker.options) :
  Js.num_or (Chunker.minChunkSize o) Chunker.MIN_CHUNK_SIZE
  <= Js.num_or (Chunker.overlap o) Chunker.DEFAULT_OVERLAP ->
  forall s,
    s ∈ Chunker.splitSentences (Chunker.clean text) ->
    exists c, c ∈ Chunker.chunkText text o /\ occurs_in (Js.trim s) c.
Proof.
  intros Hmin s Hs. unfold Chunker.chunkText.
  destruct (Js.len (Chunker.clean text) <=? _).
  - exists (Chunker.clean text). split; [left|].
    apply splitSentences_occur in Hs as [_ Hocc].
    eapply occurs_trans; [apply trim_occurs|exact Hocc].
  - assert (Hink : Forall (fun x => Js.truthy (Js.trim x) = true)
                     (Chunker.splitSentences (Chunker.clean text))).
    { apply Forall_forall. intros x Hx.
      by apply splitSentences_occur in Hx as [Hx _]. }
    apply (finish_covers _ (Chunker.splitSentences (Chunker.clean text)));
      [|done|done].
    apply (loop_accounts _ _ _ Hmin (Chunker.splitSentences (Chunker.clean text))
             [] {| Chunker.chunks := []; Chunker.currentChunk := "";
                   Chunker.currentSentences := [] |}); [|done].
    split; [by intros x ?%elem_of_nil|]. split; [by intros x ?%elem_of_nil|].
    cbn [Chunker.currentSentences Chunker.currentChunk].
    rewrite weight_nil. change (Js.len "") with 0. lia.
Qed.

Lemma chunkText_keeps_every_sentence_witness :
  exists c,
    c ∈ Chunker.chunkText Sample.three_sentences Chunker.no_options
    /\ occurs_in (Sample.sentence "c" 49) c.
Proof.
  assert (Hmin : Js.num_or (Chunker.minChunkSize Chunker.no_options)
                   Chunker.MIN_CHUNK_SIZE
                 <= Js.num_or (Chunker.overlap Chunker.no_options)
                      Chunker.DEFAULT_OVERLAP)
    by (vm_compute; discriminate).
  assert (Hs : Sample.sentence "c" 49
               ∈ Chunker.splitSentences (Chunker.clean Sample.three_sentences))
    by (apply (bool_decide_eq_true_1 _); vm_compute; reflexivity).
  destruct (chunkText_keeps_every_sentence Sample.three_sentences
              Chunker.no_options Hmin (Sample.sentence "c" 49) Hs)
    as (c & Hc & Hocc).
  exists c. split; [exact Hc|].
  replace (Sample.sentence "c" 49) with (Js.trim (Sample.sentence "c" 49))
    by (vm_compute; reflexivity).
  exact Hocc.
Defined.
